(** * C lexer analyzer: scanner, statistics, shape-tree builder and differ

    A shallow embedding of [src/main.py].  The source text is a [string] whose
    characters are the code points 0..255; the character classes of Python's
    [re] module ([\w], [\d], [\b]) and [str.strip] follow Python's Unicode
    tables restricted to that range.

    - [Re]      : the backtracking matcher behind [re.compile] / [finditer];
    - [Lexer]   : [token_specs], the compiled alternation, [finditer], [lex_code];
    - [Stats]   : [get_token_stats];
    - [Tree]    : [generate_parse_tree] (anytree nodes as a rose tree);
    - [Compare] : the Compare page's equality test and difference table. *)

From Stdlib Require Import List String Ascii Bool Arith ZArith Lia.
From Stdlib Require Import Sorting.Sorted Sorting.Permutation.
Import ListNotations.
Open Scope string_scope.
Open Scope list_scope.

(* ------------------------------------------------------------------ *)
(** ** Characters *)

Module Chars.

Definition code (c : ascii) : nat := nat_of_ascii c.

Definition between (lo hi : nat) (c : ascii) : bool :=
  Nat.leb lo (code c) && Nat.leb (code c) hi.

Definition tab : ascii := ascii_of_nat 9.
Definition newline : ascii := ascii_of_nat 10.
Definition cr : ascii := ascii_of_nat 13.
Definition dquote : ascii := ascii_of_nat 34.
Definition squote : ascii := ascii_of_nat 39.
Definition backslash : ascii := ascii_of_nat 92.

(** [\d] of a str pattern on the code points below 256, where the decimal
    digits are 0-9; the Unicode digits [\d] also accepts lie above 255 and
    are outside the texts modelled here. *)
Definition is_digit (c : ascii) : bool := between 48 57 c.

(** [\w] of a str pattern: [str.isalnum] or the underscore.  Below 256 the
    alphanumerics are 0-9, A-Z, a-z, the letters of Latin-1 and its numeric
    signs (superscripts and vulgar fractions). *)
Definition is_word (c : ascii) : bool :=
  between 48 57 c || between 65 90 c || between 97 122 c || (Nat.eqb (code c) 95)
  || (Nat.eqb (code c) 170) || (Nat.eqb (code c) 178) || (Nat.eqb (code c) 179) || (Nat.eqb (code c) 181)
  || (Nat.eqb (code c) 185) || (Nat.eqb (code c) 186) || between 188 190 c
  || between 192 214 c || between 216 246 c || between 248 255 c.

(** Whitespace removed by [str.strip()]. *)
Definition is_space (c : ascii) : bool :=
  between 9 13 c || between 28 32 c || (Nat.eqb (code c) 133) || (Nat.eqb (code c) 160).

(** [sub in s] on Python strings. *)
Fixpoint contains (sub s : string) : bool :=
  String.prefix sub s
  || match s with
     | EmptyString => false
     | String _ s' => contains sub s'
     end.

End Chars.

(* ------------------------------------------------------------------ *)
(** ** The regular-expression engine *)

Module Re.
Import Chars.

(** Pattern syntax, as far as [token_specs] uses it.  Groups only matter
    through [lastgroup], which [Lexer.compiled_regex_match] takes care of. *)
Inductive regex : Type :=
| Eps
| Chr (c : ascii)
| Dot                                               (* [.] under re.DOTALL *)
| Set_ (negated : bool) (items : list (ascii * ascii))   (* [...] / [^...] *)
| Digit                                             (* \d *)
| WordB                                             (* \b *)
| Cat (r1 r2 : regex)
| Alt (r1 r2 : regex)
| Star (r : regex)                                  (* greedy r* *)
| LazyStar (r : regex).                             (* r*? *)

Definition Plus (r : regex) : regex := Cat r (Star r).

Fixpoint Lit (s : string) : regex :=
  match s with
  | EmptyString => Eps
  | String c s' => Cat (Chr c) (Lit s')
  end.

(** [a|b|c] *)
Fixpoint Alts (rs : list regex) : regex :=
  match rs with
  | [] => Set_ false []
  | [r] => r
  | r :: rs' => Alt r (Alts rs')
  end.

(** Items of a character class: single characters and ranges. *)
Fixpoint chars (s : string) : list (ascii * ascii) :=
  match s with
  | EmptyString => []
  | String c s' => (c, c) :: chars s'
  end.

Definition in_items (items : list (ascii * ascii)) (c : ascii) : bool :=
  existsb (fun it => between (code (fst it)) (code (snd it)) c) items.

Definition in_set (negated : bool) (items : list (ascii * ascii)) (c : ascii) : bool :=
  if negated then negb (in_items items c) else in_items items c.

(** A matcher position: the character before the cursor (if any) and the
    text from the cursor on. *)
Definition state : Type := option ascii * string.
Definition cont : Type := state -> option state.

Definition word_before (st : state) : bool :=
  match fst st with Some c => is_word c | None => false end.
Definition word_after (st : state) : bool :=
  match snd st with String c _ => is_word c | EmptyString => false end.
Definition at_boundary (st : state) : bool :=
  negb (Bool.eqb (word_before st) (word_after st)).

(** One character satisfying [p]. *)
Definition one (p : ascii -> bool) (k : cont) (st : state) : option state :=
  match snd st with
  | String c s' => if p c then k (Some c, s') else None
  | EmptyString => None
  end.

Definition orelse (a : option state) (b : option state) : option state :=
  match a with Some x => Some x | None => b end.

(** Greedy repetition: another iteration first, the continuation second.
    An iteration has to consume input; the text before the cursor shrinks at
    each one, so [S (length text)] rounds are never used up. *)
Fixpoint star (step : cont -> cont) (fuel : nat) (k : cont) (st : state) : option state :=
  match fuel with
  | 0 => k st
  | S fuel' =>
      orelse
        (step (fun st' =>
                 if Nat.ltb (String.length (snd st')) (String.length (snd st))
                 then star step fuel' k st' else None) st)
        (k st)
  end.

(** Lazy repetition: the continuation first, another iteration second. *)
Fixpoint lazy_star (step : cont -> cont) (fuel : nat) (k : cont) (st : state) : option state :=
  match fuel with
  | 0 => k st
  | S fuel' =>
      orelse
        (k st)
        (step (fun st' =>
                 if Nat.ltb (String.length (snd st')) (String.length (snd st))
                 then lazy_star step fuel' k st' else None) st)
  end.

(** Backtracking match of [r] at [st], then [k]: the first success in
    priority order (left alternative first, greedy/lazy as written). *)
Fixpoint bt (r : regex) (k : cont) (st : state) : option state :=
  match r with
  | Eps => k st
  | Chr c => one (Ascii.eqb c) k st
  | Dot => one (fun _ => true) k st
  | Set_ negated items => one (in_set negated items) k st
  | Digit => one is_digit k st
  | WordB => if at_boundary st then k st else None
  | Cat r1 r2 => bt r1 (bt r2 k) st
  | Alt r1 r2 => orelse (bt r1 k st) (bt r2 k st)
  | Star r' => star (bt r') (S (String.length (snd st))) k st
  | LazyStar r' => lazy_star (bt r') (S (String.length (snd st))) k st
  end.

(** [pattern.match] at a position: where the match ends. *)
Definition match_at (r : regex) (st : state) : option state := bt r Some st.

End Re.

(* ------------------------------------------------------------------ *)
(** ** Rule table and scanner *)

Module Lexer.
Import Chars Re.

(** The group names of [token_specs]. *)
Inductive category : Type :=
| Library | Line_Comment | Block_Comment | Access_Specifier | Data_Type
| Keyword | Bracket_Parenthesis | Delimiter | Assignment_Operator
| Increment_Decrement_Operator | Arithmetic_Operator | Relational_Operator
| Logical_Operator | Bitwise_Operator | Float_Constant | Integer_Constant
| Character_Constant | String_Literal | Identifier | Whitespace | Newline
| Unknown_Token.

Definition category_name (k : category) : string :=
  match k with
  | Library => "Library"
  | Line_Comment => "Line_Comment"
  | Block_Comment => "Block_Comment"
  | Access_Specifier => "Access_Specifier"
  | Data_Type => "Data_Type"
  | Keyword => "Keyword"
  | Bracket_Parenthesis => "Bracket_Parenthesis"
  | Delimiter => "Delimiter"
  | Assignment_Operator => "Assignment_Operator"
  | Increment_Decrement_Operator => "Increment_Decrement_Operator"
  | Arithmetic_Operator => "Arithmetic_Operator"
  | Relational_Operator => "Relational_Operator"
  | Logical_Operator => "Logical_Operator"
  | Bitwise_Operator => "Bitwise_Operator"
  | Float_Constant => "Float_Constant"
  | Integer_Constant => "Integer_Constant"
  | Character_Constant => "Character_Constant"
  | String_Literal => "String_Literal"
  | Identifier => "Identifier"
  | Whitespace => "Whitespace"
  | Newline => "Newline"
  | Unknown_Token => "Unknown_Token"
  end.

Definition category_eqb (a b : category) : bool :=
  String.eqb (category_name a) (category_name b).

Definition words (ws : list string) : regex := Alts (map Lit ws).

Definition token_specs : list (category * regex) :=
  [ (Library,
      Cat (Lit "#include")
        (Cat (Star (Set_ false [(" "%char, " "%char); (tab, tab)]))
          (Cat (Chr "<") (Cat (Plus (Set_ true (chars ">"))) (Chr ">")))));
    (Line_Comment,
      Cat (Lit "//") (Star (Set_ true [(newline, newline)])));
    (Block_Comment,
      Cat (Lit "/*") (Cat (LazyStar Dot) (Lit "*/")));
    (Access_Specifier,
      Cat WordB (Cat (words ["private"; "protected"; "public"]) WordB));
    (Data_Type,
      Cat WordB
        (Cat (words ["int"; "float"; "double"; "char"; "bool"; "string";
                     "long"; "short"; "void"]) WordB));
    (Keyword,
      Cat WordB
        (Cat (words ["if"; "else"; "while"; "for"; "return"; "break";
                     "continue"; "switch"; "case"; "default"; "sizeof"; "do";
                     "goto"; "enum"; "typedef"; "struct"; "class"; "const";
                     "static"; "volatile"; "signed"; "unsigned"; "try";
                     "catch"; "throw"; "new"; "delete"]) WordB));
    (Bracket_Parenthesis, Set_ false (chars "{}[]()"));
    (Delimiter, Set_ false (chars ";,:"));
    (Assignment_Operator, Chr "=");
    (Increment_Decrement_Operator, Alt (Lit "++") (Lit "--"));
    (Arithmetic_Operator, Set_ false (chars "+-*/%"));
    (Relational_Operator, words ["=="; "!="; "<="; ">="; "<"; ">"]);
    (Logical_Operator, words ["||"; "&&"; "!"]);
    (Bitwise_Operator, words ["&"; "|"; "^"; "~"; "<<"; ">>"]);
    (Float_Constant,
      Cat WordB (Cat (Plus Digit) (Cat (Chr ".") (Cat (Plus Digit) WordB))));
    (Integer_Constant, Cat WordB (Cat (Plus Digit) WordB));
    (Character_Constant,
      Cat (Chr squote)
        (Cat (Alt (Set_ true [(backslash, backslash); (squote, squote)])
                  (Cat (Chr backslash) Dot))
             (Chr squote)));
    (String_Literal,
      Cat (Chr dquote)
        (Cat (Star (Alt (Set_ true [(backslash, backslash); (dquote, dquote)])
                        (Cat (Chr backslash) Dot)))
             (Chr dquote)));
    (Identifier,
      Cat WordB
        (Cat (Set_ false [("A"%char, "Z"%char); ("a"%char, "z"%char);
                          ("_"%char, "_"%char)])
          (Cat (Star (Set_ false [("A"%char, "Z"%char); ("a"%char, "z"%char);
                                  ("_"%char, "_"%char); ("0"%char, "9"%char)]))
               WordB)));
    (Whitespace, Plus (Set_ false [(" "%char, " "%char); (tab, tab); (cr, cr)]));
    (Newline, Chr newline);
    (Unknown_Token, Dot) ].

(** The alternation of the named groups: the first rule, in list order,
    that matches at the position wins; [lastgroup] is its name. *)
Fixpoint first_match (specs : list (category * regex)) (st : state)
  : option (category * state) :=
  match specs with
  | [] => None
  | (name, r) :: specs' =>
      match match_at r st with
      | Some st' => Some (name, st')
      | None => first_match specs' st
      end
  end.

Definition compiled_regex_match (st : state) : option (category * state) :=
  first_match token_specs st.

(** A match object: [match.lastgroup] and [match.group()]. *)
Record Match : Type := { lastgroup : category; group : string }.

(** [compiled_regex.finditer]: the pattern is tried at the cursor; on a
    match the search resumes at the match's end, otherwise one character
    further.  Every round moves the cursor forward (no rule matches the
    empty string), so [S (length source)] rounds reach the end. *)
Fixpoint finditer_from (fuel : nat) (prev : option ascii) (s : string) : list Match :=
  match fuel with
  | 0 => []
  | S fuel' =>
      match compiled_regex_match (prev, s) with
      | Some (name, (prev', rest)) =>
          {| lastgroup := name;
             group := substring 0 (String.length s - String.length rest) s |}
            :: finditer_from fuel' prev' rest
      | None =>
          match s with
          | EmptyString => []
          | String c s' => finditer_from fuel' (Some c) s'
          end
      end
  end.

Definition finditer (source_code : string) : list Match :=
  finditer_from (S (String.length source_code)) None source_code.

Definition token : Type := Z * category * string.
Definition error : Type := Z * string * string.

Definition tok_line (t : token) : Z := fst (fst t).
Definition tok_kind (t : token) : category := snd (fst t).
Definition tok_value (t : token) : string := snd t.

(** The loop state of [lex_code]. *)
Record lex_state : Type :=
  { tokens : list token; line_no : Z; errors : list error }.

Definition lex_step (st : lex_state) (m : Match) : lex_state :=
  let kind := lastgroup m in
  let value := group m in
  if category_eqb kind Whitespace then st
  else if category_eqb kind Newline then
    {| tokens := tokens st; line_no := (line_no st + 1)%Z; errors := errors st |}
  else if category_eqb kind Unknown_Token then
    {| tokens := tokens st; line_no := line_no st;
       errors := errors st ++ [(line_no st, "Unknown Token", value)] |}
  else
    {| tokens := tokens st ++ [(line_no st, kind, value)];
       line_no := line_no st; errors := errors st |}.

Definition lex_init : lex_state := {| tokens := []; line_no := 1%Z; errors := [] |}.

Definition lex_code (source_code : string) : list token * list error :=
  let final := fold_left lex_step (finditer source_code) lex_init in
  (tokens final, errors final).

End Lexer.

(* ------------------------------------------------------------------ *)
(** ** Token statistics *)

Module Stats.
Import Chars Lexer.

(** The dictionary [stats], one field per key. *)
Record stats : Type :=
  { n_Keyword : Z; n_Identifier : Z; n_Constant : Z; n_Operator : Z }.

Definition stats_init : stats :=
  {| n_Keyword := 0; n_Identifier := 0; n_Constant := 0; n_Operator := 0 |}.

Definition stats_step (st : stats) (t : token) : stats :=
  let kind := category_name (tok_kind t) in
  if String.eqb kind "Keyword" then
    {| n_Keyword := n_Keyword st + 1; n_Identifier := n_Identifier st;
       n_Constant := n_Constant st; n_Operator := n_Operator st |}
  else if String.eqb kind "Identifier" then
    {| n_Keyword := n_Keyword st; n_Identifier := n_Identifier st + 1;
       n_Constant := n_Constant st; n_Operator := n_Operator st |}
  else if contains "Constant" kind then
    {| n_Keyword := n_Keyword st; n_Identifier := n_Identifier st;
       n_Constant := n_Constant st + 1; n_Operator := n_Operator st |}
  else if contains "Operator" kind then
    {| n_Keyword := n_Keyword st; n_Identifier := n_Identifier st;
       n_Constant := n_Constant st; n_Operator := n_Operator st + 1 |}
  else st.

Definition get_token_stats (tokens : list token) : stats :=
  fold_left stats_step tokens stats_init.

End Stats.

(* ------------------------------------------------------------------ *)
(** ** Parse tree generator *)

Module Tree.
Import Chars Lexer.

(** An anytree node: its name and its children, in attachment order. *)
#[warnings="-register-all"]
Inductive Node : Type := mkNode (name : string) (children : list Node).

(** Outcome of code that indexes the token list. *)
Inductive result (A : Type) : Type :=
| Ok (a : A)
| IndexError.
Arguments Ok {A} a.
Arguments IndexError {A}.

Definition bind {A B : Type} (r : result A) (f : A -> result B) : result B :=
  match r with Ok a => f a | IndexError => IndexError end.

Notation "x <- e ;; k" := (bind e (fun x => k))
  (at level 61, e at next level, right associativity).

(** [tokens[i]] for [0 <= i]: an index past the end raises. *)
Definition getitem (tokens : list token) (i : nat) : result token :=
  match nth_error tokens i with
  | Some t => Ok t
  | None => IndexError
  end.

(** [i < n and tokens[i][1] == kind] *)
Definition kind_at (tokens : list token) (i : nat) (k : category) : bool :=
  match nth_error tokens i with
  | Some t => category_eqb (tok_kind t) k
  | None => false
  end.

(** [str.strip()] *)
Fixpoint lstrip (s : string) : string :=
  match s with
  | EmptyString => EmptyString
  | String c s' => if is_space c then lstrip s' else s
  end.

Fixpoint rstrip (s : string) : string :=
  match s with
  | EmptyString => EmptyString
  | String c s' =>
      match rstrip s' with
      | EmptyString => if is_space c then EmptyString else String c EmptyString
      | r => String c r
      end
  end.

Definition strip (s : string) : string := rstrip (lstrip s).

Definition leaf (name : string) : Node := mkNode name [].

(** [while i < n and not (tokens[i] is the bracket b): i += 1], run over
    the tokens from [i] on. *)
Fixpoint skip_to (b : string) (rest : list token) (i : nat) : nat :=
  match rest with
  | [] => i
  | t :: rest' =>
      if category_eqb (tok_kind t) Bracket_Parenthesis && String.eqb (tok_value t) b
      then i else skip_to b rest' (S i)
  end.

(** The expression loop of a standalone assignment, run over the tokens
    from [i] on: up to the next delimiter, or to the end. *)
Fixpoint expr_loop (rest : list token) (i : nat) (expr : list Node) : nat * list Node :=
  match rest with
  | [] => (i, expr)
  | t :: rest' =>
      let ekind := tok_kind t in
      let eval_ := tok_value t in
      if category_eqb ekind Delimiter then (i, expr)
      else
        let expr' :=
          if category_eqb ekind Identifier then expr ++ [leaf ("ID: " ++ eval_)]
          else if category_eqb ekind Arithmetic_Operator
               then expr ++ [leaf ("Arithmetic_Operator: " ++ eval_)]
          else if category_eqb ekind Integer_Constant
               then expr ++ [leaf ("Integer_Constant: " ++ eval_)]
          else if category_eqb ekind Float_Constant
               then expr ++ [leaf ("Float_Constant: " ++ eval_)]
          else expr in
        expr_loop rest' (S i) expr'
  end.

(** One round of the main loop at [i < n]: the new cursor and the children
    of [program] after it. *)
Definition parse_step (tokens : list token) (i : nat) (program : list Node)
  : result (nat * list Node) :=
  t <- getitem tokens i ;;
  let kind := tok_kind t in
  let val := tok_value t in
  (* 1) delimiters, parentheses, braces *)
  if category_eqb kind Delimiter || category_eqb kind Bracket_Parenthesis then
    Ok (i + 1, program)
  (* 2) declarations *)
  else if category_eqb kind Data_Type && (String.eqb val "int" || String.eqb val "float") then
    let i := i + 1 in
    t_name <- getitem tokens i ;;
    let ident := leaf ("ID: " ++ tok_value t_name) in
    let i := i + 1 in
    if kind_at tokens i Assignment_Operator then
      let i := i + 1 in
      t_const <- getitem tokens i ;;
      let ctype := if String.eqb val "float" then "Float_Constant" else "Integer_Constant" in
      let decl := mkNode ("Declaration(" ++ val ++ ")")
                         [ident; leaf (ctype ++ ": " ++ tok_value t_const)] in
      Ok (i + 1, program ++ [decl])
    else
      Ok (i, program ++ [mkNode ("Declaration(" ++ val ++ ")") [ident]])
  (* 3) comments *)
  else if category_eqb kind Line_Comment || category_eqb kind Block_Comment then
    Ok (i + 1, program ++ [leaf ("Comment: " ++ strip val)])
  (* 4) standalone assignment *)
  else if category_eqb kind Identifier && kind_at tokens (i + 1) Assignment_Operator then
    let i := i + 2 in
    let '(i, expr) := expr_loop (skipn i tokens) i [] in
    let assign_node := mkNode "Assignment" [leaf ("ID: " ++ val); mkNode "Expression" expr] in
    Ok (i + 1, program ++ [assign_node])
  (* 5) if statement *)
  else if category_eqb kind Keyword && String.eqb val "if" then
    let i := i + 1 in
    let i := skip_to "(" (skipn i tokens) i in
    let i := i + 1 in
    lop <- getitem tokens i ;;
    let i := i + 1 in
    rop <- getitem tokens i ;;
    let i := i + 1 in
    rip <- getitem tokens i ;;
    let cond := mkNode "Expression"
                  [leaf ("ID: " ++ tok_value lop);
                   leaf ("Relational_Operator: " ++ tok_value rop);
                   leaf ("Integer_Constant: " ++ tok_value rip)] in
    let i := i + 1 in
    let i := skip_to "{" (skipn i tokens) i in
    let i := i + 1 in
    lid <- getitem tokens i ;;
    let i := i + 2 in
    l2 <- getitem tokens i ;;
    let i := i + 1 in
    a2 <- getitem tokens i ;;
    let i := i + 1 in
    r2 <- getitem tokens i ;;
    let expr2 := mkNode "Expression"
                   [leaf ("ID: " ++ tok_value l2);
                    leaf ("Arithmetic_Operator: " ++ tok_value a2);
                    leaf ("Integer_Constant: " ++ tok_value r2)] in
    let asg := mkNode "Assignment" [leaf ("ID: " ++ tok_value lid); expr2] in
    let if_node := mkNode "if()" [cond; mkNode "Statement" [asg]] in
    Ok (i + 1, program ++ [if_node])
  (* 6) return statement *)
  else if category_eqb kind Keyword && String.eqb val "return" then
    let i := i + 1 in
    rv <- getitem tokens i ;;
    let rtn := mkNode "return()" [leaf ("Integer_Constant: " ++ tok_value rv)] in
    Ok (i + 1, program ++ [rtn])
  (* 7) end marker *)
  else if category_eqb kind Keyword && String.eqb val "End" then
    Ok (i + 1, program ++ [leaf "End"])
  else
    Ok (i + 1, program).

(** [while i < n]: every round moves the cursor forward, so [n] rounds are
    enough; [None] stands for a loop still running when they are used up. *)
Fixpoint parse_loop (fuel : nat) (tokens : list token) (i : nat) (program : list Node)
  : option (result Node) :=
  if Nat.leb (List.length tokens) i then Some (Ok (mkNode "Program" program))
  else
    match fuel with
    | 0 => None
    | S fuel' =>
        match parse_step tokens i program with
        | Ok (i', program') => parse_loop fuel' tokens i' program'
        | IndexError => Some IndexError
        end
    end.

Definition generate_parse_tree (tokens : list token) : option (result Node) :=
  parse_loop (List.length tokens) tokens 0 [].

End Tree.

(* ------------------------------------------------------------------ *)
(** ** Compare page *)

Module Compare.
Import Lexer.

Definition token_eqb (a b : token) : bool :=
  Z.eqb (tok_line a) (tok_line b)
  && category_eqb (tok_kind a) (tok_kind b)
  && String.eqb (tok_value a) (tok_value b).

(** [df1.equals(df2)] for the frames built from the two token lists over
    the same three columns: same shape and equal elements. *)
Fixpoint df_equals (tokens1 tokens2 : list token) : bool :=
  match tokens1, tokens2 with
  | [], [] => true
  | a :: l1, b :: l2 => token_eqb a b && df_equals l1 l2
  | _, _ => false
  end.

(** [tokens[i] if i < len(tokens) else ("", "", "")].  [None] is the
    placeholder triple: its first component is a string, a token's is an
    integer, so it is unequal to every token. *)
Definition slot (tokens : list token) (i : nat) : option token := nth_error tokens i.

(** [tok1 != tok2] *)
Definition slot_neqb (a b : option token) : bool :=
  match a, b with
  | Some x, Some y => negb (token_eqb x y)
  | None, None => false
  | _, _ => true
  end.

(** [f"{tok[1]}: {tok[2]}" if tok[1] else ""] *)
Definition label (tok : option token) : string :=
  match tok with
  | Some t =>
      if String.eqb (category_name (tok_kind t)) EmptyString then EmptyString
      else category_name (tok_kind t) ++ ": " ++ tok_value t
  | None => EmptyString
  end.

(** A row of the differences table: "Line#", "Code 1 Token", "Code 2 Token". *)
Record diff_row : Type :=
  { row_line : Z; code1_token : string; code2_token : string }.

Definition diff_step (tokens1 tokens2 : list token) (diff_rows : list diff_row) (i : nat)
  : list diff_row :=
  let tok1 := slot tokens1 i in
  let tok2 := slot tokens2 i in
  if slot_neqb tok1 tok2 then
    diff_rows ++ [ {| row_line := Z.of_nat i + 1;
                      code1_token := label tok1;
                      code2_token := label tok2 |} ]
  else diff_rows.

Definition diff_rows (tokens1 tokens2 : list token) : list diff_row :=
  let max_len := Nat.max (List.length tokens1) (List.length tokens2) in
  fold_left (diff_step tokens1 tokens2) (seq 0 max_len) [].

(** The comparison as the page runs it: the difference table is only
    computed when the frames are not equal. *)
Definition compare_tokens (tokens1 tokens2 : list token) : bool * list diff_row :=
  if df_equals tokens1 tokens2 then (true, [])
  else (false, diff_rows tokens1 tokens2).

End Compare.

(* ------------------------------------------------------------------ *)
(** ** Notions used in the statements *)

Module Props.
Import Chars Re Lexer Stats Tree Compare.

(** Sum of the four counters. *)
Definition total (st : stats) : Z :=
  (n_Keyword st + n_Identifier st + n_Constant st + n_Operator st)%Z.

(** [st'] is [st] with at most one counter moved up by one. *)
Definition bumps_at_most_one (st st' : stats) : Prop :=
  st' = st
  \/ st' = {| n_Keyword := n_Keyword st + 1; n_Identifier := n_Identifier st;
              n_Constant := n_Constant st; n_Operator := n_Operator st |}
  \/ st' = {| n_Keyword := n_Keyword st; n_Identifier := n_Identifier st + 1;
              n_Constant := n_Constant st; n_Operator := n_Operator st |}
  \/ st' = {| n_Keyword := n_Keyword st; n_Identifier := n_Identifier st;
              n_Constant := n_Constant st + 1; n_Operator := n_Operator st |}
  \/ st' = {| n_Keyword := n_Keyword st; n_Identifier := n_Identifier st;
              n_Constant := n_Constant st; n_Operator := n_Operator st + 1 |}.

Definition kind_in (ks : list category) (t : token) : bool :=
  existsb (category_eqb (tok_kind t)) ks.

(** Number of tokens whose category is one of [ks]. *)
Definition count_kinds (ks : list category) (tokens : list token) : Z :=
  Z.of_nat (List.length (filter (kind_in ks) tokens)).

(** The label of side [tokens] at index [i], in the words of the
    specification: empty when out of range, otherwise "category: lexeme". *)
Definition spec_label (tokens : list token) (i : nat) : string :=
  match nth_error tokens i with
  | Some t => category_name (tok_kind t) ++ ": " ++ tok_value t
  | None => EmptyString
  end.

(** The categories whose name contains "Constant". *)
Definition constant_kinds : list category :=
  [Integer_Constant; Float_Constant; Character_Constant].

(** The row for index [i], in the words of the specification. *)
Definition spec_row (tokens1 tokens2 : list token) (i : nat) : diff_row :=
  {| row_line := Z.of_nat i + 1;
     code1_token := spec_label tokens1 i;
     code2_token := spec_label tokens2 i |}.

(** Shortest length of a match of [r]. *)
Fixpoint min_len (r : regex) : nat :=
  match r with
  | Eps | WordB | Star _ | LazyStar _ => 0
  | Chr _ | Dot | Set_ _ _ | Digit => 1
  | Cat r1 r2 => min_len r1 + min_len r2
  | Alt r1 r2 => Nat.min (min_len r1) (min_len r2)
  end.

(** The character before the cursor after reading [w]. *)
Fixpoint advance (prev : option ascii) (w : string) : option ascii :=
  match w with
  | EmptyString => prev
  | String c w' => advance (Some c) w'
  end.

(** [den r st st']: [r] can match from position [st] to position [st']. *)
Inductive den : regex -> state -> state -> Prop :=
| den_eps st : den Eps st st
| den_chr c p s : den (Chr c) (p, String c s) (Some c, s)
| den_dot c p s : den Dot (p, String c s) (Some c, s)
| den_set negated items c p s :
    in_set negated items c = true ->
    den (Set_ negated items) (p, String c s) (Some c, s)
| den_digit c p s : is_digit c = true -> den Digit (p, String c s) (Some c, s)
| den_wordb st : at_boundary st = true -> den WordB st st
| den_cat r1 r2 st st1 st2 :
    den r1 st st1 -> den r2 st1 st2 -> den (Cat r1 r2) st st2
| den_alt_l r1 r2 st st' : den r1 st st' -> den (Alt r1 r2) st st'
| den_alt_r r1 r2 st st' : den r2 st st' -> den (Alt r1 r2) st st'
| den_star_stop r st : den (Star r) st st
| den_star_more r st st1 st2 :
    den r st st1 -> den (Star r) st1 st2 -> den (Star r) st st2
| den_lazy_stop r st : den (LazyStar r) st st
| den_lazy_more r st st1 st2 :
    den r st st1 -> den (LazyStar r) st1 st2 -> den (LazyStar r) st st2.

(** Whatever [step] returns went through a match of [r]. *)
Definition respects (step : cont -> cont) (r : regex) : Prop :=
  forall k st res, step k st = Some res ->
                   exists st', den r st st' /\ k st' = Some res.

(** [step] calls its continuation only at the cursor or further on. *)
Definition local (step : cont -> cont) : Prop :=
  forall k1 k2 st,
    (forall st', String.length (snd st') <= String.length (snd st) -> k1 st' = k2 st') ->
    step k1 st = step k2 st.

(** Concatenation of a list of strings. *)
Fixpoint joined (l : list string) : string :=
  match l with
  | [] => EmptyString
  | x :: l' => x ++ joined l'
  end.

(** What [lex_code] does with a match of group [k]. *)
Inductive outcome : Type := Emits_token | Emits_error | Discarded.

Definition outcome_of (k : category) : outcome :=
  match k with
  | Whitespace | Newline => Discarded
  | Unknown_Token => Emits_error
  | _ => Emits_token
  end.

Definition outcome_eqb (a b : outcome) : bool :=
  match a, b with
  | Emits_token, Emits_token | Emits_error, Emits_error
  | Discarded, Discarded => true
  | _, _ => false
  end.

Definition has_outcome (o : outcome) (m : Match) : bool :=
  outcome_eqb (outcome_of (lastgroup m)) o.

(** Category and lexeme of a token, of a match. *)
Definition token_text (t : token) : category * string := (tok_kind t, tok_value t).
Definition match_text (m : Match) : category * string := (lastgroup m, group m).

(** Every character of [s] satisfies [p]. *)
Fixpoint all_chars (p : ascii -> bool) (s : string) : bool :=
  match s with
  | EmptyString => true
  | String c s' => p c && all_chars p s'
  end.

(** The text does not start with a character satisfying [p]. *)
Definition stops (p : ascii -> bool) (s : string) : bool :=
  match s with
  | EmptyString => true
  | String c _ => negb (p c)
  end.

Definition is_blank (c : ascii) : bool := Ascii.eqb c " " || Ascii.eqb c tab.
Definition not_gt (c : ascii) : bool := negb (Ascii.eqb c ">").

(** [m] is a match of a rule of the table named [lastgroup m], and
    [group m] is the text that match read. *)
Definition rule_match (m : Match) : Prop :=
  exists r p t p' rest,
    In (lastgroup m, r) token_specs /\ den r (p, t) (p', rest)
    /\ group m = substring 0 (String.length t - String.length rest) t.

(** The loop invariant of [lex_code] on line numbers. *)
Definition lines_ok (st : lex_state) : Prop :=
  (1 <= line_no st)%Z
  /\ StronglySorted Z.le (map tok_line (tokens st))
  /\ Forall (fun t => (1 <= tok_line t <= line_no st)%Z) (tokens st).

(** [in_source_order vs s]: the strings [vs] occur in [s] one after the
    other, without overlap. *)
Inductive in_source_order : list string -> string -> Prop :=
| iso_nil s : in_source_order [] s
| iso_cons gap v vs s :
    in_source_order vs s -> in_source_order (v :: vs) (gap ++ v ++ s).

(** A token that opens a shape reading ahead without a bound check. *)
Definition opens_unguarded_shape (t : token) : bool :=
  (category_eqb (tok_kind t) Data_Type
     && (String.eqb (tok_value t) "int" || String.eqb (tok_value t) "float"))
  || (category_eqb (tok_kind t) Keyword
        && (String.eqb (tok_value t) "if" || String.eqb (tok_value t) "return")).

(** Every repetition in [r] has a body that consumes input. *)
Fixpoint productive (r : regex) : bool :=
  match r with
  | Cat r1 r2 | Alt r1 r2 => productive r1 && productive r2
  | Star r' | LazyStar r' => Nat.leb 1 (min_len r') && productive r'
  | _ => true
  end.

(** [r] has a match at position [st]. *)
Definition can_match (r : regex) (st : state) : Prop := exists st', den r st st'.

(** The characters a non-empty match of [r] can start with. *)
Fixpoint first_chars (r : regex) (c : ascii) : bool :=
  match r with
  | Eps | WordB => false
  | Chr c' => Ascii.eqb c' c
  | Dot => true
  | Set_ negated items => in_set negated items c
  | Digit => is_digit c
  | Cat r1 r2 => first_chars r1 c || (Nat.eqb (min_len r1) 0 && first_chars r2 c)
  | Alt r1 r2 => first_chars r1 c || first_chars r2 c
  | Star r' | LazyStar r' => first_chars r' c
  end.

(** The rules of [specs] from the first one on that could start with [c]. *)
Fixpoint drop_unfit (specs : list (category * regex)) (c : ascii)
  : list (category * regex) :=
  match specs with
  | [] => []
  | (name, r) :: specs' =>
      if first_chars r c || Nat.eqb (min_len r) 0 then specs
      else drop_unfit specs' c
  end.

(** Two positions with the same text ahead and the same kind of character
    (word or not) behind. *)
Definition same_ctx (a b : state) : Prop :=
  snd a = snd b /\ word_before a = word_before b.

Definition same_result (a b : option state) : Prop :=
  match a, b with
  | None, None => True
  | Some x, Some y => same_ctx x y
  | _, _ => False
  end.

(** A token, an error record, moved down by [d] lines. *)
Definition shift_token (d : Z) (t : token) : token :=
  ((tok_line t + d)%Z, tok_kind t, tok_value t).
Definition shift_error (d : Z) (e : error) : error :=
  ((fst (fst e) + d)%Z, snd (fst e), snd e).

(** A loop state of [lex_code] seen [d] lines further down, behind the
    tokens [T] and the errors [E]. *)
Definition offset (d : Z) (T : list token) (E : list error) (st : lex_state)
  : lex_state :=
  {| tokens := T ++ map (shift_token d) (tokens st);
     line_no := (line_no st + d)%Z;
     errors := E ++ map (shift_error d) (errors st) |}.

(** The result of a scan whose first match has group [k] and text [w],
    in front of a text scanned as [r]. *)
Definition after_match (k : category) (w : string)
           (r : list token * list error) : list token * list error :=
  match outcome_of k with
  | Emits_token => ((1%Z, k, w) :: fst r, snd r)
  | Emits_error => (fst r, (1%Z, "Unknown Token", w) :: snd r)
  | Discarded =>
      if category_eqb k Newline
      then (map (shift_token 1) (fst r), map (shift_error 1) (snd r))
      else r
  end.

(** [lex_code]'s loop over a list of matches. *)
Definition lex_matches (ms : list Match) : list token * list error :=
  (tokens (fold_left lex_step ms lex_init), errors (fold_left lex_step ms lex_init)).

(** Character tests used in the statements. *)
Definition is_hspace (c : ascii) : bool :=
  Ascii.eqb c " " || Ascii.eqb c tab || Ascii.eqb c cr.
Definition is_not (x c : ascii) : bool := negb (Ascii.eqb c x).
Definition plain_string_char (c : ascii) : bool :=
  negb (Ascii.eqb c dquote) && negb (Ascii.eqb c backslash).

(** [m] is what the rule table matched at some position. *)
Definition table_match (m : Match) : Prop :=
  exists p p' rest,
    compiled_regex_match (p, (group m ++ rest)%string)
    = Some (lastgroup m, (p', rest)).

(** [r] matches the empty text, whatever is around it. *)
Fixpoint empty_ok (r : regex) : bool :=
  match r with
  | Eps | Star _ | LazyStar _ => true
  | Cat r1 r2 => empty_ok r1 && empty_ok r2
  | Alt r1 r2 => empty_ok r1 || empty_ok r2
  | _ => false
  end.

(** [r] matches the single character [c], whatever is around it. *)
Fixpoint accepts_char (r : regex) (c : ascii) : bool :=
  match r with
  | Eps | WordB => false
  | Chr c' => Ascii.eqb c' c
  | Dot => true
  | Set_ negated items => in_set negated items c
  | Digit => is_digit c
  | Cat r1 r2 =>
      (accepts_char r1 c && empty_ok r2) || (empty_ok r1 && accepts_char r2 c)
  | Alt r1 r2 => accepts_char r1 c || accepts_char r2 c
  | Star r' | LazyStar r' => accepts_char r' c
  end.

(** Some rule before the catch-all matches [c] wherever it stands. *)
Definition always_matched (c : ascii) : bool :=
  existsb (fun nr => accepts_char (snd nr) c) (removelast token_specs).

(** The rule of the table named [k]. *)
Definition find_rule (k : category) : option regex :=
  option_map snd (find (fun nr => category_eqb (fst nr) k) token_specs).

(** The word lists of the table, and the shape of an identifier. *)
Definition access_words : list string := ["private"; "protected"; "public"].
Definition type_words : list string :=
  ["int"; "float"; "double"; "char"; "bool"; "string"; "long"; "short"; "void"].
Definition keyword_words : list string :=
  ["if"; "else"; "while"; "for"; "return"; "break"; "continue"; "switch";
   "case"; "default"; "sizeof"; "do"; "goto"; "enum"; "typedef"; "struct";
   "class"; "const"; "static"; "volatile"; "signed"; "unsigned"; "try";
   "catch"; "throw"; "new"; "delete"].

Definition is_alpha_ (c : ascii) : bool :=
  between 65 90 c || between 97 122 c || Ascii.eqb c "_".
Definition is_alnum_ (c : ascii) : bool := is_alpha_ c || is_digit c.

Definition ident_shape (w : string) : bool :=
  match w with
  | EmptyString => false
  | String c w' => is_alpha_ c && all_chars is_alnum_ w'
  end.

Definition digits (d : string) : bool :=
  match d with
  | EmptyString => false
  | String _ _ => all_chars is_digit d
  end.

Definition mem_string (w : string) (ws : list string) : bool :=
  existsb (String.eqb w) ws.

(** The category of a word of identifier shape. *)
Definition word_category (w : string) : category :=
  if mem_string w access_words then Access_Specifier
  else if mem_string w type_words then Data_Type
  else if mem_string w keyword_words then Keyword
  else Identifier.

(** An error record made from an Unknown_Token match of [ms]. *)
Definition error_of_match (ms : list Match) (e : error) : Prop :=
  exists m, In m ms /\ lastgroup m = Unknown_Token /\ snd e = group m
            /\ snd (fst e) = "Unknown Token" /\ (1 <= fst (fst e))%Z.

(** The characters of the one-character rules. *)
Definition punctuation : string := "{}[]();,:=+-*/%<>!&|^~".

(** The three rules made of a word list between word boundaries. *)
Definition word_rule_b (k : category) : bool :=
  match k with
  | Access_Specifier | Data_Type | Keyword => true
  | _ => false
  end.

(** The categories whose name contains "Operator". *)
Definition operator_kinds : list category :=
  [Assignment_Operator; Increment_Decrement_Operator; Arithmetic_Operator;
   Relational_Operator; Logical_Operator; Bitwise_Operator].

(** Counter by counter sum of two statistics. *)
Definition stats_add (a b : stats) : stats :=
  {| n_Keyword := n_Keyword a + n_Keyword b;
     n_Identifier := n_Identifier a + n_Identifier b;
     n_Constant := n_Constant a + n_Constant b;
     n_Operator := n_Operator a + n_Operator b |}.

(** A row with its two sides exchanged. *)
Definition swap_row (r : diff_row) : diff_row :=
  {| row_line := row_line r;
     code1_token := code2_token r;
     code2_token := code1_token r |}.

(** The rows of tokens present on the second side only, from index [n]. *)
Fixpoint appended_rows (n : nat) (C : list token) : list diff_row :=
  match C with
  | [] => []
  | t :: C' =>
      {| row_line := Z.of_nat n + 1;
         code1_token := EmptyString;
         code2_token := category_name (tok_kind t) ++ ": " ++ tok_value t |}
        :: appended_rows (S n) C'
  end.

(** Comment tokens and the node the builder makes of one. *)
Definition is_comment (t : token) : bool :=
  category_eqb (tok_kind t) Line_Comment || category_eqb (tok_kind t) Block_Comment.
Definition comment_leaf (t : token) : Node :=
  leaf ("Comment: " ++ strip (tok_value t)).

(** A token that neither opens a declaration, if, return or End shape nor
    is an assignment operator (which would make the identifier before it
    open an assignment). *)
Definition inert (t : token) : bool :=
  negb (opens_unguarded_shape t)
  && negb (category_eqb (tok_kind t) Assignment_Operator)
  && negb (category_eqb (tok_kind t) Keyword && String.eqb (tok_value t) "End").

(** Number of newline characters of a text. *)
Fixpoint count_newlines (s : string) : nat :=
  match s with
  | EmptyString => 0
  | String c s' => (if Ascii.eqb c newline then 1 else 0) + count_newlines s'
  end.

Definition is_newline_match (m : Match) : bool := category_eqb (lastgroup m) Newline.

(** The pattern of the Identifier rule. *)
Definition identifier_rule : regex :=
  Cat WordB
    (Cat (Set_ false [("A"%char, "Z"%char); ("a"%char, "z"%char);
                      ("_"%char, "_"%char)])
      (Cat (Star (Set_ false [("A"%char, "Z"%char); ("a"%char, "z"%char);
                              ("_"%char, "_"%char); ("0"%char, "9"%char)]))
           WordB)).

(** A round's outcome seen from [n] tokens earlier. *)
Definition shift_cursor (n : nat) (r : result (nat * list Node))
  : result (nat * list Node) :=
  match r with
  | Ok (i, p) => Ok (n + i, p)
  | IndexError => IndexError
  end.

(** The outcome of the builder with the nodes [ns] put first under the
    root. *)
Definition prepend (ns : list Node) (o : option (result Node))
  : option (result Node) :=
  match o with
  | Some (Ok (mkNode name cs)) => Some (Ok (mkNode name (ns ++ cs)))
  | other => other
  end.

(** The leaf an expression token leaves in an assignment, if any. *)
Definition expr_node (t : token) : list Node :=
  if category_eqb (tok_kind t) Identifier then [leaf ("ID: " ++ tok_value t)]
  else if category_eqb (tok_kind t) Arithmetic_Operator
       then [leaf ("Arithmetic_Operator: " ++ tok_value t)]
  else if category_eqb (tok_kind t) Integer_Constant
       then [leaf ("Integer_Constant: " ++ tok_value t)]
  else if category_eqb (tok_kind t) Float_Constant
       then [leaf ("Float_Constant: " ++ tok_value t)]
  else [].

Definition not_delimiter (t : token) : bool :=
  negb (category_eqb (tok_kind t) Delimiter).

(** The node of the assignment of the expression tokens [body] to [x]. *)
Definition assignment_node (x : string) (body : list token) : Node :=
  mkNode "Assignment"
    [leaf ("ID: " ++ x); mkNode "Expression" (flat_map expr_node body)].

(** The three shapes of the main loop that index the token list without a
    bound check: a declaration, an if statement, a return statement. *)
Definition opens_declaration (t : token) : bool :=
  category_eqb (tok_kind t) Data_Type
  && (String.eqb (tok_value t) "int" || String.eqb (tok_value t) "float").
Definition opens_if (t : token) : bool :=
  category_eqb (tok_kind t) Keyword && String.eqb (tok_value t) "if".
Definition opens_return (t : token) : bool :=
  category_eqb (tok_kind t) Keyword && String.eqb (tok_value t) "return".

(** For an if statement at [i]: where the search for the opening
    parenthesis stops, and where the search for the opening brace, started
    four tokens later, stops (either may be the end of the stream). *)
Definition if_paren (tokens : list token) (i : nat) : nat :=
  skip_to "(" (skipn (i + 1) tokens) (i + 1).
Definition if_brace (tokens : list token) (i : nat) : nat :=
  skip_to "{" (skipn (if_paren tokens i + 4) tokens) (if_paren tokens i + 4).

(** The largest index the round at cursor [i] reads without a bound check
    ([i] itself for a round with no such read).  A declaration reads the
    name at [i + 1] and, when the token at [i + 2] is an assignment
    operator, the constant at [i + 3]; an if reads the three tokens after
    the parenthesis and those at offsets 1, 3, 4 and 5 from the brace; a
    return reads the token at [i + 1]. *)
Definition last_read (tokens : list token) (i : nat) : nat :=
  match nth_error tokens i with
  | None => i
  | Some t =>
      if opens_declaration t then
        if kind_at tokens (i + 2) Assignment_Operator then i + 3 else i + 1
      else if opens_if t then if_brace tokens i + 5
      else if opens_return t then i + 1
      else i
  end.

(** The cursor after the round at [i], when the round does not raise. *)
Definition next_cursor (tokens : list token) (i : nat) : nat :=
  match nth_error tokens i with
  | None => i + 1
  | Some t =>
      if opens_declaration t then
        if kind_at tokens (i + 2) Assignment_Operator then i + 4 else i + 2
      else if opens_if t then if_brace tokens i + 6
      else if opens_return t then i + 2
      else if category_eqb (tok_kind t) Identifier
              && kind_at tokens (i + 1) Assignment_Operator
           then fst (expr_loop (skipn (i + 2) tokens) (i + 2) []) + 1
      else i + 1
  end.

(** Every round the loop reaches from cursor [i] keeps its reads inside
    the stream.  Each round moves the cursor forward, so a fuel of the
    stream's length is never used up. *)
Fixpoint reads_in_bounds_from (fuel : nat) (tokens : list token) (i : nat) : bool :=
  if Nat.leb (List.length tokens) i then true
  else
    match fuel with
    | 0 => true
    | S fuel' =>
        Nat.ltb (last_read tokens i) (List.length tokens)
        && reads_in_bounds_from fuel' tokens (next_cursor tokens i)
    end.

Definition reads_in_bounds (tokens : list token) : bool :=
  reads_in_bounds_from (List.length tokens) tokens 0.

End Props.

Import Chars Re Lexer Stats Tree Compare Props.

(* ------------------------------------------------------------------ *)
(** ** The embedding at work *)

Section Runs.
Local Open Scope Z_scope.

Example run_keyword_vs_identifier :
  lex_code "int" = ([(1, Data_Type, "int")], []) /\
  lex_code "integer" = ([(1, Identifier, "integer")], []).
Proof. split; vm_compute; reflexivity. Qed.

Example run_line_tracking :
  lex_code (String "a" (String newline (String "b" (String newline "c"))))
  = ([(1, Identifier, "a"); (2, Identifier, "b"); (3, Identifier, "c")], []).
Proof. vm_compute. reflexivity. Qed.

Example run_unknown_character :
  lex_code "@" = ([], [(1, "Unknown Token", "@")]).
Proof. vm_compute. reflexivity. Qed.

Example run_digits_then_letters :
  lex_code "12ab"
  = ([], [(1, "Unknown Token", "1"); (1, "Unknown Token", "2");
          (1, "Unknown Token", "a"); (1, "Unknown Token", "b")]).
Proof. vm_compute. reflexivity. Qed.

Example run_block_comment_lines :
  lex_code (String "/" (String "*" (String newline "*/ x")))
  = ([(1, Block_Comment, String "/" (String "*" (String newline "*/")));
      (1, Identifier, "x")], []).
Proof. vm_compute. reflexivity. Qed.

Example run_declaration :
  generate_parse_tree (fst (lex_code "int x = 5 ;"))
  = Some (Ok (mkNode "Program"
                [mkNode "Declaration(int)"
                   [mkNode "ID: x" []; mkNode "Integer_Constant: 5" []]])).
Proof. vm_compute. reflexivity. Qed.

Example run_stats :
  get_token_stats [(1, Keyword, "if"); (1, Identifier, "a"); (1, Identifier, "b");
                   (1, Integer_Constant, "1")]
  = {| n_Keyword := 1; n_Identifier := 2; n_Constant := 1; n_Operator := 0 |}.
Proof. vm_compute. reflexivity. Qed.

End Runs.

(* ------------------------------------------------------------------ *)
(** ** Categories *)

Lemma category_eqb_eq (a b : category) : category_eqb a b = true <-> a = b.
Proof.
  split.
  - destruct a, b; intros H; try reflexivity; discriminate H.
  - intros ->. apply String.eqb_refl.
Qed.

Lemma category_eqb_refl (a : category) : category_eqb a a = true.
Proof. apply String.eqb_refl. Qed.

Lemma category_name_nonempty (k : category) :
  String.eqb (category_name k) EmptyString = false.
Proof. destruct k; reflexivity. Qed.

(* ------------------------------------------------------------------ *)
(** ** Token statistics *)

Section StatsFacts.
Local Open Scope Z_scope.

Lemma stats_step_bumps (st : stats) (t : token) :
  bumps_at_most_one st (stats_step st t).
Proof.
  unfold bumps_at_most_one, stats_step.
  destruct (String.eqb _ "Keyword"); [auto|].
  destruct (String.eqb _ "Identifier"); [auto|].
  destruct (contains "Constant" _); [auto|].
  destruct (contains "Operator" _); [auto 6|].
  now left.
Qed.

Lemma bumps_total (st st' : stats) :
  bumps_at_most_one st st' -> total st <= total st' <= total st + 1.
Proof.
  unfold total. intros [H|[H|[H|[H|H]]]]; subst st'; cbn; lia.
Qed.

Lemma bumps_nonneg (st st' : stats) :
  bumps_at_most_one st st' ->
  n_Keyword st <= n_Keyword st' /\ n_Identifier st <= n_Identifier st' /\
  n_Constant st <= n_Constant st' /\ n_Operator st <= n_Operator st'.
Proof.
  intros [H|[H|[H|[H|H]]]]; subst st'; cbn; lia.
Qed.

Lemma fold_stats_bounds (tokens : list token) (st : stats) :
  let st' := fold_left stats_step tokens st in
  total st' <= total st + Z.of_nat (List.length tokens) /\
  n_Keyword st <= n_Keyword st' /\ n_Identifier st <= n_Identifier st' /\
  n_Constant st <= n_Constant st' /\ n_Operator st <= n_Operator st'.
Proof.
  revert st. induction tokens as [|t tokens IH]; intros st; cbn -[Z.of_nat].
  - lia.
  - specialize (IH (stats_step st t)). cbn zeta in IH.
    pose proof (bumps_total _ _ (stats_step_bumps st t)).
    pose proof (bumps_nonneg _ _ (stats_step_bumps st t)).
    rewrite Nat2Z.inj_succ. lia.
Qed.

Lemma stats_step_constant (st : stats) (t : token) :
  n_Constant (stats_step st t) =
  n_Constant st + (if kind_in constant_kinds t then 1 else 0).
Proof.
  destruct t as [[l k] v]. unfold stats_step, kind_in. cbn [tok_kind fst snd].
  destruct k; cbn; lia.
Qed.

Lemma fold_stats_constant (tokens : list token) (st : stats) :
  n_Constant (fold_left stats_step tokens st) =
  n_Constant st + count_kinds constant_kinds tokens.
Proof.
  unfold count_kinds.
  revert st. induction tokens as [|t tokens IH]; intros st; cbn -[Z.of_nat kind_in].
  - cbn. lia.
  - rewrite IH, stats_step_constant.
    destruct (kind_in constant_kinds t); cbn -[Z.of_nat kind_in]; lia.
Qed.

(** C9: every token moves at most one of the four counters, and moves it
    up by one; hence the four counts add up to at most the number of
    tokens, every count is non-negative, and the empty stream gives all
    zeros. *)
Theorem stats_counters_exclusive :
  (forall st t, bumps_at_most_one st (stats_step st t)) /\
  (forall tokens,
      let st := get_token_stats tokens in
      total st <= Z.of_nat (List.length tokens) /\
      0 <= n_Keyword st /\ 0 <= n_Identifier st /\
      0 <= n_Constant st /\ 0 <= n_Operator st) /\
  get_token_stats [] =
    {| n_Keyword := 0; n_Identifier := 0; n_Constant := 0; n_Operator := 0 |}.
Proof.
  split; [exact stats_step_bumps|]. split; [|reflexivity].
  intros tokens. cbn zeta.
  pose proof (fold_stats_bounds tokens stats_init) as H. cbn zeta in H.
  unfold get_token_stats. cbn [total stats_init n_Keyword n_Identifier n_Constant n_Operator] in H.
  unfold total at 2 in H. cbn in H. lia.
Qed.

(** C5, as the code has it: the Constant counter is the number of tokens of
    category Integer_Constant, Float_Constant or Character_Constant (each
    name contains "Constant"); a String_Literal token moves no counter. *)
Theorem constant_counter_counts_three_kinds :
  (forall tokens,
      n_Constant (get_token_stats tokens) =
      count_kinds [Integer_Constant; Float_Constant; Character_Constant] tokens) /\
  (forall st line value, stats_step st (line, String_Literal, value) = st).
Proof.
  split.
  - intros tokens. unfold get_token_stats. rewrite fold_stats_constant. reflexivity.
  - reflexivity.
Qed.

(** C5 fails as stated: the character literal ['a'] is counted as a
    Constant, although no token is an integer or a float constant. *)
Lemma constant_counter_counts_char_literal :
  let tokens := fst (lex_code "'a'") in
  tokens = [(1, Character_Constant, "'a'")] /\
  n_Constant (get_token_stats tokens) = 1 /\
  count_kinds [Integer_Constant; Float_Constant] tokens = 0 /\
  n_Constant (get_token_stats tokens)
    <> count_kinds [Integer_Constant; Float_Constant] tokens.
Proof. vm_compute. repeat split; discriminate. Qed.

End StatsFacts.

(* ------------------------------------------------------------------ *)
(** ** Compare page *)

Section CompareFacts.

Lemma token_eqb_eq (a b : token) : token_eqb a b = true <-> a = b.
Proof.
  destruct a as [[la ka] va], b as [[lb kb] vb].
  unfold token_eqb, tok_line, tok_kind, tok_value. cbn [fst snd].
  rewrite !andb_true_iff, Z.eqb_eq, category_eqb_eq, String.eqb_eq.
  split.
  - intros [[-> ->] ->]. reflexivity.
  - intros H. inversion H. auto.
Qed.

Lemma df_equals_eq (A B : list token) : df_equals A B = true <-> A = B.
Proof.
  revert B. induction A as [|a A IH]; intros [|b B]; cbn; try easy.
  rewrite andb_true_iff, token_eqb_eq, IH. split.
  - intros [-> ->]. reflexivity.
  - intros H. inversion H. auto.
Qed.

Lemma slot_neqb_spec (a b : option token) : slot_neqb a b = true <-> a <> b.
Proof.
  destruct a as [x|], b as [y|]; cbn; try easy.
  rewrite negb_true_iff. split.
  - intros H E. inversion E; subst. 
    assert (token_eqb y y = true) by now apply token_eqb_eq. congruence.
  - intros H. destruct (token_eqb x y) eqn:E; [|reflexivity].
    apply token_eqb_eq in E. subst. now contradiction H.
Qed.

Lemma label_slot (tokens : list token) (i : nat) :
  label (slot tokens i) = spec_label tokens i.
Proof.
  unfold label, slot, spec_label. destruct (nth_error tokens i) as [t|]; [|reflexivity].
  now rewrite category_name_nonempty.
Qed.

Lemma fold_diff_step (A B : list token) (idx : list nat) (acc : list diff_row) :
  fold_left (diff_step A B) idx acc =
  acc ++ map (spec_row A B) (filter (fun i => slot_neqb (slot A i) (slot B i)) idx).
Proof.
  revert acc. induction idx as [|i idx IH]; intros acc; cbn [fold_left filter].
  - cbn. now rewrite app_nil_r.
  - rewrite IH. unfold diff_step.
    destruct (slot_neqb (slot A i) (slot B i)); [|reflexivity].
    rewrite !label_slot, <- app_assoc. reflexivity.
Qed.

Lemma diff_rows_filter (A B : list token) :
  diff_rows A B =
  map (spec_row A B)
      (filter (fun i => slot_neqb (slot A i) (slot B i))
              (seq 0 (Nat.max (List.length A) (List.length B)))).
Proof. unfold diff_rows. now rewrite fold_diff_step. Qed.

Lemma seq_strongly_sorted (a n : nat) : StronglySorted lt (seq a n).
Proof.
  revert a. induction n as [|n IH]; intros a; cbn; constructor.
  - apply IH.
  - apply Forall_forall. intros x Hx. apply in_seq in Hx. lia.
Qed.

Lemma rows_sorted (f : nat -> diff_row) (p : nat -> bool) (idx : list nat) :
  (forall i, row_line (f i) = (Z.of_nat i + 1)%Z) ->
  StronglySorted lt idx ->
  StronglySorted Z.lt (map row_line (map f (filter p idx))).
Proof.
  intros Hf Hs. induction Hs as [|i idx Hs IH Hall]; cbn; [constructor|].
  destruct (p i); [|exact IH]. cbn. constructor; [exact IH|].
  rewrite Forall_forall in *. intros z Hz.
  apply in_map_iff in Hz as [r [<- Hr]]. apply in_map_iff in Hr as [j [<- Hj]].
  apply filter_In in Hj as [Hj _]. apply Hall in Hj. rewrite !Hf. lia.
Qed.

(** C6: for unequal streams the table has, in index order and without
    repetition, exactly the rows of the indices below the longer length at
    which the two sides differ; the row of index [i] has position [i+1]
    and, on each side, "category: lexeme" or the empty string when that
    side is out of range. *)
Theorem diff_rows_exact (A B : list token) (Hne : A <> B) :
  fst (compare_tokens A B) = false /\
  StronglySorted Z.lt (map row_line (snd (compare_tokens A B))) /\
  (forall row,
      In row (snd (compare_tokens A B)) <->
      exists i, i < Nat.max (List.length A) (List.length B) /\
                nth_error A i <> nth_error B i /\
                row = {| row_line := Z.of_nat i + 1;
                         code1_token := spec_label A i;
                         code2_token := spec_label B i |}).
Proof.
  unfold compare_tokens.
  destruct (df_equals A B) eqn:E.
  { apply df_equals_eq in E. contradiction. }
  cbn [fst snd]. rewrite diff_rows_filter. split; [reflexivity|]. split.
  - apply rows_sorted; [reflexivity | apply seq_strongly_sorted].
  - intros row. rewrite in_map_iff. split.
    + intros [i [<- Hi]]. apply filter_In in Hi as [Hi Hd].
      apply in_seq in Hi. apply slot_neqb_spec in Hd.
      exists i. repeat split; [lia | exact Hd].
    + intros [i [Hi [Hd ->]]]. exists i. split; [reflexivity|].
      apply filter_In. split; [apply in_seq; lia | now apply slot_neqb_spec].
Qed.

Lemma diff_rows_exact_witness :
  [(1%Z, Data_Type, "int"); (1%Z, Identifier, "x")] <> [(1%Z, Data_Type, "int")] /\
  fst (compare_tokens [(1%Z, Data_Type, "int"); (1%Z, Identifier, "x")]
                      [(1%Z, Data_Type, "int")]) = false /\
  In {| row_line := 2; code1_token := "Identifier: x"; code2_token := EmptyString |}
     (snd (compare_tokens [(1%Z, Data_Type, "int"); (1%Z, Identifier, "x")]
                          [(1%Z, Data_Type, "int")])).
Proof.
  assert (Hne : [(1%Z, Data_Type, "int"); (1%Z, Identifier, "x")]
                <> [(1%Z, Data_Type, "int")]) by discriminate.
  split; [exact Hne|].
  destruct (diff_rows_exact _ _ Hne) as [H1 [_ H3]].
  split; [exact H1|].
  apply H3. exists 1. split; [cbn; lia|]. split; [discriminate | reflexivity].
Defined.

(** C7: comparing a stream with itself gives "equal" and no rows (the
    difference loop itself finds none); "equal" holds exactly when the
    streams have the same length and agree at every index on line,
    category and lexeme; the tokens of [int x;] and [int y;] differ in one
    row, at the identifier's position. *)
Theorem compare_reflexive_structural :
  (forall A, compare_tokens A A = (true, []) /\ diff_rows A A = []) /\
  (forall A B,
      fst (compare_tokens A B) = true <->
      List.length A = List.length B /\
      forall i a b, nth_error A i = Some a -> nth_error B i = Some b ->
                    tok_line a = tok_line b /\ tok_kind a = tok_kind b
                    /\ tok_value a = tok_value b) /\
  (let A := fst (lex_code "int x;") in
   let B := fst (lex_code "int y;") in
   nth_error A 1 = Some (1%Z, Identifier, "x") /\
   nth_error B 1 = Some (1%Z, Identifier, "y") /\
   compare_tokens A B =
     (false, [ {| row_line := 2; code1_token := "Identifier: x";
                  code2_token := "Identifier: y" |} ])).
Proof.
  split; [|split].
  - intros A. unfold compare_tokens.
    assert (E : df_equals A A = true) by now apply df_equals_eq.
    rewrite E. split; [reflexivity|].
    rewrite diff_rows_filter.
    replace (filter _ _) with (@nil nat); [reflexivity|].
    symmetry. induction (seq 0 _) as [|i l IH]; [reflexivity|]. cbn.
    destruct (slot_neqb (slot A i) (slot A i)) eqn:N; [|exact IH].
    apply slot_neqb_spec in N. now contradiction N.
  - intros A B. unfold compare_tokens.
    destruct (df_equals A B) eqn:E; cbn [fst].
    + apply df_equals_eq in E. subst B. split; [intros _|reflexivity].
      split; [reflexivity|]. intros i a b Ha Hb. rewrite Ha in Hb.
      inversion Hb. auto.
    + split; [discriminate|]. intros [Hlen Hall]. exfalso.
      assert (A = B); [|subst; assert (df_equals B B = true) by (now apply df_equals_eq); congruence].
      clear E. revert B Hlen Hall.
      induction A as [|a A IH]; intros [|b B] Hlen Hall; try discriminate Hlen; [reflexivity|].
      destruct (Hall 0 a b eq_refl eq_refl) as [H1 [H2 H3]].
      destruct a as [[la ka] va], b as [[lb kb] vb]. cbn in H1, H2, H3. subst.
      f_equal. apply IH; [now inversion Hlen|].
      intros i a b Ha Hb. exact (Hall (S i) a b Ha Hb).
  - vm_compute. repeat split.
Qed.

End CompareFacts.

(* ------------------------------------------------------------------ *)
(** ** Parse tree generator *)

Section TreeFacts.

Lemma skip_to_ge (b : string) (rest : list token) (i : nat) : i <= skip_to b rest i.
Proof.
  revert i. induction rest as [|t rest IH]; intros i; cbn; [lia|].
  destruct (_ && _); [lia|]. specialize (IH (S i)). lia.
Qed.

Lemma expr_loop_ge (rest : list token) (i : nat) (expr : list Node) :
  i <= fst (expr_loop rest i expr).
Proof.
  revert i expr. induction rest as [|t rest IH]; intros i expr; cbn; [lia|].
  destruct (category_eqb (tok_kind t) Delimiter); cbn; [lia|].
  match goal with |- _ <= fst (expr_loop _ _ ?e) => specialize (IH (S i) e) end.
  lia.
Qed.

Ltac note_skips :=
  repeat match goal with
         | |- context [skip_to ?b ?r ?j] =>
             lazymatch goal with
             | _ : j <= skip_to b r j |- _ => fail
             | _ => pose proof (skip_to_ge b r j)
             end
         end.

Ltac split_step :=
  repeat match goal with
         | |- context [getitem ?t ?i] => destruct (getitem t i); cbn [bind]
         | |- context [if ?c then _ else _] => destruct c
         | |- context [expr_loop ?r ?j ?e] =>
             let H := fresh "Hexpr" in
             pose proof (expr_loop_ge r j e) as H;
             destruct (expr_loop r j e); cbn [fst] in H
         end.

(** Every round of the main loop moves the cursor forward. *)
Lemma parse_step_progress (tokens : list token) (i : nat) (program : list Node)
      (i' : nat) (program' : list Node) :
  parse_step tokens i program = Ok (i', program') -> i < i'.
Proof.
  unfold parse_step. note_skips. unfold bind.
  split_step; intros E; inversion E; subst; lia.
Qed.

Lemma parse_loop_terminates (fuel : nat) (tokens : list token) (i : nat)
      (program : list Node) :
  List.length tokens - i <= fuel ->
  exists r, parse_loop fuel tokens i program = Some r.
Proof.
  revert i program. induction fuel as [|fuel IH]; intros i program Hf; cbn.
  - destruct (Nat.leb (List.length tokens) i) eqn:E; [eauto|].
    apply Nat.leb_gt in E. lia.
  - destruct (Nat.leb (List.length tokens) i) eqn:E; [eauto|].
    apply Nat.leb_gt in E.
    destruct (parse_step tokens i program) as [[i' program']|] eqn:S; [|eauto].
    apply parse_step_progress in S. apply IH. lia.
Qed.

(** On a token that opens no unguarded shape the round cannot raise. *)
Lemma parse_step_safe (tokens : list token) (i : nat) (program : list Node) (t : token) :
  nth_error tokens i = Some t ->
  opens_unguarded_shape t = false ->
  exists i' program', parse_step tokens i program = Ok (i', program').
Proof.
  intros Hn Hs. unfold parse_step, getitem. rewrite Hn. cbn [bind].
  unfold opens_unguarded_shape in Hs.
  destruct (category_eqb (tok_kind t) Data_Type);
    destruct (String.eqb (tok_value t) "int");
    destruct (String.eqb (tok_value t) "float");
    destruct (category_eqb (tok_kind t) Keyword);
    destruct (String.eqb (tok_value t) "if");
    destruct (String.eqb (tok_value t) "return");
    cbn in Hs; try discriminate Hs; cbn [andb orb];
    split_step; eauto.
Qed.

Lemma parse_loop_safe (fuel : nat) (tokens : list token) (i : nat) (program : list Node) :
  forallb (fun t => negb (opens_unguarded_shape t)) tokens = true ->
  List.length tokens - i <= fuel ->
  exists children,
    parse_loop fuel tokens i program = Some (Ok (mkNode "Program" children)).
Proof.
  intros Hall. revert i program.
  induction fuel as [|fuel IH]; intros i program Hf; cbn.
  - destruct (Nat.leb (List.length tokens) i) eqn:E; [eauto|].
    apply Nat.leb_gt in E. lia.
  - destruct (Nat.leb (List.length tokens) i) eqn:E; [eauto|].
    apply Nat.leb_gt in E.
    destruct (nth_error tokens i) as [t|] eqn:Hn;
      [|apply nth_error_None in Hn; lia].
    assert (Hs : opens_unguarded_shape t = false).
    { rewrite forallb_forall in Hall. apply nth_error_In in Hn.
      apply Hall in Hn. now apply negb_true_iff in Hn. }
    destruct (parse_step_safe tokens i program t Hn Hs) as [i' [program' S]].
    rewrite S. apply parse_step_progress in S. apply IH. lia.
Qed.

Lemma kind_at_lt (tokens : list token) (m : nat) (k : category) :
  kind_at tokens m k = true -> m < List.length tokens.
Proof.
  unfold kind_at. destruct (nth_error tokens m) eqn:E; [|discriminate].
  intros _. apply nth_error_Some. rewrite E. discriminate.
Qed.

Ltac decide_categories :=
  repeat match goal with
         | |- context [category_eqb ?a ?b] =>
             let r := eval vm_compute in (category_eqb a b) in
             change (category_eqb a b) with r
         end;
  cbn [andb orb].

Ltac split_reads tokens :=
  repeat match goal with
         | |- context [String.eqb ?a ?b] =>
             destruct (String.eqb a b); cbn [andb orb]
         | |- context [kind_at tokens ?m ?k] =>
             let E := fresh "K" in
             destruct (kind_at tokens m k) eqn:E;
             [apply kind_at_lt in E|]; cbn [andb orb]
         | |- context [nth_error tokens ?m] =>
             let E := fresh "E" in
             destruct (nth_error tokens m) eqn:E;
             [ assert (m < List.length tokens)
                 by (apply nth_error_Some; rewrite E; discriminate)
             | apply nth_error_None in E ];
             cbn [bind]
         | |- context [expr_loop ?r ?j ?e] => destruct (expr_loop r j e); cbn [fst]
         end;
  match goal with
  | |- context [Nat.ltb ?a ?b] =>
      let L := fresh "L" in
      destruct (Nat.ltb a b) eqn:L;
      [apply Nat.ltb_lt in L | apply Nat.ltb_ge in L]
  end.

(** A round raises exactly when its furthest unguarded read is past the
    end; otherwise it leaves the cursor at [next_cursor]. *)
Lemma parse_step_reads (tokens : list token) (i : nat) (program : list Node) :
  i < List.length tokens ->
  if Nat.ltb (last_read tokens i) (List.length tokens)
  then exists program',
         parse_step tokens i program = Ok (next_cursor tokens i, program')
  else parse_step tokens i program = IndexError.
Proof.
  intros Hi.
  unfold parse_step, last_read, next_cursor, if_brace, if_paren, getitem.
  destruct (nth_error tokens i) as [t|] eqn:Hn;
    [|apply nth_error_None in Hn; lia].
  cbn [bind]. destruct t as [[l k] v].
  unfold opens_declaration, opens_if, opens_return.
  cbn [tok_kind tok_value fst snd].
  set (J := skip_to "(" (skipn (i + 1) tokens) (i + 1)).
  replace (J + 1 + 1 + 1 + 1) with (J + 4) by lia.
  set (B := skip_to "{" (skipn (J + 4) tokens) (J + 4)).
  assert (HB : J + 4 <= B) by apply skip_to_ge.
  replace (i + 1 + 1) with (i + 2) by lia.
  destruct k; decide_categories; split_reads tokens;
    first [ reflexivity
          | eexists; apply f_equal, f_equal2; [lia | reflexivity]
          | exfalso; lia ].
Qed.

(** The whole loop, from any cursor: a root when every round it reaches
    keeps its reads inside the stream, an IndexError otherwise. *)
Lemma parse_loop_reads (fuel : nat) (tokens : list token) (i : nat)
      (program : list Node) :
  List.length tokens - i <= fuel ->
  if reads_in_bounds_from fuel tokens i
  then exists children,
         parse_loop fuel tokens i program = Some (Ok (mkNode "Program" children))
  else parse_loop fuel tokens i program = Some IndexError.
Proof.
  revert i program. induction fuel as [|fuel IH]; intros i program Hf;
    cbn [parse_loop reads_in_bounds_from].
  - destruct (Nat.leb (List.length tokens) i) eqn:E; [eauto|].
    apply Nat.leb_gt in E. lia.
  - destruct (Nat.leb (List.length tokens) i) eqn:E; [eauto|].
    apply Nat.leb_gt in E.
    pose proof (parse_step_reads tokens i program E) as R.
    destruct (Nat.ltb (last_read tokens i) (List.length tokens)); cbn [andb].
    + destruct R as [program' R]. rewrite R.
      apply parse_step_progress in R. apply IH. lia.
    + rewrite R. reflexivity.
Qed.

Lemma reads_in_bounds_static (fuel : nat) (tokens : list token) (i : nat) :
  (forall j, j < List.length tokens -> last_read tokens j < List.length tokens) ->
  reads_in_bounds_from fuel tokens i = true.
Proof.
  intros Hall. revert i. induction fuel as [|fuel IH]; intros i;
    cbn [reads_in_bounds_from].
  - destruct (Nat.leb (List.length tokens) i); reflexivity.
  - destruct (Nat.leb (List.length tokens) i) eqn:E; [reflexivity|].
    apply Nat.leb_gt in E. apply Hall in E. apply Nat.ltb_lt in E.
    rewrite E, IH. reflexivity.
Qed.

(** C3, as the code has it: the builder terminates on every token stream.
    It returns the root [Program] exactly when every round the loop reaches
    finds inside the stream the tokens it reads without a bound check (the
    name of a declaration and the constant after its assignment operator,
    the three condition tokens and the four body tokens of an if, the token
    after return); otherwise the IndexError of that read is not caught and
    is the outcome of the call.  In particular a root is returned when at
    every index the furthest such read stays inside the stream, and when
    no token opens a declaration, an if or a return. *)
Theorem parse_tree_root_iff_reads_in_bounds (tokens : list token) :
  (exists r, generate_parse_tree tokens = Some r) /\
  (reads_in_bounds tokens = true <->
   exists children,
     generate_parse_tree tokens = Some (Ok (mkNode "Program" children))) /\
  (reads_in_bounds tokens = false <->
   generate_parse_tree tokens = Some IndexError) /\
  ((forall i, i < List.length tokens -> last_read tokens i < List.length tokens) ->
   reads_in_bounds tokens = true) /\
  (forallb (fun t => negb (opens_unguarded_shape t)) tokens = true ->
   reads_in_bounds tokens = true).
Proof.
  assert (R : if reads_in_bounds tokens
              then exists children,
                     generate_parse_tree tokens
                     = Some (Ok (mkNode "Program" children))
              else generate_parse_tree tokens = Some IndexError).
  { apply parse_loop_reads. lia. }
  split; [apply parse_loop_terminates; lia|].
  split; [|split; [|split]].
  - destruct (reads_in_bounds tokens).
    + split; [intros _; exact R | reflexivity].
    + split; [discriminate|]. intros [children H]. rewrite H in R. discriminate R.
  - destruct (reads_in_bounds tokens).
    + split; [discriminate|]. intros H. destruct R as [children R].
      rewrite R in H. discriminate H.
    + split; [intros _; exact R | reflexivity].
  - intros Hall. now apply reads_in_bounds_static.
  - intros Hall.
    destruct (parse_loop_safe (List.length tokens) tokens 0 [] Hall) as [children H];
      [lia|].
    fold (generate_parse_tree tokens) in H.
    destruct (reads_in_bounds tokens); [reflexivity|].
    rewrite H in R. discriminate R.
Qed.

Lemma parse_tree_root_iff_reads_in_bounds_witness :
  reads_in_bounds
    (fst (lex_code "int x = 5 ; if ( x < 3 ) { y = y + 1 ; } return 0 ;")) = true /\
  exists children,
    generate_parse_tree
      (fst (lex_code "int x = 5 ; if ( x < 3 ) { y = y + 1 ; } return 0 ;"))
    = Some (Ok (mkNode "Program" children)).
Proof.
  split; [vm_compute; reflexivity|].
  apply (proj1 (proj1 (proj2 (parse_tree_root_iff_reads_in_bounds
           (fst (lex_code "int x = 5 ; if ( x < 3 ) { y = y + 1 ; } return 0 ;")))))).
  vm_compute. reflexivity.
Defined.

(** C3 fails as stated: on the single token of the source [int] the
    declaration shape reads index 1 of a one-token stream, the IndexError
    is not caught and no root is returned. *)
Lemma parse_tree_raises_on_int :
  fst (lex_code "int") = [(1%Z, Data_Type, "int")] /\
  generate_parse_tree (fst (lex_code "int")) = Some IndexError /\
  ~ exists root, generate_parse_tree (fst (lex_code "int")) = Some (Ok root).
Proof.
  split; [reflexivity|]. split; [reflexivity|].
  intros [root H]. vm_compute in H. discriminate H.
Qed.

End TreeFacts.

(* ------------------------------------------------------------------ *)
(** ** Strings *)

Section StringFacts.
Local Open Scope string_scope.

Lemma sapp_nil_r (s : string) : s ++ EmptyString = s.
Proof. induction s as [|c s IH]; cbn; [reflexivity | now rewrite IH]. Qed.

Lemma sapp_assoc (a b c : string) : (a ++ b) ++ c = a ++ (b ++ c).
Proof. induction a as [|x a IH]; cbn; [reflexivity | now rewrite IH]. Qed.

Lemma slength_app (a b : string) :
  String.length (a ++ b) = String.length a + String.length b.
Proof. induction a as [|x a IH]; cbn; [reflexivity | now rewrite IH]. Qed.

Lemma substring_app_prefix (w rest : string) :
  substring 0 (String.length w) (w ++ rest) = w.
Proof.
  induction w as [|c w IH]; cbn.
  - destruct rest; reflexivity.
  - now rewrite IH.
Qed.

Lemma group_of_split (w rest : string) :
  substring 0 (String.length (w ++ rest) - String.length rest) (w ++ rest) = w.
Proof.
  rewrite slength_app.
  replace (String.length w + String.length rest - String.length rest)
    with (String.length w) by lia.
  apply substring_app_prefix.
Qed.

Lemma advance_app (p : option ascii) (a b : string) :
  advance p (a ++ b) = advance (advance p a) b.
Proof. revert p. induction a as [|c a IH]; intros p; cbn; [reflexivity | apply IH]. Qed.

End StringFacts.

(* ------------------------------------------------------------------ *)
(** ** The matcher only returns matches of the pattern *)

Section MatcherFacts.
Local Open Scope string_scope.

Lemma one_inv (p : ascii -> bool) (k : cont) (st : state) (res : state) :
  one p k st = Some res ->
  exists c s, st = (fst st, String c s) /\ p c = true /\ k (Some c, s) = Some res.
Proof.
  destruct st as [q [|c s]]; unfold one; cbn; [discriminate|].
  destruct (p c) eqn:E; [|discriminate]. intros H. exists c, s. auto.
Qed.

Lemma star_den (step : cont -> cont) (r : regex) :
  respects step r ->
  forall fuel, respects (fun k => star step fuel k) (Star r).
Proof.
  intros Hstep fuel. induction fuel as [|fuel IH]; intros k st res; cbn [star].
  - intros H. exists st. split; [constructor | exact H].
  - unfold orelse.
    destruct (step _ st) as [x|] eqn:E.
    + intros Hx. inversion Hx; subst x. clear Hx.
      apply Hstep in E as [st1 [D1 E1]].
      destruct (Nat.ltb _ _); [|discriminate].
      apply IH in E1 as [st2 [D2 E2]].
      exists st2. split; [|exact E2]. eapply den_star_more; eassumption.
    + intros H. exists st. split; [constructor | exact H].
Qed.

Lemma lazy_star_den (step : cont -> cont) (r : regex) :
  respects step r ->
  forall fuel, respects (fun k => lazy_star step fuel k) (LazyStar r).
Proof.
  intros Hstep fuel. induction fuel as [|fuel IH]; intros k st res; cbn [lazy_star].
  - intros H. exists st. split; [constructor | exact H].
  - unfold orelse.
    destruct (k st) as [x|] eqn:E.
    + intros Hx. inversion Hx; subst x. exists st. split; [constructor | exact E].
    + intros H.
      apply Hstep in H as [st1 [D1 E1]].
      destruct (Nat.ltb _ _); [|discriminate].
      apply IH in E1 as [st2 [D2 E2]].
      exists st2. split; [|exact E2]. eapply den_lazy_more; eassumption.
Qed.

Lemma bt_den (r : regex) : respects (bt r) r.
Proof.
  induction r as [ | c | | negated items | | | r1 IH1 r2 IH2 | r1 IH1 r2 IH2
                   | r IH | r IH ]; intros k st res; cbn [bt].
  - intros H. exists st. split; [constructor | exact H].
  - intros H. apply one_inv in H as [c' [s [-> [E H]]]].
    apply Ascii.eqb_eq in E. subst c'. eexists. split; [constructor | exact H].
  - intros H. apply one_inv in H as [c' [s [-> [E H]]]].
    eexists. split; [constructor | exact H].
  - intros H. apply one_inv in H as [c' [s [-> [E H]]]].
    eexists. split; [constructor; exact E | exact H].
  - intros H. apply one_inv in H as [c' [s [-> [E H]]]].
    eexists. split; [constructor; exact E | exact H].
  - destruct (at_boundary st) eqn:E; [|discriminate].
    intros H. exists st. split; [constructor; exact E | exact H].
  - intros H. apply IH1 in H as [st1 [D1 H]]. apply IH2 in H as [st2 [D2 H]].
    exists st2. split; [econstructor; eassumption | exact H].
  - unfold orelse. destruct (bt r1 k st) as [x|] eqn:E.
    + intros Hx. inversion Hx; subst x. apply IH1 in E as [st1 [D1 H]].
      exists st1. split; [now apply den_alt_l | exact H].
    + intros H. apply IH2 in H as [st1 [D1 H]].
      exists st1. split; [now apply den_alt_r | exact H].
  - apply (star_den (bt r) r IH).
  - apply (lazy_star_den (bt r) r IH).
Qed.

Lemma star_local (step : cont -> cont) :
  local step -> forall fuel, local (star step fuel).
Proof.
  intros Hstep fuel. induction fuel as [|fuel IH]; intros k1 k2 st H; cbn [star].
  - apply H. lia.
  - rewrite (H st) by lia. f_equal. apply Hstep. intros st' Hle.
    destruct (Nat.ltb _ _); [|reflexivity].
    apply IH. intros st'' Hle'. apply H. lia.
Qed.

Lemma lazy_star_local (step : cont -> cont) :
  local step -> forall fuel, local (lazy_star step fuel).
Proof.
  intros Hstep fuel. induction fuel as [|fuel IH]; intros k1 k2 st H; cbn [lazy_star].
  - apply H. lia.
  - rewrite (H st) by lia. f_equal. apply Hstep. intros st' Hle.
    destruct (Nat.ltb _ _); [|reflexivity].
    apply IH. intros st'' Hle'. apply H. lia.
Qed.

Lemma one_local (p : ascii -> bool) : local (one p).
Proof.
  intros k1 k2 [q [|c s]] H; unfold one; cbn [snd]; [reflexivity|].
  destruct (p c); [|reflexivity]. apply H. cbn. lia.
Qed.

Lemma bt_local (r : regex) : local (bt r).
Proof.
  induction r as [ | c | | negated items | | | r1 IH1 r2 IH2 | r1 IH1 r2 IH2
                   | r IH | r IH ]; intros k1 k2 st H; cbn [bt];
    try (now apply one_local).
  - apply H. lia.
  - destruct (at_boundary st); [apply H; lia | reflexivity].
  - apply IH1. intros st' Hle. apply IH2. intros st'' Hle'. apply H. lia.
  - rewrite (IH1 k1 k2 st H), (IH2 k1 k2 st H). reflexivity.
  - now apply star_local.
  - now apply lazy_star_local.
Qed.

(** The rounds given to a repetition do not show in its result. *)
Lemma star_fuel (step : cont -> cont) (k : cont) :
  local step ->
  forall f1 f2 st,
    String.length (snd st) < f1 -> String.length (snd st) < f2 ->
    star step f1 k st = star step f2 k st.
Proof.
  intros Hstep f1. induction f1 as [|f1 IH]; intros f2 st H1 H2; [lia|].
  destruct f2 as [|f2]; [lia|]. cbn [star]. f_equal.
  apply Hstep. intros st' Hle.
  destruct (Nat.ltb _ _) eqn:L; [|reflexivity].
  apply Nat.ltb_lt in L. apply IH; lia.
Qed.

Lemma lazy_star_fuel (step : cont -> cont) (k : cont) :
  local step ->
  forall f1 f2 st,
    String.length (snd st) < f1 -> String.length (snd st) < f2 ->
    lazy_star step f1 k st = lazy_star step f2 k st.
Proof.
  intros Hstep f1. induction f1 as [|f1 IH]; intros f2 st H1 H2; [lia|].
  destruct f2 as [|f2]; [lia|]. cbn [lazy_star]. f_equal.
  apply Hstep. intros st' Hle.
  destruct (Nat.ltb _ _) eqn:L; [|reflexivity].
  apply Nat.ltb_lt in L. apply IH; lia.
Qed.

(** The equations of the two repetitions, free of rounds: one more
    iteration that consumes input and then the repetition again, or the
    continuation, in the order of the quantifier. *)
Lemma bt_star_unfold (r : regex) (k : cont) (st : state) :
  bt (Star r) k st
  = orelse (bt r (fun st' =>
                    if Nat.ltb (String.length (snd st')) (String.length (snd st))
                    then bt (Star r) k st' else None) st)
           (k st).
Proof.
  change (bt (Star r) k st) with (star (bt r) (S (String.length (snd st))) k st).
  cbn [star]. f_equal. apply bt_local. intros st' Hle.
  destruct (Nat.ltb _ _) eqn:L; [|reflexivity].
  apply Nat.ltb_lt in L.
  change (bt (Star r) k st') with (star (bt r) (S (String.length (snd st'))) k st').
  apply star_fuel; [apply bt_local | lia | lia].
Qed.

Lemma bt_lazy_star_unfold (r : regex) (k : cont) (st : state) :
  bt (LazyStar r) k st
  = orelse (k st)
           (bt r (fun st' =>
                    if Nat.ltb (String.length (snd st')) (String.length (snd st))
                    then bt (LazyStar r) k st' else None) st).
Proof.
  change (bt (LazyStar r) k st)
    with (lazy_star (bt r) (S (String.length (snd st))) k st).
  cbn [lazy_star]. f_equal. apply bt_local. intros st' Hle.
  destruct (Nat.ltb _ _) eqn:L; [|reflexivity].
  apply Nat.ltb_lt in L.
  change (bt (LazyStar r) k st')
    with (lazy_star (bt r) (S (String.length (snd st'))) k st').
  apply lazy_star_fuel; [apply bt_local | lia | lia].
Qed.

(** A match reads a prefix [w] of the text, at least [min_len r] long. *)
Lemma den_split (r : regex) (st st' : state) :
  den r st st' ->
  exists w, snd st = w ++ snd st' /\ fst st' = advance (fst st) w
            /\ min_len r <= String.length w.
Proof.
  induction 1 as [ st | c p s | c p s | negated items c p s Hc | c p s Hc
                 | st Hb | r1 r2 st st1 st2 _ IH1 _ IH2
                 | r1 r2 st st' _ IH | r1 r2 st st' _ IH
                 | r st | r st st1 st2 _ IH1 _ IH2
                 | r st | r st st1 st2 _ IH1 _ IH2 ]; cbn [min_len fst snd];
    try (exists EmptyString; cbn; repeat split; lia);
    try (exists (String c EmptyString); cbn; repeat split; lia).
  - destruct IH1 as [w1 [E1 [A1 L1]]], IH2 as [w2 [E2 [A2 L2]]].
    exists (w1 ++ w2). rewrite E1, E2, A2, A1, sapp_assoc, advance_app, slength_app.
    repeat split. lia.
  - destruct IH as [w [E [A L]]]. exists w. repeat split; try assumption. lia.
  - destruct IH as [w [E [A L]]]. exists w. repeat split; try assumption. lia.
  - destruct IH1 as [w1 [E1 [A1 L1]]], IH2 as [w2 [E2 [A2 L2]]].
    exists (w1 ++ w2). rewrite E1, E2, A2, A1, sapp_assoc, advance_app.
    repeat split. lia.
  - destruct IH1 as [w1 [E1 [A1 L1]]], IH2 as [w2 [E2 [A2 L2]]].
    exists (w1 ++ w2). rewrite E1, E2, A2, A1, sapp_assoc, advance_app.
    repeat split. lia.
Qed.

Lemma match_at_split (r : regex) (prev : option ascii) (s : string) (st' : state) :
  match_at r (prev, s) = Some st' ->
  exists w, s = w ++ snd st' /\ fst st' = advance prev w
            /\ min_len r <= String.length w /\ den r (prev, s) st'.
Proof.
  unfold match_at. intros H. apply bt_den in H as [st1 [D E]].
  inversion E; subst st1. destruct (den_split _ _ _ D) as [w [E1 [A L]]].
  exists w. cbn in E1, A. auto.
Qed.

Lemma first_match_in (specs : list (category * regex)) (st : state)
      (name : category) (st' : state) :
  first_match specs st = Some (name, st') ->
  exists r, In (name, r) specs /\ match_at r st = Some st'.
Proof.
  induction specs as [|[n r] specs IH]; cbn [first_match]; [discriminate|].
  destruct (match_at r st) as [x|] eqn:E.
  - intros H. inversion H; subst. exists r. split; [now left | exact E].
  - intros H. apply IH in H as [r' [Hin Hm]]. exists r'. split; [now right | exact Hm].
Qed.

Lemma first_match_none (specs : list (category * regex)) (st : state) :
  first_match specs st = None ->
  forall name r, In (name, r) specs -> match_at r st = None.
Proof.
  induction specs as [|[n r] specs IH]; cbn [first_match]; [intros _ ? ? []|].
  destruct (match_at r st) as [x|] eqn:E; [discriminate|].
  intros H name r' [Hin|Hin]; [inversion Hin; subst; exact E | eapply IH; eassumption].
Qed.

Lemma token_specs_nonempty (name : category) (r : regex) :
  In (name, r) token_specs -> 1 <= min_len r.
Proof.
  assert (H : forallb (fun nr => Nat.leb 1 (min_len (snd nr))) token_specs = true)
    by (vm_compute; reflexivity).
  rewrite forallb_forall in H. intros Hin. apply H in Hin. now apply Nat.leb_le in Hin.
Qed.

(** A match of the rule table is a non-empty prefix of the text. *)
Lemma compiled_match_split (prev : option ascii) (s : string)
      (name : category) (prev' : option ascii) (rest : string) :
  compiled_regex_match (prev, s) = Some (name, (prev', rest)) ->
  exists w, s = w ++ rest /\ prev' = advance prev w /\ 1 <= String.length w.
Proof.
  intros H. apply first_match_in in H as [r [Hin Hm]].
  apply match_at_split in Hm as [w [E [A [L _]]]].
  apply token_specs_nonempty in Hin. exists w. cbn in E, A. repeat split; try assumption. lia.
Qed.

(** The catch-all rule makes the table match wherever a character is left. *)
Lemma compiled_match_total (prev : option ascii) (c : ascii) (s : string) :
  compiled_regex_match (prev, String c s) <> None.
Proof.
  intros H.
  assert (Hin : In (Unknown_Token, Dot) token_specs).
  { unfold token_specs. repeat (first [left; reflexivity | right]). }
  pose proof (first_match_none _ _ H _ _ Hin) as E. discriminate E.
Qed.

Lemma compiled_match_end (prev : option ascii) :
  compiled_regex_match (prev, EmptyString) = None.
Proof.
  destruct (compiled_regex_match (prev, EmptyString)) as [[name [prev' rest]]|] eqn:E;
    [|reflexivity].
  apply compiled_match_split in E as [w [E [_ L]]].
  destruct w; cbn in *; [lia | discriminate].
Qed.

End MatcherFacts.

(* ------------------------------------------------------------------ *)
(** ** The scanner *)

Section LexerFacts.
Local Open Scope string_scope.

(** With enough rounds, the matches of [finditer] are non-empty and tile
    the text. *)
Lemma finditer_from_tiles (fuel : nat) (prev : option ascii) (s : string) :
  String.length s < fuel ->
  joined (map group (finditer_from fuel prev s)) = s /\
  Forall (fun m => 1 <= String.length (group m)) (finditer_from fuel prev s).
Proof.
  revert prev s. induction fuel as [|fuel IH]; intros prev s Hf; [lia|].
  cbn [finditer_from].
  destruct s as [|c s].
  { rewrite compiled_match_end. cbn. auto. }
  destruct (compiled_regex_match (prev, String c s)) as [[name [prev' rest]]|] eqn:E;
    [|now apply compiled_match_total in E].
  apply compiled_match_split in E as [w [E [A L]]].
  rewrite E, group_of_split.
  assert (Hr : String.length rest < fuel).
  { rewrite E, slength_app in Hf. lia. }
  destruct (IH prev' rest Hr) as [J F].
  cbn [map joined group]. rewrite J. split; [reflexivity|].
  constructor; [exact L | exact F].
Qed.

Lemma lex_step_outcome (st : lex_state) (m : Match) :
  match outcome_of (lastgroup m) with
  | Discarded =>
      tokens (lex_step st m) = tokens st /\ errors (lex_step st m) = errors st
      /\ (line_no st <= line_no (lex_step st m))%Z
  | Emits_error =>
      tokens (lex_step st m) = tokens st
      /\ errors (lex_step st m)
         = (errors st ++ [(line_no st, "Unknown Token", group m)])%list
      /\ line_no (lex_step st m) = line_no st
  | Emits_token =>
      tokens (lex_step st m)
      = (tokens st ++ [(line_no st, lastgroup m, group m)])%list
      /\ errors (lex_step st m) = errors st
      /\ line_no (lex_step st m) = line_no st
  end.
Proof.
  destruct m as [k v]. destruct k; cbn; repeat split; lia.
Qed.

Lemma fold_lex_texts (ms : list Match) (st : lex_state) :
  map token_text (tokens (fold_left lex_step ms st))
  = (map token_text (tokens st)
       ++ map match_text (filter (has_outcome Emits_token) ms))%list
  /\ map snd (errors (fold_left lex_step ms st))
     = (map snd (errors st) ++ map group (filter (has_outcome Emits_error) ms))%list.
Proof.
  revert st. induction ms as [|m ms IH]; intros st; cbn [fold_left filter map].
  - now rewrite !app_nil_r.
  - destruct (IH (lex_step st m)) as [IHt IHe]. rewrite IHt, IHe.
    pose proof (lex_step_outcome st m) as H. unfold has_outcome.
    destruct (outcome_of (lastgroup m)); cbn [outcome_eqb map];
      destruct H as [Ht [He _]]; rewrite Ht, He;
      rewrite ?map_app, <- ?app_assoc; split; reflexivity.
Qed.


Lemma sorted_snoc (l : list Z) (x : Z) :
  StronglySorted Z.le l -> Forall (fun y => (y <= x)%Z) l ->
  StronglySorted Z.le (l ++ [x])%list.
Proof.
  induction 1 as [|y l Hs IH Hy]; intros Hall; cbn.
  - constructor; constructor.
  - inversion Hall; subst. constructor; [now apply IH|].
    apply Forall_app. split; [exact Hy | constructor; [assumption | constructor]].
Qed.

Lemma lex_step_lines (st : lex_state) (m : Match) :
  lines_ok st -> lines_ok (lex_step st m).
Proof.
  intros [H1 [Hs Hb]]. pose proof (lex_step_outcome st m) as H.
  unfold lines_ok.
  destruct (outcome_of (lastgroup m)); destruct H as [Ht [_ Hl]]; rewrite Ht.
  - rewrite Hl. split; [exact H1|]. rewrite map_app. cbn [map tok_line fst].
    split.
    + apply sorted_snoc; [exact Hs|].
      apply Forall_forall. intros y Hy. apply in_map_iff in Hy as [t [<- Ht']].
      rewrite Forall_forall in Hb. apply Hb in Ht'. lia.
    + apply Forall_app. split; [exact Hb|].
      constructor; [cbn; lia | constructor].
  - rewrite Hl. auto.
  - split; [lia|]. split; [exact Hs|].
    eapply Forall_impl; [|exact Hb]. cbn. intros t Ht'. lia.
Qed.

Lemma fold_lex_lines (ms : list Match) (st : lex_state) :
  lines_ok st -> lines_ok (fold_left lex_step ms st).
Proof.
  revert st. induction ms as [|m ms IH]; intros st H; cbn; [exact H|].
  apply IH, lex_step_lines, H.
Qed.

Lemma in_source_order_gap (vs : list string) (g s : string) :
  in_source_order vs s -> in_source_order vs (g ++ s).
Proof.
  intros H. destruct H as [s | gap v vs s H]; [constructor|].
  rewrite <- sapp_assoc. now constructor.
Qed.

Lemma filter_in_source_order (p : Match -> bool) (ms : list Match) :
  in_source_order (map group (filter p ms)) (joined (map group ms)).
Proof.
  induction ms as [|m ms IH]; cbn; [constructor|].
  destruct (p m); cbn.
  - apply (iso_cons EmptyString). exact IH.
  - now apply in_source_order_gap.
Qed.

(** C8: every token's line is at least 1 and at least the line of every
    token before it, and the lexemes of the tokens occur in the source one
    after the other, in the order of the token list. *)
Theorem token_lines_nondecreasing (source_code : string) :
  Forall (fun t => (1 <= tok_line t)%Z) (fst (lex_code source_code)) /\
  StronglySorted Z.le (map tok_line (fst (lex_code source_code))) /\
  in_source_order (map tok_value (fst (lex_code source_code))) source_code.
Proof.
  assert (H0 : lines_ok lex_init).
  { unfold lines_ok. cbn. repeat split; [lia | constructor | constructor]. }
  destruct (fold_lex_lines (finditer source_code) lex_init H0) as [_ [Hs Hb]].
  split; [|split].
  - cbn [lex_code fst]. eapply Forall_impl; [|exact Hb]. cbn. intros t Ht. lia.
  - exact Hs.
  - assert (Hf : String.length source_code < S (String.length source_code)) by lia.
    destruct (finditer_from_tiles _ None source_code Hf) as [J _].
    destruct (fold_lex_texts (finditer source_code) lex_init) as [Ht _].
    fold (finditer source_code) in J.
    change (tokens (fold_left lex_step (finditer source_code) lex_init))
      with (fst (lex_code source_code)) in Ht.
    cbn [lex_init tokens map app] in Ht.
    replace (map tok_value (fst (lex_code source_code)))
      with (map snd (map token_text (fst (lex_code source_code))))
      by (rewrite map_map; reflexivity).
    rewrite Ht, map_map. cbn [match_text snd].
    rewrite <- J at 2. apply filter_in_source_order.
Qed.

End LexerFacts.

(* ------------------------------------------------------------------ *)
(** ** Rules of the table on given texts *)

Section RuleFacts.
Local Open Scope string_scope.

Lemma bt_chr (c : ascii) (k : cont) (prev : option ascii) (rest : string) :
  bt (Chr c) k (prev, String c rest) = k (Some c, rest).
Proof. cbn [bt]. unfold one. cbn [snd]. now rewrite Ascii.eqb_refl. Qed.

Lemma bt_set (negated : bool) (items : list (ascii * ascii)) (k : cont)
      (prev : option ascii) (c : ascii) (rest : string) :
  in_set negated items c = true ->
  bt (Set_ negated items) k (prev, String c rest) = k (Some c, rest).
Proof. intros H. cbn [bt]. unfold one. cbn [snd]. now rewrite H. Qed.

Lemma bt_cat (r1 r2 : regex) (k : cont) (st : state) :
  bt (Cat r1 r2) k st = bt r1 (bt r2 k) st.
Proof. reflexivity. Qed.

Lemma bt_lit (l : string) (k : cont) (prev : option ascii) (rest : string) :
  bt (Lit l) k (prev, l ++ rest) = k (advance prev l, rest).
Proof.
  revert prev. induction l as [|c l IH]; intros prev; [reflexivity|].
  cbn [Lit append advance]. now rewrite bt_cat, bt_chr, IH.
Qed.

(** A greedy class repetition that can read all of [w] and no further, and
    whose continuation succeeds there, takes that match. *)
Lemma star_one_all (p : ascii -> bool) (step : cont -> cont) (k : cont)
      (w rest : string) (res : state) :
  (forall k' st, step k' st = one p k' st) ->
  all_chars p w = true -> stops p rest = true ->
  forall fuel prev,
    String.length w < fuel ->
    k (advance prev w, rest) = Some res ->
    star step fuel k (prev, w ++ rest) = Some res.
Proof.
  intros Hstep Hw Hrest. induction w as [|c w IH]; intros fuel prev Hf Hk.
  - cbn [append advance] in *. destruct fuel as [|fuel]; [lia|].
    cbn [star]. rewrite Hstep. unfold one. cbn [snd].
    destruct rest as [|c rest]; cbn in Hrest |- *; [exact Hk|].
    apply negb_true_iff in Hrest. rewrite Hrest. exact Hk.
  - cbn [all_chars] in Hw. apply andb_true_iff in Hw as [Hc Hw].
    destruct fuel as [|fuel]; [lia|].
    cbn [star append]. rewrite Hstep. unfold one at 1. cbn [snd]. rewrite Hc.
    assert (L : Nat.ltb (String.length (w ++ rest))
                        (String.length (String c (w ++ rest))) = true)
      by (apply Nat.ltb_lt; cbn; lia).
    rewrite L. rewrite (IH Hw fuel (Some c)); [reflexivity | cbn in Hf; lia | exact Hk].
Qed.

Lemma bt_star_set (negated : bool) (items : list (ascii * ascii)) (k : cont)
      (w rest : string) (prev : option ascii) (res : state) :
  all_chars (in_set negated items) w = true ->
  stops (in_set negated items) rest = true ->
  k (advance prev w, rest) = Some res ->
  bt (Star (Set_ negated items)) k (prev, w ++ rest) = Some res.
Proof.
  intros Hw Hr Hk. cbn [bt snd].
  apply star_one_all with (p := in_set negated items); try assumption.
  - reflexivity.
  - rewrite slength_app. lia.
Qed.

Lemma all_chars_ext (p q : ascii -> bool) (s : string) :
  (forall c, p c = true -> q c = true) -> all_chars p s = true -> all_chars q s = true.
Proof.
  intros H. induction s as [|c s IH]; cbn; [reflexivity|].
  rewrite !andb_true_iff. intros [Hc Hs]. auto.
Qed.

Lemma is_blank_in_set (c : ascii) :
  is_blank c = true -> in_set false [(" "%char, " "%char); (tab, tab)] c = true.
Proof.
  unfold is_blank. rewrite orb_true_iff, !Ascii.eqb_eq. intros [->| ->]; reflexivity.
Qed.

Lemma not_gt_in_set (c : ascii) :
  not_gt c = true -> in_set true (chars ">") c = true.
Proof.
  unfold not_gt. rewrite negb_true_iff. intros H.
  destruct c as [[] [] [] [] [] [] [] []]; try reflexivity; discriminate H.
Qed.

Lemma first_match_head (n : category) (r : regex) (specs : list (category * regex))
      (st st' : state) :
  match_at r st = Some st' -> first_match ((n, r) :: specs) st = Some (n, st').
Proof. intros H. cbn [first_match]. now rewrite H. Qed.

Lemma first_match_skip (n : category) (r : regex) (specs : list (category * regex))
      (st : state) :
  match_at r st = None -> first_match ((n, r) :: specs) st = first_match specs st.
Proof. intros H. cbn [first_match]. now rewrite H. Qed.

(** The include rule on a whole directive. *)
Lemma library_rule_matches (ws name : string) (prev : option ascii) :
  all_chars is_blank ws = true ->
  name <> EmptyString ->
  all_chars not_gt name = true ->
  compiled_regex_match (prev, "#include" ++ ws ++ "<" ++ name ++ ">")
  = Some (Library, (Some ">"%char, EmptyString)).
Proof.
  intros Hws Hne Hname.
  unfold compiled_regex_match, token_specs. apply first_match_head.
  unfold match_at.
  rewrite bt_cat, bt_lit, bt_cat.
  apply bt_star_set with (res := (Some ">"%char, EmptyString)).
  - eapply all_chars_ext; [exact is_blank_in_set | exact Hws].
  - reflexivity.
  - cbn [append]. rewrite bt_cat, bt_chr. unfold Plus. rewrite !bt_cat.
    destruct name as [|c name]; [contradiction|].
    cbn [all_chars] in Hname. apply andb_true_iff in Hname as [Hc Hname].
    cbn [append]. rewrite bt_set by (now apply not_gt_in_set).
    apply bt_star_set.
    + eapply all_chars_ext; [exact not_gt_in_set | exact Hname].
    + reflexivity.
    + apply bt_chr.
Qed.

(** C1 on the code: ["++"] is one increment/decrement token, but ["<<"] is
    two relational tokens and ["=="] two assignment tokens, because the
    assignment and relational rules stand before the rules that list the
    two-character operators. *)
Theorem two_char_operators_under_rule_order :
  lex_code "++" = ([(1%Z, Increment_Decrement_Operator, "++")], []) /\
  lex_code "<<"
  = ([(1%Z, Relational_Operator, "<"); (1%Z, Relational_Operator, "<")], []) /\
  lex_code "=="
  = ([(1%Z, Assignment_Operator, "="); (1%Z, Assignment_Operator, "=")], []).
Proof. repeat split; vm_compute; reflexivity. Qed.

(** C10: a directive [#include], blanks (spaces or tabs, possibly none),
    [<], a non-empty name without [>], [>] is scanned as one Library token
    holding the whole directive, with nothing else emitted. *)
Theorem include_directive_one_token (ws name : string) :
  all_chars is_blank ws = true ->
  name <> EmptyString ->
  all_chars not_gt name = true ->
  lex_code ("#include" ++ ws ++ "<" ++ name ++ ">")
  = ([(1%Z, Library, "#include" ++ ws ++ "<" ++ name ++ ">")], []).
Proof.
  intros Hws Hne Hname.
  unfold lex_code, finditer. cbn [finditer_from].
  rewrite (library_rule_matches ws name None Hws Hne Hname).
  cbn [String.length]. rewrite Nat.sub_0_r.
  replace (substring 0 _ _) with ("#include" ++ ws ++ "<" ++ name ++ ">")
    by (rewrite <- (sapp_nil_r ("#include" ++ ws ++ "<" ++ name ++ ">")) at 3;
        now rewrite substring_app_prefix).
  destruct (String.length _) eqn:L; [discriminate L|].
  cbn [finditer_from]. rewrite compiled_match_end. reflexivity.
Qed.

Lemma include_directive_one_token_witness :
  all_chars is_blank (String " " (String tab EmptyString)) = true /\
  "stdio.h" <> EmptyString /\
  all_chars not_gt "stdio.h" = true /\
  lex_code ("#include" ++ String " " (String tab EmptyString) ++ "<" ++ "stdio.h" ++ ">")
  = ([(1%Z, Library,
       "#include" ++ String " " (String tab EmptyString) ++ "<" ++ "stdio.h" ++ ">")], []).
Proof.
  split; [reflexivity|]. split; [discriminate|]. split; [reflexivity|].
  apply (include_directive_one_token (String " " (String tab EmptyString)) "stdio.h");
    [reflexivity | discriminate | reflexivity].
Defined.

Lemma bt_lit_none (l : string) (k : cont) (prev : option ascii) (s : string) :
  String.prefix l s = false -> bt (Lit l) k (prev, s) = None.
Proof.
  revert prev s. induction l as [|c l IH]; intros prev s H.
  - destruct s; discriminate H.
  - cbn [Lit]. rewrite bt_cat. destruct s as [|c' s]; [reflexivity|].
    cbn [String.prefix] in H. cbn [bt]. unfold one. cbn [snd].
    destruct (ascii_dec c c') as [->|Hc].
    + rewrite Ascii.eqb_refl. now apply IH.
    + apply Ascii.eqb_neq in Hc. now rewrite Hc.
Qed.

(** The lazy body of the block-comment rule finds no end in a text
    without a closing marker. *)
Lemma lazy_dot_no_close (s : string) :
  contains "*/" s = false ->
  forall fuel prev,
    lazy_star (bt Dot) fuel (bt (Lit "*/") Some) (prev, s) = None.
Proof.
  induction s as [|c s IH]; intros H fuel prev.
  - destruct fuel; reflexivity.
  - cbn [contains] in H. apply orb_false_iff in H as [Hp Hs].
    destruct fuel as [|fuel]; cbn [lazy_star]; rewrite (bt_lit_none _ _ _ _ Hp);
      [reflexivity|].
    unfold orelse. cbn [bt]. unfold one at 1. cbn [snd].
    assert (L : Nat.ltb (String.length s) (String.length (String c s)) = true)
      by (apply Nat.ltb_lt; cbn; lia).
    rewrite L. now apply IH.
Qed.

Lemma block_comment_needs_close (s : string) (prev : option ascii) :
  contains "*/" s = false ->
  match_at (Cat (Lit "/*") (Cat (LazyStar Dot) (Lit "*/"))) (prev, "/*" ++ s) = None.
Proof.
  intros H. unfold match_at. rewrite bt_cat, bt_lit, bt_cat. cbn [bt snd].
  now apply lazy_dot_no_close.
Qed.

Ltac rule_fails :=
  unfold match_at; cbn [bt append];
  try match goal with |- context [at_boundary ?st] => destruct (at_boundary st) end;
  cbn; reflexivity.

(** At an opener without a closing marker the first rule to match is the
    arithmetic one, on the slash. *)
Lemma opener_slash (s : string) (prev : option ascii) :
  contains "*/" s = false ->
  compiled_regex_match (prev, "/*" ++ s)
  = Some (Arithmetic_Operator, (Some "/"%char, "*" ++ s)).
Proof.
  intros H. unfold compiled_regex_match, token_specs.
  rewrite first_match_skip by rule_fails.
  rewrite first_match_skip by rule_fails.
  rewrite first_match_skip by (now apply block_comment_needs_close).
  do 7 (rewrite first_match_skip by rule_fails).
  apply first_match_head. reflexivity.
Qed.

Lemma opener_star (s : string) :
  compiled_regex_match (Some "/"%char, "*" ++ s)
  = Some (Arithmetic_Operator, (Some "*"%char, s)).
Proof.
  unfold compiled_regex_match, token_specs.
  do 10 (rewrite first_match_skip by rule_fails).
  apply first_match_head. reflexivity.
Qed.

Lemma finditer_from_step (fuel : nat) (prev : option ascii) (s : string)
      (name : category) (prev' : option ascii) (rest : string) :
  compiled_regex_match (prev, s) = Some (name, (prev', rest)) ->
  finditer_from (S fuel) prev s
  = ({| lastgroup := name;
        group := substring 0 (String.length s - String.length rest) s |}
       :: finditer_from fuel prev' rest)%list.
Proof. intros H. cbn [finditer_from]. now rewrite H. Qed.

Lemma fold_lex_extends (ms : list Match) (st : lex_state) :
  exists more, tokens (fold_left lex_step ms st) = (tokens st ++ more)%list.
Proof.
  revert st. induction ms as [|m ms IH]; intros st; cbn [fold_left].
  - exists []. now rewrite app_nil_r.
  - destruct (IH (lex_step st m)) as [more E]. rewrite E.
    pose proof (lex_step_outcome st m) as H.
    destruct (outcome_of (lastgroup m)); destruct H as [Ht _]; rewrite Ht.
    + rewrite <- app_assoc. eauto.
    + eauto.
    + eauto.
Qed.

Lemma finditer_from_rule_matches (fuel : nat) (prev : option ascii) (s : string) :
  Forall rule_match (finditer_from fuel prev s).
Proof.
  revert prev s. induction fuel as [|fuel IH]; intros prev s; cbn [finditer_from];
    [constructor|].
  destruct (compiled_regex_match (prev, s)) as [[name [prev' rest]]|] eqn:E.
  - constructor; [|apply IH].
    apply first_match_in in E as [r [Hin Hm]].
    apply match_at_split in Hm as [w [_ [_ [_ D]]]].
    exists r, prev, s, prev', rest. cbn [lastgroup group]. auto.
  - destruct s as [|c s]; [constructor | apply IH].
Qed.

Lemma den_lit (l : string) (p : option ascii) (t : string) (st' : state) :
  den (Lit l) (p, t) st' -> exists rest, t = l ++ rest /\ st' = (advance p l, rest).
Proof.
  revert p t. induction l as [|c l IH]; intros p t D; cbn [Lit] in D.
  - inversion D; subst. exists t. auto.
  - inversion D as [ | | | | | | r1 r2 st st1 st2 D1 D2 | | | | | | ]; subst.
    inversion D1; subst. apply IH in D2 as [rest [-> ->]].
    exists rest. auto.
Qed.

Lemma block_rule_unique (r : regex) :
  In (Block_Comment, r) token_specs ->
  r = Cat (Lit "/*") (Cat (LazyStar Dot) (Lit "*/")).
Proof.
  unfold token_specs. cbn [In]. intros H.
  repeat (destruct H as [H|H]; [try discriminate H; now inversion H|]).
  contradiction.
Qed.

Lemma block_match_closed (m : Match) :
  rule_match m -> lastgroup m = Block_Comment ->
  exists body, group m = "/*" ++ body ++ "*/".
Proof.
  intros [r [p [t [p' [rest [Hin [D G]]]]]]] Hk. rewrite Hk in Hin.
  apply block_rule_unique in Hin. subst r.
  inversion D as [ | | | | | | r1 r2 st st1 st2 D1 D2 | | | | | | ]; subst.
  inversion D2 as [ | | | | | | r1 r2 st st3 st4 D3 D4 | | | | | | ]; subst.
  apply (den_lit "/*") in D1 as [t1 [-> ->]].
  destruct st3 as [p3 t3].
  apply den_split in D3 as [body [E3 _]]. cbn [fst snd] in E3.
  apply (den_lit "*/") in D4 as [t4 [-> E4]]. inversion E4; subst.
  exists body. rewrite G.
  replace ("/*" ++ body ++ "*/" ++ t4) with (("/*" ++ body ++ "*/") ++ t4)
    by (now rewrite !sapp_assoc).
  apply group_of_split.
Qed.

Lemma token_from_match (source_code : string) (t : token) :
  In t (fst (lex_code source_code)) ->
  exists m, In m (finditer source_code)
            /\ lastgroup m = tok_kind t /\ group m = tok_value t.
Proof.
  intros H. apply (in_map token_text) in H.
  destruct (fold_lex_texts (finditer source_code) lex_init) as [Ht _].
  change (tokens (fold_left lex_step (finditer source_code) lex_init))
    with (fst (lex_code source_code)) in Ht.
  cbn [lex_init tokens map app] in Ht. rewrite Ht in H.
  apply in_map_iff in H as [m [E Hm]]. apply filter_In in Hm as [Hm _].
  exists m. unfold match_text, token_text in E. inversion E. auto.
Qed.

(** C4, as the code has it: an opener with no closing marker after it is
    not matched by the block-comment rule.  The scan reads the opener as
    two arithmetic-operator tokens, [/] and [*], and goes on with the text
    after it; and whatever the input, a block-comment token ends with the
    closing marker. *)
Theorem unterminated_comment_not_swallowed (s : string) :
  contains "*/" s = false ->
  finditer ("/*" ++ s)
  = ({| lastgroup := Arithmetic_Operator; group := "/" |}
       :: {| lastgroup := Arithmetic_Operator; group := "*" |}
       :: finditer_from (S (String.length s)) (Some "*"%char) s)%list
  /\ (exists more,
         fst (lex_code ("/*" ++ s))
         = ((1%Z, Arithmetic_Operator, "/") :: (1%Z, Arithmetic_Operator, "*") :: more)%list)
  /\ (forall source_code t,
         In t (fst (lex_code source_code)) -> tok_kind t = Block_Comment ->
         exists body, tok_value t = "/*" ++ body ++ "*/").
Proof.
  intros H.
  assert (E : finditer ("/*" ++ s)
              = ({| lastgroup := Arithmetic_Operator; group := "/" |}
                   :: {| lastgroup := Arithmetic_Operator; group := "*" |}
                   :: finditer_from (S (String.length s)) (Some "*"%char) s)%list).
  { unfold finditer.
    change (S (String.length ("/*" ++ s))) with (S (S (S (String.length s)))).
    rewrite (finditer_from_step _ _ _ _ _ _ (opener_slash s None H)).
    rewrite (finditer_from_step _ _ _ _ _ _ (opener_star s)).
    change ("/*" ++ s) with ("/" ++ "*" ++ s).
    rewrite (group_of_split "/" ("*" ++ s)), (group_of_split "*" s). reflexivity. }
  split; [exact E|]. split.
  - unfold lex_code. rewrite E. cbn [fst fold_left].
    match goal with |- context [fold_left lex_step ?ms ?st] =>
      destruct (fold_lex_extends ms st) as [more Em] end.
    exists more. rewrite Em. reflexivity.
  - intros source_code t Hin Hk.
    apply token_from_match in Hin as [m [Hm [Hg Hv]]].
    pose proof (finditer_from_rule_matches
                  (S (String.length source_code)) None source_code) as F.
    rewrite Forall_forall in F. apply F in Hm.
    rewrite <- Hv. apply block_match_closed; [exact Hm | congruence].
Qed.

Lemma unterminated_comment_not_swallowed_witness :
  contains "*/" " abc" = false /\
  finditer ("/*" ++ " abc")
  = ({| lastgroup := Arithmetic_Operator; group := "/" |}
       :: {| lastgroup := Arithmetic_Operator; group := "*" |}
       :: finditer_from (S (String.length " abc")) (Some "*"%char) " abc")%list.
Proof.
  split; [reflexivity|].
  apply (proj1 (unterminated_comment_not_swallowed " abc" eq_refl)).
Defined.

(** C4 fails as stated: the input [/* abc] has an opener and no closing
    marker, and it is scanned as three tokens, none of them a block
    comment. *)
Lemma unterminated_comment_is_three_tokens :
  contains "*/" " abc" = false /\
  lex_code "/* abc"
  = ([(1%Z, Arithmetic_Operator, "/"); (1%Z, Arithmetic_Operator, "*");
      (1%Z, Identifier, "abc")], []) /\
  lex_code "/* abc" <> ([(1%Z, Block_Comment, "/* abc")], []).
Proof.
  split; [reflexivity|]. split; [vm_compute; reflexivity|].
  vm_compute. discriminate.
Qed.

End RuleFacts.

(* ------------------------------------------------------------------ *)
(** ** The matcher finds a match whenever the pattern has one *)

Section MatcherComplete.
Local Open Scope string_scope.

Lemma den_shrinks (r : regex) (st st' : state) :
  den r st st' -> 1 <= min_len r ->
  String.length (snd st') < String.length (snd st).
Proof.
  intros D L. apply den_split in D as [w [E [_ Lw]]].
  rewrite E, slength_app. lia.
Qed.

Lemma orelse_left (a b : option state) : a <> None -> orelse a b <> None.
Proof. destruct a; [discriminate | contradiction]. Qed.

Lemma orelse_right (a b : option state) : b <> None -> orelse a b <> None.
Proof. destruct a; [discriminate | auto]. Qed.

Lemma bt_complete (r : regex) (st st' : state) :
  den r st st' -> productive r = true ->
  forall k, k st' <> None -> bt r k st <> None.
Proof.
  induction 1 as [ st | c p s | c p s | negated items c p s Hc | c p s Hc
                 | st Hb | r1 r2 st st1 st2 _ IH1 _ IH2
                 | r1 r2 st st' _ IH | r1 r2 st st' _ IH
                 | r st | r st st1 st2 D1 IH1 _ IH2
                 | r st | r st st1 st2 D1 IH1 _ IH2 ];
    intros P k Hk; cbn [productive] in P.
  - exact Hk.
  - now rewrite bt_chr.
  - cbn [bt]. unfold one. cbn [snd]. exact Hk.
  - now rewrite bt_set.
  - cbn [bt]. unfold one. cbn [snd]. now rewrite Hc.
  - cbn [bt]. now rewrite Hb.
  - apply andb_true_iff in P as [P1 P2]. rewrite bt_cat. apply IH1; auto.
  - apply andb_true_iff in P as [P1 P2]. cbn [bt]. apply orelse_left. auto.
  - apply andb_true_iff in P as [P1 P2]. cbn [bt]. apply orelse_right. auto.
  - rewrite bt_star_unfold. now apply orelse_right.
  - pose proof P as P'. apply andb_true_iff in P as [L P]. apply Nat.leb_le in L.
    rewrite bt_star_unfold. apply orelse_left. apply IH1; [exact P|].
    apply (den_shrinks _ _ _ D1) in L. apply Nat.ltb_lt in L. rewrite L. auto.
  - rewrite bt_lazy_star_unfold. now apply orelse_left.
  - pose proof P as P'. apply andb_true_iff in P as [L P]. apply Nat.leb_le in L.
    rewrite bt_lazy_star_unfold. apply orelse_right. apply IH1; [exact P|].
    apply (den_shrinks _ _ _ D1) in L. apply Nat.ltb_lt in L. rewrite L. auto.
Qed.

Lemma match_at_iff (r : regex) (st : state) :
  productive r = true -> (match_at r st <> None <-> can_match r st).
Proof.
  intros P. unfold match_at, can_match. split.
  - destruct (bt r Some st) as [x|] eqn:E; [intros _ | contradiction].
    apply bt_den in E as [st' [D _]]. eauto.
  - intros [st' D]. apply (bt_complete r st st' D P). discriminate.
Qed.

Lemma token_specs_productive (name : category) (r : regex) :
  In (name, r) token_specs -> productive r = true.
Proof.
  assert (H : forallb (fun nr => productive (snd nr)) token_specs = true)
    by (vm_compute; reflexivity).
  rewrite forallb_forall in H. intros Hin. exact (H _ Hin).
Qed.

Lemma first_match_split (specs : list (category * regex)) (st : state)
      (name : category) (st' : state) :
  first_match specs st = Some (name, st') ->
  exists before r after,
    specs = (before ++ (name, r) :: after)%list
    /\ match_at r st = Some st'
    /\ forall n' r', In (n', r') before -> match_at r' st = None.
Proof.
  induction specs as [|[n r] specs IH]; cbn [first_match]; [discriminate|].
  destruct (match_at r st) as [x|] eqn:E.
  - intros H. inversion H; subst. exists [], r, specs. cbn. repeat split; tauto.
  - intros H. apply IH in H as [before [r0 [after [-> [Hm Hb]]]]].
    exists ((n, r) :: before), r0, after. cbn. repeat split; [exact Hm|].
    intros n' r' [Hin|Hin]; [inversion Hin; subst; exact E | eauto].
Qed.

(** X1: priority by list order: the group of a match is the first rule of
    [token_specs] whose pattern has any match at the position, whatever
    later rules could match; and where some rule has a match, the
    alternation matches. *)
Theorem first_rule_in_table_order_wins (st : state) :
  (forall name st',
      compiled_regex_match st = Some (name, st') ->
      exists before r after,
        token_specs = (before ++ (name, r) :: after)%list
        /\ den r st st'
        /\ forall n' r', In (n', r') before -> ~ can_match r' st) /\
  (compiled_regex_match st = None <->
   forall n r, In (n, r) token_specs -> ~ can_match r st).
Proof.
  split.
  - intros name st' H. unfold compiled_regex_match in H.
    apply first_match_split in H as [before [r [after [E [Hm Hb]]]]].
    exists before, r, after. split; [exact E|]. split.
    + destruct st as [p t]. apply match_at_split in Hm as [_ [_ [_ [_ D]]]]. exact D.
    + intros n' r' Hin C.
      assert (Hin' : In (n', r') token_specs)
        by (rewrite E; apply in_or_app; now left).
      apply (match_at_iff r' st (token_specs_productive _ _ Hin')) in C.
      apply C. eauto.
  - unfold compiled_regex_match. split.
    + intros H n r Hin C.
      apply (match_at_iff r st (token_specs_productive _ _ Hin)) in C.
      apply C. eapply first_match_none; eassumption.
    + intros H. destruct (first_match token_specs st) as [[name st']|] eqn:E;
        [|reflexivity].
      apply first_match_in in E as [r [Hin Hm]]. exfalso.
      apply (H _ _ Hin).
      apply (match_at_iff r st (token_specs_productive _ _ Hin)). congruence.
Qed.

End MatcherComplete.

(* ------------------------------------------------------------------ *)
(** ** Scanning a text piece by piece *)

Section ScanCompose.
Local Open Scope string_scope.

Lemma sapp_cancel_r (a b rest : string) : a ++ rest = b ++ rest -> a = b.
Proof.
  intros E. rewrite <- (group_of_split a rest), E. apply group_of_split.
Qed.

Lemma advance_nonempty (p q : option ascii) (w : string) :
  1 <= String.length w -> advance p w = advance q w.
Proof. destruct w; cbn; [lia | reflexivity]. Qed.

(** The matcher looks behind the cursor only for [\b]. *)
Lemma one_ctx (p : ascii -> bool) (k1 k2 : cont) (st1 st2 : state) :
  same_ctx st1 st2 ->
  (forall a b, same_ctx a b -> same_result (k1 a) (k2 b)) ->
  same_result (one p k1 st1) (one p k2 st2).
Proof.
  intros [E _] Hk. unfold one. rewrite E.
  destruct (snd st2) as [|c s]; [exact I|].
  destruct (p c); [|exact I]. apply Hk. split; reflexivity.
Qed.

Lemma orelse_ctx (a1 a2 b1 b2 : option state) :
  same_result a1 a2 -> same_result b1 b2 ->
  same_result (orelse a1 b1) (orelse a2 b2).
Proof. destruct a1, a2; cbn; tauto. Qed.

Lemma star_ctx (step : cont -> cont) :
  (forall k1 k2 st1 st2,
      same_ctx st1 st2 ->
      (forall a b, same_ctx a b -> same_result (k1 a) (k2 b)) ->
      same_result (step k1 st1) (step k2 st2)) ->
  forall fuel k1 k2 st1 st2,
    same_ctx st1 st2 ->
    (forall a b, same_ctx a b -> same_result (k1 a) (k2 b)) ->
    same_result (star step fuel k1 st1) (star step fuel k2 st2).
Proof.
  intros Hstep fuel. induction fuel as [|fuel IH]; intros k1 k2 st1 st2 Hs Hk;
    cbn [star]; [now apply Hk|].
  apply orelse_ctx; [|now apply Hk].
  apply Hstep; [exact Hs|]. intros a b Hab.
  destruct Hs as [Es _]. destruct Hab as [Ea Wa]. rewrite Es, Ea.
  destruct (Nat.ltb _ _); [|exact I]. apply IH; [split; assumption | exact Hk].
Qed.

Lemma lazy_star_ctx (step : cont -> cont) :
  (forall k1 k2 st1 st2,
      same_ctx st1 st2 ->
      (forall a b, same_ctx a b -> same_result (k1 a) (k2 b)) ->
      same_result (step k1 st1) (step k2 st2)) ->
  forall fuel k1 k2 st1 st2,
    same_ctx st1 st2 ->
    (forall a b, same_ctx a b -> same_result (k1 a) (k2 b)) ->
    same_result (lazy_star step fuel k1 st1) (lazy_star step fuel k2 st2).
Proof.
  intros Hstep fuel. induction fuel as [|fuel IH]; intros k1 k2 st1 st2 Hs Hk;
    cbn [lazy_star]; [now apply Hk|].
  apply orelse_ctx; [now apply Hk|].
  apply Hstep; [exact Hs|]. intros a b Hab.
  destruct Hs as [Es _]. destruct Hab as [Ea Wa]. rewrite Es, Ea.
  destruct (Nat.ltb _ _); [|exact I]. apply IH; [split; assumption | exact Hk].
Qed.

Lemma bt_ctx (r : regex) (k1 k2 : cont) (st1 st2 : state) :
  same_ctx st1 st2 ->
  (forall a b, same_ctx a b -> same_result (k1 a) (k2 b)) ->
  same_result (bt r k1 st1) (bt r k2 st2).
Proof.
  revert k1 k2 st1 st2.
  induction r as [ | c | | negated items | | | r1 IH1 r2 IH2 | r1 IH1 r2 IH2
                   | r IH | r IH ]; intros k1 k2 st1 st2 Hs Hk; cbn [bt];
    try (now apply one_ctx).
  - now apply Hk.
  - assert (E : at_boundary st1 = at_boundary st2).
    { destruct Hs as [Es Ws]. unfold at_boundary, word_after. now rewrite Es, Ws. }
    rewrite E. destruct (at_boundary st2); [now apply Hk | exact I].
  - apply IH1; [exact Hs|]. intros a b Hab. now apply IH2.
  - apply orelse_ctx; [now apply IH1 | now apply IH2].
  - destruct Hs as [Es Ws]. rewrite Es.
    apply star_ctx; [exact IH | split; assumption | exact Hk].
  - destruct Hs as [Es Ws]. rewrite Es.
    apply lazy_star_ctx; [exact IH | split; assumption | exact Hk].
Qed.

Lemma match_at_ctx (r : regex) (p1 p2 : option ascii) (s : string) :
  1 <= min_len r ->
  word_before (p1, s) = word_before (p2, s) ->
  match_at r (p1, s) = match_at r (p2, s).
Proof.
  intros L W.
  assert (H : same_result (match_at r (p1, s)) (match_at r (p2, s))).
  { unfold match_at. apply bt_ctx; [split; [reflexivity | exact W]|].
    intros a b Hab. exact Hab. }
  destruct (match_at r (p1, s)) as [[q1 t1]|] eqn:E1,
           (match_at r (p2, s)) as [[q2 t2]|] eqn:E2; cbn in H; try contradiction;
    [|reflexivity].
  destruct H as [Et _]. cbn in Et. subst t2.
  apply match_at_split in E1 as [w1 [Es1 [A1 [L1 _]]]].
  apply match_at_split in E2 as [w2 [Es2 [A2 [L2 _]]]].
  cbn [fst snd] in *.
  assert (w1 = w2) by (apply (sapp_cancel_r _ _ t1); congruence). subst w2.
  rewrite A1, A2. f_equal. f_equal. apply advance_nonempty. lia.
Qed.

Lemma first_match_ctx (specs : list (category * regex)) (p1 p2 : option ascii)
      (s : string) :
  (forall n r, In (n, r) specs -> 1 <= min_len r) ->
  word_before (p1, s) = word_before (p2, s) ->
  first_match specs (p1, s) = first_match specs (p2, s).
Proof.
  intros Hall W. induction specs as [|[n r] specs IH]; cbn [first_match];
    [reflexivity|].
  rewrite (match_at_ctx r p1 p2 s) by (eauto using in_eq).
  destruct (match_at r (p2, s)); [reflexivity|].
  apply IH. intros n' r' Hin. eapply Hall. right. exact Hin.
Qed.

Lemma compiled_match_ctx (p1 p2 : option ascii) (s : string) :
  word_before (p1, s) = word_before (p2, s) ->
  compiled_regex_match (p1, s) = compiled_regex_match (p2, s).
Proof. apply first_match_ctx. exact token_specs_nonempty. Qed.

Lemma finditer_from_ctx (fuel : nat) (p1 p2 : option ascii) (s : string) :
  word_before (p1, s) = word_before (p2, s) ->
  finditer_from fuel p1 s = finditer_from fuel p2 s.
Proof.
  intros W. destruct fuel as [|fuel]; [reflexivity|]. cbn [finditer_from].
  now rewrite (compiled_match_ctx p1 p2 s W).
Qed.

Lemma finditer_from_fuel (f1 f2 : nat) (prev : option ascii) (s : string) :
  String.length s < f1 -> String.length s < f2 ->
  finditer_from f1 prev s = finditer_from f2 prev s.
Proof.
  revert f2 prev s. induction f1 as [|f1 IH]; intros f2 prev s H1 H2; [lia|].
  destruct f2 as [|f2]; [lia|]. cbn [finditer_from].
  destruct (compiled_regex_match (prev, s)) as [[name [prev' rest]]|] eqn:E.
  - apply compiled_match_split in E as [w [E [_ L]]].
    rewrite E, slength_app in H1, H2. f_equal. apply IH; lia.
  - destruct s as [|c s]; [reflexivity|]. cbn in H1, H2. apply IH; lia.
Qed.

Lemma shift_token_0 (t : token) : shift_token 0 t = t.
Proof. destruct t as [[l k] v]. unfold shift_token. cbn. now rewrite Z.add_0_r. Qed.

Lemma shift_error_0 (e : error) : shift_error 0 e = e.
Proof. destruct e as [[l k] v]. unfold shift_error. cbn. now rewrite Z.add_0_r. Qed.

Lemma lex_step_offset (d : Z) (T : list token) (E : list error)
      (st : lex_state) (m : Match) :
  lex_step (offset d T E st) m = offset d T E (lex_step st m).
Proof.
  destruct m as [k v]. unfold lex_step, offset. cbn [lastgroup group].
  destruct (category_eqb k Whitespace); [reflexivity|].
  destruct (category_eqb k Newline).
  { cbn [tokens line_no errors]. f_equal. lia. }
  destruct (category_eqb k Unknown_Token); cbn [tokens line_no errors].
  - rewrite map_app, app_assoc. reflexivity.
  - rewrite map_app, app_assoc. reflexivity.
Qed.

Lemma fold_lex_offset (d : Z) (T : list token) (E : list error)
      (ms : list Match) (st : lex_state) :
  fold_left lex_step ms (offset d T E st)
  = offset d T E (fold_left lex_step ms st).
Proof.
  revert st. induction ms as [|m ms IH]; intros st; cbn [fold_left]; [reflexivity|].
  now rewrite lex_step_offset, IH.
Qed.

Lemma map_shift_token_0 (l : list token) : map (shift_token 0) l = l.
Proof. induction l as [|t l IH]; cbn; [reflexivity | now rewrite shift_token_0, IH]. Qed.

Lemma map_shift_error_0 (l : list error) : map (shift_error 0) l = l.
Proof. induction l as [|t l IH]; cbn; [reflexivity | now rewrite shift_error_0, IH]. Qed.

(** The scan of a text is its first match followed by the scan of the
    rest, when that match does not end in a word character. *)
Lemma lex_code_head (k : category) (w rest : string) (p' : option ascii) :
  compiled_regex_match (None, w ++ rest) = Some (k, (p', rest)) ->
  word_before (p', rest) = false ->
  lex_code (w ++ rest) = after_match k w (lex_code rest).
Proof.
  intros Hm W.
  assert (L : String.length rest < String.length (w ++ rest)).
  { apply compiled_match_split in Hm as [w' [E [_ L]]].
    rewrite E, slength_app. lia. }
  assert (F : finditer (w ++ rest)
              = ({| lastgroup := k; group := w |} :: finditer rest)%list).
  { unfold finditer. rewrite (finditer_from_step _ _ _ _ _ _ Hm), group_of_split.
    f_equal. rewrite (finditer_from_ctx _ p' None rest W).
    apply finditer_from_fuel; lia. }
  unfold lex_code. rewrite F. cbn [fold_left].
  unfold after_match.
  destruct k; cbn [outcome_of category_eqb];
    match goal with
    | |- context [fold_left lex_step ?ms (lex_step lex_init ?m)] =>
        let st := eval cbv in (lex_step lex_init m) in
        change (lex_step lex_init m) with st
    end.
  all: try (match goal with
            | |- context [fold_left lex_step ?ms
                            {| tokens := [?t]; line_no := _; errors := _ |}] =>
                change {| tokens := [t]; line_no := 1; errors := [] |}
                  with (offset 0 [t] [] lex_init)
            | |- context [fold_left lex_step ?ms
                            {| tokens := _; line_no := _; errors := [?e] |}] =>
                change {| tokens := []; line_no := 1; errors := [e] |}
                  with (offset 0 [] [e] lex_init)
            end;
            rewrite fold_lex_offset; cbn [offset tokens errors app];
            now rewrite map_shift_token_0, map_shift_error_0).
  - reflexivity.
  - change {| tokens := []; line_no := 2; errors := [] |}
      with (offset 1 [] [] lex_init).
    rewrite fold_lex_offset. reflexivity.
Qed.

End ScanCompose.

(* ------------------------------------------------------------------ *)
(** ** Rules ruled out by the character at the cursor *)

Section FirstChars.
Local Open Scope string_scope.

Lemma den_first (r : regex) (st st' : state) :
  den r st st' ->
  forall c s, snd st = String c s ->
              snd st' = snd st \/ first_chars r c = true.
Proof.
  induction 1 as [ st | c0 p s0 | c0 p s0 | negated items c0 p s0 Hc | c0 p s0 Hc
                 | st Hb | r1 r2 st st1 st2 D1 IH1 _ IH2
                 | r1 r2 st st' _ IH | r1 r2 st st' _ IH
                 | r st | r st st1 st2 D1 IH1 _ IH2
                 | r st | r st st1 st2 D1 IH1 _ IH2 ];
    intros c s E; cbn [first_chars]; cbn [snd] in E;
    try (now left);
    try (inversion E; subst; right; first [apply Ascii.eqb_refl | assumption | reflexivity]).
  - destruct (IH1 c s E) as [E1|F1]; [|right; now rewrite F1].
    apply den_split in D1 as [w [Ew [_ Lw]]].
    assert (Lz : min_len r1 = 0).
    { rewrite E1 in Ew. apply (f_equal String.length) in Ew.
      rewrite slength_app in Ew. lia. }
    rewrite Lz. cbn [Nat.eqb andb].
    destruct (IH2 c s (eq_trans E1 E)) as [E2|F2].
    + left. congruence.
    + right. rewrite F2. apply orb_true_r.
  - destruct (IH c s E) as [E1|F1]; [now left | right; now rewrite F1].
  - destruct (IH c s E) as [E1|F1]; [now left | right; rewrite F1; apply orb_true_r].
  - destruct (IH1 c s E) as [E1|F1]; [|now right].
    destruct (IH2 c s (eq_trans E1 E)) as [E2|F2]; [left; congruence | now right].
  - destruct (IH1 c s E) as [E1|F1]; [|now right].
    destruct (IH2 c s (eq_trans E1 E)) as [E2|F2]; [left; congruence | now right].
Qed.

Lemma rule_no_first (r : regex) (p : option ascii) (c : ascii) (s : string) :
  1 <= min_len r -> first_chars r c = false ->
  match_at r (p, String c s) = None.
Proof.
  intros L F. destruct (match_at r (p, String c s)) as [st'|] eqn:E; [|reflexivity].
  apply match_at_split in E as [w [Ew [_ [Lw D]]]].
  destruct (den_first _ _ _ D c s eq_refl) as [E1|F1]; [|congruence].
  cbn [snd] in E1. rewrite E1 in Ew. apply (f_equal String.length) in Ew.
  rewrite slength_app in Ew. lia.
Qed.

Lemma first_match_drop (specs : list (category * regex)) (p : option ascii)
      (c : ascii) (s : string) :
  first_match specs (p, String c s)
  = first_match (drop_unfit specs c) (p, String c s).
Proof.
  induction specs as [|[n r] specs IH]; [reflexivity|]. cbn [drop_unfit].
  destruct (first_chars r c || Nat.eqb (min_len r) 0) eqn:E; [reflexivity|].
  apply orb_false_iff in E as [F L]. apply Nat.eqb_neq in L.
  cbn [first_match]. rewrite rule_no_first by (assumption || lia). exact IH.
Qed.

Lemma finditer_head (fuel : nat) (p p' : option ascii) (k : category)
      (w rest : string) :
  compiled_regex_match (p, w ++ rest) = Some (k, (p', rest)) ->
  finditer_from (S fuel) p (w ++ rest)
  = ({| lastgroup := k; group := w |} :: finditer_from fuel p' rest)%list.
Proof.
  intros H. now rewrite (finditer_from_step _ _ _ _ _ _ H), group_of_split.
Qed.

Lemma finditer_cons (p' : option ascii) (k : category) (w rest : string) :
  compiled_regex_match (None, w ++ rest) = Some (k, (p', rest)) ->
  word_before (p', rest) = false ->
  finditer (w ++ rest) = ({| lastgroup := k; group := w |} :: finditer rest)%list.
Proof.
  intros H W. unfold finditer. rewrite (finditer_head _ _ _ _ _ _ H). f_equal.
  rewrite (finditer_from_ctx _ p' None rest W).
  apply compiled_match_split in H as [w' [E [_ L]]].
  apply finditer_from_fuel; [rewrite E, slength_app|]; lia.
Qed.

Lemma lex_matches_cons (m : Match) (ms : list Match) :
  lex_matches (m :: ms) = after_match (lastgroup m) (group m) (lex_matches ms).
Proof.
  destruct m as [k w]. unfold lex_matches, after_match. cbn [fold_left lastgroup group].
  destruct k; cbn [outcome_of category_eqb];
    match goal with
    | |- context [fold_left lex_step ?l (lex_step lex_init ?m)] =>
        let st := eval cbv in (lex_step lex_init m) in
        change (lex_step lex_init m) with st
    end.
  all: try (match goal with
            | |- context [fold_left lex_step ?l
                            {| tokens := [?t]; line_no := _; errors := _ |}] =>
                change {| tokens := [t]; line_no := 1; errors := [] |}
                  with (offset 0 [t] [] lex_init)
            | |- context [fold_left lex_step ?l
                            {| tokens := _; line_no := _; errors := [?e] |}] =>
                change {| tokens := []; line_no := 1; errors := [e] |}
                  with (offset 0 [] [e] lex_init)
            end;
            rewrite fold_lex_offset; cbn [offset tokens errors app fst snd];
            now rewrite map_shift_token_0, map_shift_error_0).
  - reflexivity.
  - change {| tokens := []; line_no := 2; errors := [] |}
      with (offset 1 [] [] lex_init).
    rewrite fold_lex_offset. reflexivity.
Qed.

Lemma lex_code_single (k : category) (w : string) (p' : option ascii) :
  compiled_regex_match (None, w) = Some (k, (p', EmptyString)) ->
  lex_code w = after_match k w ([], []).
Proof.
  intros H. change (lex_code w) with (lex_matches (finditer w)).
  unfold finditer. rewrite (finditer_from_step _ _ _ _ _ _ H).
  cbn [String.length]. rewrite Nat.sub_0_r.
  replace (substring 0 (String.length w) w) with w
    by (rewrite <- (sapp_nil_r w) at 3; now rewrite substring_app_prefix).
  rewrite lex_matches_cons. cbn [lastgroup group].
  replace (finditer_from (String.length w) p' EmptyString) with (@nil Match);
    [reflexivity|].
  destruct (String.length w); [reflexivity|]. cbn [finditer_from].
  now rewrite compiled_match_end.
Qed.

Lemma word_before_advance (q : ascii -> bool) (b : bool) (p : option ascii)
      (w rest : string) :
  (forall c, q c = true -> is_word c = b) ->
  all_chars q w = true -> word_before (p, rest) = b ->
  word_before (advance p w, rest) = b.
Proof.
  intros Hq. revert p. induction w as [|c w IH]; intros p Hw Hp; [exact Hp|].
  cbn [all_chars] in Hw. apply andb_true_iff in Hw as [Hc Hw].
  cbn [advance]. apply IH; [exact Hw|]. unfold word_before. cbn [fst]. auto.
Qed.

End FirstChars.

(* ------------------------------------------------------------------ *)
(** ** Blank text, comments and string literals *)

Section ScanShapes.
Local Open Scope string_scope.

Lemma all_chars_app (q : ascii -> bool) (a b : string) :
  all_chars q (a ++ b) = all_chars q a && all_chars q b.
Proof.
  induction a as [|c a IH]; cbn; [reflexivity|]. now rewrite IH, andb_assoc.
Qed.

Lemma is_hspace_cases (c : ascii) :
  is_hspace c = true -> c = " "%char \/ c = tab \/ c = cr.
Proof.
  unfold is_hspace. rewrite !orb_true_iff, !Ascii.eqb_eq. tauto.
Qed.

Lemma is_hspace_in_set (c : ascii) :
  is_hspace c = true ->
  in_set false [(" "%char, " "%char); (tab, tab); (cr, cr)] c = true.
Proof. intros H. apply is_hspace_cases in H as [-> | [-> | ->]]; reflexivity. Qed.

Lemma whitespace_rule_matches (c : ascii) (w : string) :
  is_hspace c = true -> all_chars is_hspace w = true ->
  compiled_regex_match (None, String c w)
  = Some (Whitespace, (advance (Some c) w, EmptyString)).
Proof.
  intros Hc Hw. unfold compiled_regex_match. rewrite first_match_drop.
  replace (drop_unfit token_specs c) with (skipn 19 token_specs)
    by (apply is_hspace_cases in Hc as [-> | [-> | ->]]; reflexivity).
  unfold token_specs. cbn [skipn]. apply first_match_head.
  unfold match_at, Plus. rewrite bt_cat, bt_set by (now apply is_hspace_in_set).
  rewrite <- (sapp_nil_r w) at 1. apply bt_star_set; [|reflexivity|reflexivity].
  eapply all_chars_ext; [exact is_hspace_in_set | exact Hw].
Qed.

(** X2: a text of spaces, tabs and carriage returns only, the empty text
    included, is scanned to no token and no error. *)
Theorem blank_text_scans_to_nothing (w : string) :
  all_chars is_hspace w = true -> lex_code w = ([], []).
Proof.
  destruct w as [|c w]; [reflexivity|]. cbn [all_chars].
  intros H. apply andb_true_iff in H as [Hc Hw].
  now rewrite (lex_code_single _ _ _ (whitespace_rule_matches c w Hc Hw)).
Qed.

Lemma blank_text_scans_to_nothing_witness :
  all_chars is_hspace (String " " (String tab (String cr " "))) = true /\
  lex_code (String " " (String tab (String cr " "))) = ([], []).
Proof.
  split; [reflexivity|].
  apply (blank_text_scans_to_nothing (String " " (String tab (String cr " ")))).
  reflexivity.
Defined.

Lemma is_not_newline_in_set (c : ascii) :
  is_not newline c = true -> in_set true [(newline, newline)] c = true.
Proof.
  unfold is_not. rewrite negb_true_iff. intros H.
  destruct c as [[] [] [] [] [] [] [] []]; try reflexivity; discriminate H.
Qed.

Lemma line_comment_matches (p : option ascii) (body rest : string) :
  all_chars (is_not newline) body = true ->
  stops (in_set true [(newline, newline)]) rest = true ->
  compiled_regex_match (p, ("//" ++ body) ++ rest)
  = Some (Line_Comment, (advance (Some "/"%char) body, rest)).
Proof.
  intros Hb Hr. unfold compiled_regex_match.
  cbn [append]. rewrite first_match_drop.
  change (drop_unfit token_specs "/"%char) with (tl token_specs).
  unfold token_specs. cbn [tl]. apply first_match_head.
  unfold match_at.
  change (String "/" (String "/" (body ++ rest))) with ("//" ++ body ++ rest).
  rewrite bt_cat, bt_lit. apply bt_star_set; [|exact Hr|reflexivity].
  eapply all_chars_ext; [exact is_not_newline_in_set | exact Hb].
Qed.

Lemma newline_rule_matches (p : option ascii) (rest : string) :
  compiled_regex_match (p, String newline rest)
  = Some (Newline, (Some newline, rest)).
Proof.
  unfold compiled_regex_match. rewrite first_match_drop.
  change (drop_unfit token_specs newline) with (skipn 20 token_specs).
  unfold token_specs. cbn [skipn]. apply first_match_head.
  unfold match_at. apply bt_chr.
Qed.

(** X3: a line comment runs to the end of its line, whatever it contains.
    Alone it is one Line_Comment token; followed by a newline and more
    text, the scan gives the comment and then what the rest gives by
    itself, one line further down. *)
Theorem line_comment_runs_to_line_end (body rest : string) :
  all_chars (is_not newline) body = true ->
  lex_code ("//" ++ body) = ([(1%Z, Line_Comment, "//" ++ body)], []) /\
  lex_code ("//" ++ body ++ String newline rest)
  = ((1%Z, Line_Comment, "//" ++ body) :: map (shift_token 1) (fst (lex_code rest)),
     map (shift_error 1) (snd (lex_code rest))).
Proof.
  intros Hb. split.
  - pose proof (line_comment_matches None body EmptyString Hb eq_refl) as H.
    rewrite sapp_nil_r in H. now rewrite (lex_code_single _ _ _ H).
  - pose proof (line_comment_matches None body (String newline rest) Hb eq_refl) as H1.
    pose proof (newline_rule_matches (advance (Some "/"%char) body) rest) as H2.
    change (lex_code ("//" ++ body ++ String newline rest))
      with (lex_matches (finditer ("//" ++ body ++ String newline rest))).
    replace ("//" ++ body ++ String newline rest)
      with (("//" ++ body) ++ String newline rest) by (now rewrite sapp_assoc).
    unfold finditer. rewrite (finditer_head _ _ _ _ _ _ H1).
    rewrite (finditer_from_fuel _ (S (S (String.length rest))))
      by (rewrite ?slength_app; cbn [String.length]; lia).
    change (String newline rest) with (String newline EmptyString ++ rest) in H2 |- *.
    rewrite (finditer_head _ _ _ _ _ _ H2).
    rewrite (finditer_from_ctx _ (Some newline) None rest eq_refl).
    fold (finditer rest).
    rewrite !lex_matches_cons. reflexivity.
Qed.

Lemma line_comment_runs_to_line_end_witness :
  all_chars (is_not newline) " int x = 1; /* " = true /\
  lex_code ("//" ++ " int x = 1; /* ")
  = ([(1%Z, Line_Comment, "//" ++ " int x = 1; /* ")], []).
Proof.
  split; [reflexivity|].
  apply (proj1 (line_comment_runs_to_line_end " int x = 1; /* " EmptyString eq_refl)).
Defined.

Lemma close_not_prefix (c : ascii) (body rest : string) :
  contains "*/" (String c body) = false ->
  String.prefix "*/" (String c (body ++ "*/" ++ rest)) = false.
Proof.
  cbn [contains]. intros H. apply orb_false_iff in H as [Hp _].
  cbn [String.prefix] in Hp |- *.
  destruct (ascii_dec "*" c) as [<-|]; [|reflexivity].
  destruct body as [|c2 body]; [reflexivity|].
  cbn [append String.prefix] in Hp |- *.
  destruct (ascii_dec "/" c2); [|reflexivity].
  destruct body; discriminate Hp.
Qed.

(** The lazy body of the block-comment rule stops at the first closing
    marker. *)
Lemma lazy_dot_close (body rest : string) :
  contains "*/" body = false ->
  forall fuel p,
    String.length body < fuel ->
    lazy_star (bt Dot) fuel (bt (Lit "*/") Some) (p, body ++ "*/" ++ rest)
    = Some (Some "/"%char, rest).
Proof.
  induction body as [|c body IH]; intros H fuel p Hf.
  - destruct fuel as [|fuel]; [lia|]. cbn [lazy_star].
    change (EmptyString ++ "*/" ++ rest) with ("*/" ++ rest).
    now rewrite bt_lit.
  - destruct fuel as [|fuel]; [lia|]. cbn [lazy_star].
    change (String c body ++ "*/" ++ rest) with (String c (body ++ "*/" ++ rest)).
    rewrite (bt_lit_none _ _ _ _ (close_not_prefix c body rest H)).
    unfold orelse. cbn [bt]. unfold one at 1. cbn [snd].
    assert (L : Nat.ltb (String.length (body ++ "*/" ++ rest))
                        (String.length (String c (body ++ "*/" ++ rest))) = true)
      by (apply Nat.ltb_lt; cbn; lia).
    rewrite L. apply IH; [|cbn in Hf; lia].
    cbn [contains] in H. now apply orb_false_iff in H as [_ H].
Qed.

Lemma block_comment_matches (p : option ascii) (body rest : string) :
  contains "*/" body = false ->
  compiled_regex_match (p, ("/*" ++ body ++ "*/") ++ rest)
  = Some (Block_Comment, (Some "/"%char, rest)).
Proof.
  intros H. unfold compiled_regex_match.
  replace (("/*" ++ body ++ "*/") ++ rest) with ("/*" ++ body ++ "*/" ++ rest)
    by (now rewrite !sapp_assoc).
  change ("/*" ++ body ++ "*/" ++ rest)
    with (String "/" ("*" ++ body ++ "*/" ++ rest)).
  rewrite first_match_drop.
  change (drop_unfit token_specs "/"%char) with (tl token_specs).
  unfold token_specs. cbn [tl].
  rewrite first_match_skip
    by (unfold match_at; rewrite bt_cat; now apply bt_lit_none).
  apply first_match_head. unfold match_at.
  change (String "/" ("*" ++ body ++ "*/" ++ rest))
    with ("/*" ++ body ++ "*/" ++ rest).
  rewrite bt_cat, bt_lit, bt_cat. cbn [bt snd].
  apply lazy_dot_close; [exact H|]. rewrite slength_app. lia.
Qed.

(** X4: a closed block comment is one token up to its first closing
    marker, and the text after it is scanned as it would be by itself,
    with the same line numbers: newlines inside the comment are not
    counted. *)
Theorem block_comment_keeps_line_count (body rest : string) :
  contains "*/" body = false ->
  lex_code ("/*" ++ body ++ "*/" ++ rest)
  = ((1%Z, Block_Comment, "/*" ++ body ++ "*/") :: fst (lex_code rest),
     snd (lex_code rest)).
Proof.
  intros H.
  replace ("/*" ++ body ++ "*/" ++ rest) with (("/*" ++ body ++ "*/") ++ rest)
    by (now rewrite !sapp_assoc).
  change (lex_code (("/*" ++ body ++ "*/") ++ rest))
    with (lex_matches (finditer (("/*" ++ body ++ "*/") ++ rest))).
  rewrite (finditer_cons _ _ _ _ (block_comment_matches None body rest H) eq_refl).
  rewrite lex_matches_cons. reflexivity.
Qed.

Lemma block_comment_keeps_line_count_witness :
  contains "*/" (String newline (String newline EmptyString)) = false /\
  lex_code ("/*" ++ String newline (String newline EmptyString) ++ "*/" ++ "x")
  = ((1%Z, Block_Comment, "/*" ++ String newline (String newline EmptyString) ++ "*/")
       :: fst (lex_code "x"),
     snd (lex_code "x")).
Proof.
  split; [reflexivity|].
  apply (block_comment_keeps_line_count (String newline (String newline EmptyString)) "x").
  reflexivity.
Defined.

End ScanShapes.

(* ------------------------------------------------------------------ *)
(** ** String literals *)

Section StringLiterals.
Local Open Scope string_scope.

Lemma orelse_none_r (a : option state) : orelse a None = a.
Proof. destruct a; reflexivity. Qed.

(** A greedy repetition whose body reads exactly one character of class
    [q] and cannot start on [rest]. *)
Lemma star_step_all (q : ascii -> bool) (step : cont -> cont) (k : cont)
      (w rest : string) (res : state) :
  (forall k' prev c s, q c = true -> step k' (prev, String c s) = k' (Some c, s)) ->
  (forall k' prev, step k' (prev, rest) = None) ->
  all_chars q w = true ->
  forall fuel prev,
    String.length w < fuel ->
    k (advance prev w, rest) = Some res ->
    star step fuel k (prev, w ++ rest) = Some res.
Proof.
  intros Hyes Hno Hw. induction w as [|c w IH]; intros fuel prev Hf Hk.
  - cbn [append advance] in *. destruct fuel as [|fuel]; [lia|].
    cbn [star]. now rewrite Hno.
  - cbn [all_chars] in Hw. apply andb_true_iff in Hw as [Hc Hw].
    destruct fuel as [|fuel]; [lia|].
    cbn [star append]. rewrite (Hyes _ _ _ _ Hc). cbn [snd].
    assert (L : Nat.ltb (String.length (w ++ rest))
                        (String.length (String c (w ++ rest))) = true)
      by (apply Nat.ltb_lt; cbn; lia).
    rewrite L. rewrite (IH Hw fuel (Some c)); [reflexivity | cbn in Hf; lia | exact Hk].
Qed.

Lemma plain_string_char_step (k : cont) (prev : option ascii) (c : ascii) (s : string) :
  plain_string_char c = true ->
  bt (Alt (Set_ true [(backslash, backslash); (dquote, dquote)])
          (Cat (Chr backslash) Dot)) k (prev, String c s)
  = k (Some c, s).
Proof.
  intros H. cbn [bt]. unfold one. cbn [snd].
  unfold plain_string_char in H. apply andb_true_iff in H as [Hq Hb].
  apply negb_true_iff in Hq, Hb.
  assert (Hs : in_set true [(backslash, backslash); (dquote, dquote)] c = true).
  { destruct c as [[] [] [] [] [] [] [] []]; try reflexivity;
      first [discriminate Hq | discriminate Hb]. }
  assert (Hb' : Ascii.eqb backslash c = false) by (now rewrite Ascii.eqb_sym).
  rewrite Hs, Hb'. apply orelse_none_r.
Qed.

Lemma string_rule_matches (p : option ascii) (body rest : string) :
  all_chars plain_string_char body = true ->
  compiled_regex_match (p, String dquote (body ++ String dquote rest))
  = Some (String_Literal, (Some dquote, rest)).
Proof.
  intros Hb. unfold compiled_regex_match. rewrite first_match_drop.
  change (drop_unfit token_specs dquote) with (skipn 17 token_specs).
  unfold token_specs. cbn [skipn]. apply first_match_head.
  unfold match_at. rewrite bt_cat, bt_chr, bt_cat.
  change (bt (Star (Alt (Set_ true [(backslash, backslash); (dquote, dquote)])
                        (Cat (Chr backslash) Dot)))
             (bt (Chr dquote) Some) (Some dquote, body ++ String dquote rest))
    with (star (bt (Alt (Set_ true [(backslash, backslash); (dquote, dquote)])
                        (Cat (Chr backslash) Dot)))
               (S (String.length (body ++ String dquote rest)))
               (bt (Chr dquote) Some) (Some dquote, body ++ String dquote rest)).
  apply star_step_all with (q := plain_string_char).
  - intros k' prev c s Hc. now apply plain_string_char_step.
  - intros k' prev. reflexivity.
  - exact Hb.
  - rewrite slength_app. lia.
  - apply bt_chr.
Qed.

(** X5: a string literal without quotes or backslashes inside is one
    String_Literal token from quote to quote, over line ends too, and the
    text after the closing quote is scanned as it would be by itself. *)
Theorem string_literal_is_one_token (body rest : string) :
  all_chars plain_string_char body = true ->
  lex_code (String dquote (body ++ String dquote rest))
  = ((1%Z, String_Literal, String dquote (body ++ String dquote EmptyString))
       :: fst (lex_code rest),
     snd (lex_code rest)).
Proof.
  intros Hb.
  pose proof (string_rule_matches None body rest Hb) as H.
  replace (String dquote (body ++ String dquote rest))
    with (String dquote (body ++ String dquote EmptyString) ++ rest) in H |- *
    by (cbn [append]; now rewrite sapp_assoc).
  change (lex_code (String dquote (body ++ String dquote EmptyString) ++ rest))
    with (lex_matches (finditer (String dquote (body ++ String dquote EmptyString) ++ rest))).
  rewrite (finditer_cons _ _ _ _ H eq_refl), lex_matches_cons. reflexivity.
Qed.

Lemma string_literal_is_one_token_witness :
  all_chars plain_string_char (String "a" (String newline "b")) = true /\
  lex_code (String dquote (String "a" (String newline "b") ++ String dquote ";"))
  = ((1%Z, String_Literal,
      String dquote (String "a" (String newline "b") ++ String dquote EmptyString))
       :: fst (lex_code ";"),
     snd (lex_code ";")).
Proof.
  split; [reflexivity|].
  apply (string_literal_is_one_token (String "a" (String newline "b")) ";").
  reflexivity.
Defined.

Lemma string_rule_needs_quote (p : option ascii) (body : string) :
  all_chars (is_not dquote) body = true ->
  match_at (Cat (Chr dquote)
              (Cat (Star (Alt (Set_ true [(backslash, backslash); (dquote, dquote)])
                              (Cat (Chr backslash) Dot)))
                   (Chr dquote)))
           (p, String dquote body) = None.
Proof.
  intros Hb.
  destruct (match_at _ (p, String dquote body)) as [st'|] eqn:E; [|reflexivity].
  exfalso. apply match_at_split in E as [_ [_ [_ [_ D]]]].
  inversion D as [ | | | | | | r1 r2 st st1 st2 D1 D2 | | | | | | ]; subst.
  inversion D1; subst.
  inversion D2 as [ | | | | | | r1 r2 st st3 st4 D3 D4 | | | | | | ]; subst.
  apply den_split in D3 as [w [Ew _]]. cbn [snd] in Ew.
  inversion D4; subst. cbn [snd] in Hb.
  rewrite all_chars_app in Hb. cbn [all_chars] in Hb.
  unfold is_not at 2 in Hb. rewrite Ascii.eqb_refl in Hb. cbn in Hb.
  now rewrite andb_false_r in Hb.
Qed.

(** X6: an opening double quote with no double quote after it is reported
    as an Unknown Token error, and the text after it is scanned as it
    would be by itself. *)
Theorem unclosed_quote_is_an_error (body : string) :
  all_chars (is_not dquote) body = true ->
  lex_code (String dquote body)
  = (fst (lex_code body),
     (1%Z, "Unknown Token", String dquote EmptyString) :: snd (lex_code body)).
Proof.
  intros Hb.
  assert (H : compiled_regex_match (None, String dquote EmptyString ++ body)
              = Some (Unknown_Token, (Some dquote, body))).
  { cbn [append]. unfold compiled_regex_match. rewrite first_match_drop.
    change (drop_unfit token_specs dquote) with (skipn 17 token_specs).
    unfold token_specs. cbn [skipn].
    rewrite first_match_skip by (now apply string_rule_needs_quote).
    rewrite first_match_drop. cbn [drop_unfit first_chars min_len].
    apply first_match_head. reflexivity. }
  change (lex_code (String dquote body))
    with (lex_matches (finditer (String dquote EmptyString ++ body))).
  rewrite (finditer_cons _ _ _ _ H eq_refl), lex_matches_cons. reflexivity.
Qed.

Lemma unclosed_quote_is_an_error_witness :
  all_chars (is_not dquote) "abc" = true /\
  lex_code (String dquote "abc")
  = (fst (lex_code "abc"),
     (1%Z, "Unknown Token", String dquote EmptyString) :: snd (lex_code "abc")).
Proof.
  split; [reflexivity|].
  apply (unclosed_quote_is_an_error "abc"). reflexivity.
Defined.

End StringLiterals.

(* ------------------------------------------------------------------ *)
(** ** What tokens and error records hold *)

Section TokenShapes.
Local Open Scope string_scope.

Lemma finditer_from_table_matches (fuel : nat) (prev : option ascii) (s : string) :
  Forall table_match (finditer_from fuel prev s).
Proof.
  revert prev s. induction fuel as [|fuel IH]; intros prev s; cbn [finditer_from];
    [constructor|].
  destruct (compiled_regex_match (prev, s)) as [[name [prev' rest]]|] eqn:E.
  - constructor; [|apply IH].
    pose proof E as E'. apply compiled_match_split in E' as [w [Ew _]]. subst s.
    exists prev, prev', rest. cbn [lastgroup group]. now rewrite group_of_split.
  - destruct s as [|c s]; [constructor | apply IH].
Qed.

Lemma in_specs_find (k : category) (r : regex) :
  In (k, r) token_specs -> find_rule k = Some r.
Proof.
  unfold token_specs. cbn [In]. intros H.
  repeat (destruct H as [H|H]; [inversion H; subst; reflexivity|]).
  contradiction.
Qed.

Lemma table_match_den (m : Match) :
  table_match m ->
  exists r p p' rest,
    find_rule (lastgroup m) = Some r
    /\ den r (p, group m ++ rest) (p', rest)
    /\ 1 <= String.length (group m).
Proof.
  intros [p [p' [rest H]]]. unfold compiled_regex_match in H.
  apply first_match_in in H as [r [Hin Hm]].
  apply match_at_split in Hm as [w [Ew [_ [Lw D]]]]. cbn [snd] in Ew.
  apply sapp_cancel_r in Ew. subst w.
  exists r, p, p', rest. split; [now apply in_specs_find|]. split; [exact D|].
  apply token_specs_nonempty in Hin. lia.
Qed.

Lemma token_from_table_match (source_code : string) (t : token) :
  In t (fst (lex_code source_code)) ->
  exists m, table_match m /\ lastgroup m = tok_kind t /\ group m = tok_value t
            /\ outcome_of (tok_kind t) = Emits_token.
Proof.
  intros H. apply (in_map token_text) in H.
  destruct (fold_lex_texts (finditer source_code) lex_init) as [Ht _].
  change (tokens (fold_left lex_step (finditer source_code) lex_init))
    with (fst (lex_code source_code)) in Ht.
  cbn [lex_init tokens map app] in Ht. rewrite Ht in H.
  apply in_map_iff in H as [m [E Hm]]. apply filter_In in Hm as [Hm Ho].
  unfold match_text, token_text in E.
  assert (Ek : lastgroup m = tok_kind t) by congruence.
  assert (Ev : group m = tok_value t) by congruence.
  exists m. repeat split; try assumption.
  - pose proof (finditer_from_table_matches
                  (S (String.length source_code)) None source_code) as F.
    rewrite Forall_forall in F. now apply F.
  - unfold has_outcome in Ho. rewrite <- Ek.
    destruct (outcome_of (lastgroup m)); try discriminate Ho. reflexivity.
Qed.

(** X7: every token of a scan carries a non-empty lexeme that is a match of
    the pattern of its category, and its category is never Whitespace,
    Newline or Unknown_Token. *)
Theorem token_lexeme_matches_its_rule (source_code : string) (t : token) :
  In t (fst (lex_code source_code)) ->
  outcome_of (tok_kind t) = Emits_token /\
  1 <= String.length (tok_value t) /\
  exists r p p' rest,
    find_rule (tok_kind t) = Some r /\
    den r (p, tok_value t ++ rest) (p', rest).
Proof.
  intros H. apply token_from_table_match in H as [m [Hm [Ek [Ev Ho]]]].
  apply table_match_den in Hm as [r [p [p' [rest [Hf [D L]]]]]].
  rewrite Ek in Hf. rewrite Ev in D, L. split; [exact Ho|]. split; [exact L|].
  exists r, p, p', rest. auto.
Qed.

Lemma token_lexeme_matches_its_rule_witness :
  In (1%Z, Identifier, "x") (fst (lex_code "x")) /\
  outcome_of Identifier = Emits_token /\ 1 <= String.length "x".
Proof.
  assert (H : In (1%Z, Identifier, "x") (fst (lex_code "x"))) by (now left).
  split; [exact H|].
  destruct (token_lexeme_matches_its_rule "x" (1%Z, Identifier, "x") H) as [H1 [H2 _]].
  split; [exact H1 | exact H2].
Defined.

Ltac inv_den D := inversion D; subst; clear D.

Lemma den_star_chars (r : regex) (q : ascii -> bool) :
  (forall a b, den r a b -> exists c, q c = true /\ snd a = String c (snd b)) ->
  forall st st', den (Star r) st st' ->
                 exists w, snd st = w ++ snd st' /\ all_chars q w = true.
Proof.
  intros Hr st st' D. remember (Star r) as R eqn:ER.
  induction D as [ | | | | | | | | | r0 st | r0 st st1 st2 D1 _ D2 IH2 | | ];
    try discriminate ER; inversion ER; subst r0.
  - exists EmptyString. split; reflexivity.
  - destruct (IH2 eq_refl) as [w [Ew Hw]].
    apply Hr in D1 as [c [Hc Ec]].
    exists (String c w). cbn [append all_chars]. rewrite Ec, Ew, Hc.
    split; [reflexivity | exact Hw].
Qed.

Lemma den_digit_char (a b : state) :
  den Digit a b -> exists c, is_digit c = true /\ snd a = String c (snd b).
Proof. intros D. inv_den D. eauto. Qed.

Lemma den_set_char (negated : bool) (items : list (ascii * ascii)) (a b : state) :
  den (Set_ negated items) a b ->
  exists c, in_set negated items c = true /\ snd a = String c (snd b).
Proof. intros D. inv_den D. eauto. Qed.

Lemma den_plus_digits (st st' : state) :
  den (Plus Digit) st st' ->
  exists d, snd st = d ++ snd st' /\ digits d = true.
Proof.
  unfold Plus. intros D.
  inversion D as [ | | | | | | r1 r2 a b c D1 D2 | | | | | | ]; subst.
  apply den_digit_char in D1 as [c [Hc Ec]].
  apply (den_star_chars Digit is_digit den_digit_char) in D2 as [w [Ew Hw]].
  exists (String c w). cbn [append digits all_chars]. rewrite Ec, Ew, Hc, Hw.
  split; reflexivity.
Qed.

Lemma den_wordb (st st' : state) :
  den WordB st st' -> st' = st /\ at_boundary st = true.
Proof. intros D. inv_den D. auto. Qed.

Lemma den_words (ws : list string) (st st' : state) :
  den (words ws) st st' ->
  exists kw, In kw ws /\ snd st = kw ++ snd st' /\ fst st' = advance (fst st) kw.
Proof.
  unfold words. induction ws as [|w ws IH]; cbn [map Alts]; intros D.
  - inv_den D. discriminate.
  - destruct st as [p t].
    destruct ws as [|w2 ws].
    + cbn [map Alts] in D. apply den_lit in D as [rest [-> ->]].
      exists w. cbn. auto.
    + change (Alts (Lit w :: map Lit (w2 :: ws)))
        with (Alt (Lit w) (Alts (map Lit (w2 :: ws)))) in D.
      inversion D as [ | | | | | | | r1 r2 a b D1 | r1 r2 a b D1 | | | | ]; subst.
      * apply den_lit in D1 as [rest [-> ->]]. exists w. cbn. auto.
      * apply IH in D1 as [kw [Hin [E A]]]. exists kw. split; [now right | auto].
Qed.

Lemma set_alpha (c : ascii) :
  in_set false [("A"%char, "Z"%char); ("a"%char, "z"%char); ("_"%char, "_"%char)] c
  = is_alpha_ c.
Proof. destruct c as [[] [] [] [] [] [] [] []]; reflexivity. Qed.

Lemma set_alnum (c : ascii) :
  in_set false [("A"%char, "Z"%char); ("a"%char, "z"%char); ("_"%char, "_"%char);
                ("0"%char, "9"%char)] c
  = is_alnum_ c.
Proof. destruct c as [[] [] [] [] [] [] [] []]; reflexivity. Qed.

Lemma den_word_rule (ws : list string) (p p' : option ascii) (v rest : string) :
  den (Cat WordB (Cat (words ws) WordB)) (p, v ++ rest) (p', rest) -> In v ws.
Proof.
  intros D.
  inversion D as [ | | | | | | r1 r2 a b c D1 D2 | | | | | | ]; subst.
  apply den_wordb in D1 as [?E _]; subst.
  inversion D2 as [ | | | | | | r1 r2 a b c D3 D4 | | | | | | ]; subst.
  apply den_wordb in D4 as [?E _]; subst.
  apply den_words in D3 as [kw [Hin [E _]]]. cbn [snd] in E.
  apply sapp_cancel_r in E. now subst.
Qed.

(** X8: the lexeme of a word token has the form of its rule: the lexeme
    of an Identifier token is a letter (A-Z, a-z) or underscore followed by
    letters, the digits 0-9 and underscores, and the lexeme of an
    Access_Specifier, Data_Type or Keyword token is a word of that rule's
    list. *)
Theorem word_token_lexeme_shapes (source_code : string) (t : token) :
  In t (fst (lex_code source_code)) ->
  (tok_kind t = Identifier -> ident_shape (tok_value t) = true) /\
  (tok_kind t = Access_Specifier -> In (tok_value t) access_words) /\
  (tok_kind t = Data_Type -> In (tok_value t) type_words) /\
  (tok_kind t = Keyword -> In (tok_value t) keyword_words).
Proof.
  intros H. apply token_from_table_match in H as [m [Hm [Ek [Ev _]]]].
  apply table_match_den in Hm as [r [p [p' [rest [Hf [D _]]]]]].
  rewrite Ek in Hf. rewrite Ev in D. clear Ek Ev m.
  repeat split; intros K; rewrite K in Hf; inversion Hf; subst r; clear Hf.
  - inversion D as [ | | | | | | r1 r2 a b c D1 D2 | | | | | | ]; subst.
    apply den_wordb in D1 as [?E _]; subst.
    inversion D2 as [ | | | | | | r1 r2 a b c D3 D4 | | | | | | ]; subst.
    inversion D4 as [ | | | | | | r1 r2 a b' c D5 D6 | | | | | | ]; subst.
    apply den_wordb in D6 as [?E _]; subst.
    apply den_set_char in D3 as [c [Hc Ec]].
    apply (den_star_chars _ _ (den_set_char _ _)) in D5 as [w [Ew Hw]].
    cbn [snd] in Ec, Ew. rewrite Ew in Ec.
    change (String c (w ++ rest)) with (String c w ++ rest) in Ec.
    apply sapp_cancel_r in Ec. rewrite Ec. cbn [ident_shape].
    rewrite set_alpha in Hc. rewrite Hc. cbn [andb].
    eapply all_chars_ext; [|exact Hw]. intros x Hx. now rewrite set_alnum in Hx.
  - now apply den_word_rule in D.
  - now apply den_word_rule in D.
  - now apply den_word_rule in D.
Qed.

Lemma word_token_lexeme_shapes_witness :
  In (1%Z, Identifier, "x1") (fst (lex_code "x1")) /\
  (Identifier = Identifier -> ident_shape "x1" = true).
Proof.
  assert (H : In (1%Z, Identifier, "x1") (fst (lex_code "x1"))) by (now left).
  split; [exact H|].
  exact (proj1 (word_token_lexeme_shapes "x1" (1%Z, Identifier, "x1") H)).
Defined.

End TokenShapes.

(* ------------------------------------------------------------------ *)
(** ** Error records *)

Section ErrorRecords.
Local Open Scope string_scope.

Lemma empty_ok_den (r : regex) (st : state) : empty_ok r = true -> den r st st.
Proof.
  induction r as [ | c | | negated items | | | r1 IH1 r2 IH2 | r1 IH1 r2 IH2
                   | r IH | r IH ]; cbn [empty_ok]; intros H;
    try discriminate H; try (now constructor).
  - apply andb_true_iff in H as [H1 H2]. econstructor; eauto.
  - apply orb_true_iff in H as [H1|H2]; [apply den_alt_l | apply den_alt_r]; auto.
Qed.

Lemma accepts_char_den (r : regex) (c : ascii) (p : option ascii) (s : string) :
  accepts_char r c = true -> den r (p, String c s) (Some c, s).
Proof.
  induction r as [ | c' | | negated items | | | r1 IH1 r2 IH2 | r1 IH1 r2 IH2
                   | r IH | r IH ]; cbn [accepts_char]; intros H;
    try discriminate H.
  - apply Ascii.eqb_eq in H. subst. constructor.
  - constructor.
  - now constructor.
  - now constructor.
  - apply orb_true_iff in H as [H|H]; apply andb_true_iff in H as [H1 H2].
    + econstructor; [apply IH1; exact H1 | now apply empty_ok_den].
    + econstructor; [now apply empty_ok_den | apply IH2; exact H2].
  - apply orb_true_iff in H as [H|H]; [apply den_alt_l | apply den_alt_r]; auto.
  - eapply den_star_more; [apply IH; exact H | constructor].
  - eapply den_lazy_more; [apply IH; exact H | constructor].
Qed.

Lemma first_match_past (pre post : list (category * regex)) (st : state)
      (name : category) (st' : state) :
  first_match (pre ++ post)%list st = Some (name, st') ->
  (forall n r, In (n, r) pre -> n <> name) ->
  (forall n r, In (n, r) pre -> match_at r st = None)
  /\ first_match post st = Some (name, st').
Proof.
  induction pre as [|[n r] pre IH]; cbn [app first_match]; intros H Hn.
  - split; [intros ? ? [] | exact H].
  - destruct (match_at r st) as [x|] eqn:E.
    + inversion H; subst. exfalso. apply (Hn name r); [now left | reflexivity].
    + destruct (IH H) as [Hall Hp];
        [intros n' r' Hin; apply (Hn n' r'); now right|].
      split; [|exact Hp].
      intros n' r' [Hin|Hin]; [inversion Hin; subst; exact E | eauto].
Qed.

Lemma unknown_match_is_stray (m : Match) :
  table_match m -> lastgroup m = Unknown_Token ->
  exists c, group m = String c EmptyString /\ always_matched c = false.
Proof.
  intros [p [p' [rest H]]] K. rewrite K in H. unfold compiled_regex_match in H.
  change token_specs
    with (removelast token_specs ++ [(Unknown_Token, Dot)])%list in H.
  apply first_match_past in H as [Hnone Hlast].
  2:{ intros n r Hin E. subst n.
      assert (F : forallb (fun nr => negb (category_eqb (fst nr) Unknown_Token))
                          (removelast token_specs) = true)
        by (vm_compute; reflexivity).
      rewrite forallb_forall in F. apply F in Hin. cbn [fst] in Hin.
      rewrite category_eqb_refl in Hin. discriminate Hin. }
  cbn [first_match] in Hlast. unfold match_at in Hlast. cbn [bt] in Hlast.
  unfold one in Hlast. cbn [snd] in Hlast.
  destruct (group m ++ rest) as [|c t] eqn:Et; [discriminate Hlast|].
  inversion Hlast; subst p' t. clear Hlast.
  exists c. split.
  - apply (sapp_cancel_r _ _ rest). exact Et.
  - destruct (always_matched c) eqn:A; [exfalso | reflexivity].
    unfold always_matched in A. apply existsb_exists in A as [[n r] [Hin Ha]].
    cbn [snd] in Ha.
    assert (Hin' : In (n, r) token_specs).
    { change token_specs
        with (removelast token_specs ++ [(Unknown_Token, Dot)])%list.
      apply in_or_app. now left. }
    pose proof (Hnone n r Hin) as N.
    assert (C : can_match r (p, String c rest))
      by (exists (Some c, rest); now apply accepts_char_den).
    apply (match_at_iff r _ (token_specs_productive _ _ Hin')) in C.
    now apply C.
Qed.

Lemma fold_lex_errors (all ms : list Match) (st : lex_state) :
  incl ms all -> (1 <= line_no st)%Z ->
  (forall e, In e (errors st) -> error_of_match all e) ->
  forall e, In e (errors (fold_left lex_step ms st)) -> error_of_match all e.
Proof.
  revert st. induction ms as [|m ms IH]; intros st Hi Hl He; cbn [fold_left];
    [exact He|].
  apply IH.
  - intros x Hx. apply Hi. now right.
  - pose proof (lex_step_outcome st m) as H.
    destruct (outcome_of (lastgroup m)); destruct H as [_ [_ H]]; lia.
  - intros e Hin. pose proof (lex_step_outcome st m) as H.
    destruct (outcome_of (lastgroup m)) eqn:O; destruct H as [_ [H _]];
      rewrite H in Hin; [now apply He | | now apply He].
    apply in_app_or in Hin as [Hin|[<-|[]]]; [now apply He|].
    exists m. cbn [fst snd]. repeat split; try assumption.
    + apply Hi. now left.
    + destruct (lastgroup m); try discriminate O. reflexivity.
Qed.

Lemma always_matched_punctuation (c : ascii) :
  always_matched c = false ->
  in_items (chars punctuation) c = false /\ is_hspace c = false /\ c <> newline.
Proof.
  destruct c as [[] [] [] [] [] [] [] []]; intros H;
    try (vm_compute in H; discriminate H);
    (split; [reflexivity | split; [reflexivity | discriminate]]).
Qed.

(** X9: every error record is (line, "Unknown Token", one character) with a
    line of at least 1, and that character is one that no one-character
    rule accepts: never a bracket, delimiter or operator character, a
    blank or a newline. *)
Theorem error_record_is_one_stray_character (source_code : string) (e : error) :
  In e (snd (lex_code source_code)) ->
  exists line c,
    e = (line, "Unknown Token", String c EmptyString) /\ (1 <= line)%Z
    /\ always_matched c = false
    /\ in_items (chars punctuation) c = false
    /\ is_hspace c = false /\ c <> newline.
Proof.
  intros H.
  assert (He : error_of_match (finditer source_code) e).
  { apply (fold_lex_errors (finditer source_code) (finditer source_code) lex_init);
      [apply incl_refl | cbn; lia | intros ? [] | exact H]. }
  destruct He as [m [Hm [K [Eg [Ek El]]]]].
  pose proof (finditer_from_table_matches
                (S (String.length source_code)) None source_code) as F.
  rewrite Forall_forall in F. apply F in Hm.
  destruct (unknown_match_is_stray m Hm K) as [c [Ec A]].
  destruct (always_matched_punctuation c A) as [P1 [P2 P3]].
  destruct e as [[line kind] value]. cbn [fst snd] in *.
  exists line, c. subst kind value. rewrite Ec. auto 10.
Qed.

Lemma error_record_is_one_stray_character_witness :
  In (1%Z, "Unknown Token", "@") (snd (lex_code "int @")) /\
  exists line c,
    (1%Z, "Unknown Token", "@") = (line, "Unknown Token", String c EmptyString)
    /\ (1 <= line)%Z /\ always_matched c = false.
Proof.
  assert (H : In (1%Z, "Unknown Token", "@") (snd (lex_code "int @")))
    by (now left).
  split; [exact H|].
  destruct (error_record_is_one_stray_character "int @" _ H)
    as [line [c [E [L [A _]]]]].
  exists line, c. auto.
Defined.

End ErrorRecords.

(* ------------------------------------------------------------------ *)
(** ** Words and numbers *)

Section WordsAndNumbers.
Local Open Scope string_scope.

Lemma bt_wordb (k : cont) (st : state) :
  at_boundary st = true -> bt WordB k st = k st.
Proof. intros H. cbn [bt]. now rewrite H. Qed.

Lemma bt_digit (k : cont) (prev : option ascii) (c : ascii) (rest : string) :
  is_digit c = true -> bt Digit k (prev, String c rest) = k (Some c, rest).
Proof. intros H. cbn [bt]. unfold one. cbn [snd]. now rewrite H. Qed.

Lemma bt_star_digit (k : cont) (w rest : string) (prev : option ascii) (res : state) :
  all_chars is_digit w = true -> stops is_digit rest = true ->
  k (advance prev w, rest) = Some res ->
  bt (Star Digit) k (prev, w ++ rest) = Some res.
Proof.
  intros Hw Hr Hk.
  change (bt (Star Digit) k (prev, w ++ rest))
    with (star (bt Digit) (S (String.length (w ++ rest))) k (prev, w ++ rest)).
  apply star_one_all with (p := is_digit); try assumption.
  - reflexivity.
  - rewrite slength_app. lia.
Qed.

Lemma alnum_is_word (c : ascii) : is_alnum_ c = true -> is_word c = true.
Proof. destruct c as [[] [] [] [] [] [] [] []]; intros H; try reflexivity; discriminate H. Qed.

Lemma alpha_is_alnum (c : ascii) : is_alpha_ c = true -> is_alnum_ c = true.
Proof. unfold is_alnum_. now intros ->. Qed.

Lemma digit_is_word (c : ascii) : is_digit c = true -> is_word c = true.
Proof. destruct c as [[] [] [] [] [] [] [] []]; intros H; try reflexivity; discriminate H. Qed.

Lemma boundary_at_start (q : ascii -> bool) (c : ascii) (s : string) :
  (forall x, q x = true -> is_word x = true) -> q c = true ->
  at_boundary (None, String c s) = true.
Proof.
  intros Hq Hc. unfold at_boundary, word_before, word_after. cbn [fst snd].
  now rewrite (Hq c Hc).
Qed.

Lemma boundary_at_end (q : ascii -> bool) (c : ascii) (w : string) :
  (forall x, q x = true -> is_word x = true) ->
  q c = true -> all_chars q w = true ->
  at_boundary (advance (Some c) w, EmptyString) = true.
Proof.
  intros Hq Hc Hw. unfold at_boundary.
  rewrite (word_before_advance q true (Some c) w EmptyString Hq Hw);
    [reflexivity|].
  unfold word_before. cbn [fst]. auto.
Qed.

Lemma mem_string_In (w : string) (ws : list string) :
  mem_string w ws = true <-> In w ws.
Proof.
  unfold mem_string. rewrite existsb_exists. split.
  - intros [x [Hin E]]. apply String.eqb_eq in E. now subst.
  - intros H. exists w. split; [exact H | apply String.eqb_refl].
Qed.

Lemma first_match_app_none (pre post : list (category * regex)) (st : state) :
  (forall n r, In (n, r) pre -> match_at r st = None) ->
  first_match (pre ++ post)%list st = first_match post st.
Proof.
  induction pre as [|[n r] pre IH]; intros H; cbn [app first_match]; [reflexivity|].
  rewrite (H n r) by (now left). apply IH. intros n' r' Hin. apply (H n' r'). now right.
Qed.

(** A word of identifier shape that is not in the list is not matched by
    the list's rule. *)
Lemma word_rule_none (ws : list string) (w : string) :
  ~ In w ws -> ~ In EmptyString ws -> ident_shape w = true ->
  match_at (Cat WordB (Cat (words ws) WordB)) (None, w) = None.
Proof.
  intros Hw He Hs.
  destruct (match_at _ (None, w)) as [st'|] eqn:E; [exfalso | reflexivity].
  apply match_at_split in E as [_ [_ [_ [_ D]]]].
  inversion D as [ | | | | | | r1 r2 a b c D1 D2 | | | | | | ]; subst.
  apply den_wordb in D1 as [?E _]; subst.
  inversion D2 as [ | | | | | | r1 r2 a b c D3 D4 | | | | | | ]; subst.
  apply den_wordb in D4 as [?E B]; subst.
  apply den_words in D3 as [kw [Hin [E A]]].
  destruct b as [p' rest]. cbn [fst snd] in E, A. subst w p'.
  assert (Hall : all_chars is_alnum_ (kw ++ rest) = true).
  { destruct kw as [|k1 kw]; cbn [append] in *.
    - destruct rest as [|r1 rest]; [discriminate Hs|].
      cbn [ident_shape] in Hs. apply andb_true_iff in Hs as [H1 H2].
      cbn [all_chars]. now rewrite (alpha_is_alnum _ H1), H2.
    - cbn [ident_shape] in Hs. apply andb_true_iff in Hs as [H1 H2].
      cbn [all_chars]. now rewrite (alpha_is_alnum _ H1), H2. }
  rewrite all_chars_app in Hall. apply andb_true_iff in Hall as [Hk Hr].
  destruct kw as [|k1 kw]; [contradiction|].
  destruct rest as [|r1 rest].
  - rewrite sapp_nil_r in Hw. contradiction.
  - cbn [all_chars] in Hk, Hr.
    apply andb_true_iff in Hk as [Hk1 Hk]. apply andb_true_iff in Hr as [Hr1 _].
    unfold at_boundary in B. cbn [advance] in B.
    rewrite (word_before_advance is_alnum_ true (Some k1) kw _ alnum_is_word Hk) in B
      by (unfold word_before; cbn [fst]; now apply alnum_is_word).
    unfold word_after in B. cbn [snd] in B.
    rewrite (alnum_is_word _ Hr1) in B. discriminate B.
Qed.

Lemma alpha_unfit (c : ascii) :
  is_alpha_ c = true ->
  forallb (fun nr => word_rule_b (fst nr) || negb (first_chars (snd nr) c))
          (firstn 18 token_specs) = true.
Proof.
  destruct c as [[] [] [] [] [] [] [] []]; intros H;
    try discriminate H; vm_compute; reflexivity.
Qed.

Lemma word_rules_of_table (n : category) (r : regex) :
  In (n, r) (firstn 18 token_specs) -> word_rule_b n = true ->
  exists ws, r = Cat WordB (Cat (words ws) WordB)
             /\ (ws = access_words \/ ws = type_words \/ ws = keyword_words).
Proof.
  unfold token_specs. cbn [firstn In]. intros H Hb.
  repeat (destruct H as [H|H];
          [inversion H; subst;
           first [discriminate Hb | eexists; split; [reflexivity | auto]] |]).
  contradiction.
Qed.

Lemma identifier_rule_matches (c : ascii) (w : string) :
  is_alpha_ c = true -> all_chars is_alnum_ w = true ->
  mem_string (String c w) access_words = false ->
  mem_string (String c w) type_words = false ->
  mem_string (String c w) keyword_words = false ->
  compiled_regex_match (None, String c w)
  = Some (Identifier, (advance (Some c) w, EmptyString)).
Proof.
  intros Hc Hw Ha Ht Hk. unfold compiled_regex_match.
  rewrite <- (firstn_skipn 18 token_specs).
  rewrite first_match_app_none.
  - unfold token_specs. cbn [skipn]. apply first_match_head.
    unfold match_at.
    rewrite bt_cat, bt_wordb
      by (apply (boundary_at_start is_alpha_);
          [intros x Hx; apply alnum_is_word; now apply alpha_is_alnum | exact Hc]).
    rewrite bt_cat, bt_set by (now rewrite set_alpha).
    rewrite bt_cat. rewrite <- (sapp_nil_r w) at 1.
    apply bt_star_set.
    + eapply all_chars_ext; [|exact Hw]. intros x Hx. now rewrite set_alnum.
    + reflexivity.
    + apply bt_wordb.
      apply (boundary_at_end is_alnum_);
        [exact alnum_is_word | now apply alpha_is_alnum | exact Hw].
  - intros n r Hin.
    pose proof (alpha_unfit c Hc) as F. rewrite forallb_forall in F.
    pose proof (F _ Hin) as Fb. cbn [fst snd] in Fb.
    apply orb_true_iff in Fb as [Fb|Fb].
    + destruct (word_rules_of_table n r Hin Fb) as [ws [-> Hws]].
      apply word_rule_none.
      * intros Hin'. apply mem_string_In in Hin'.
        destruct Hws as [-> | [-> | ->]]; congruence.
      * destruct Hws as [-> | [-> | ->]]; cbn [In access_words type_words keyword_words];
          intros H; repeat (destruct H as [H|H]; [discriminate H|]); exact H.
      * cbn [ident_shape]. now rewrite Hc, Hw.
    + apply negb_true_iff in Fb. apply rule_no_first; [|exact Fb].
      apply (token_specs_nonempty n).
      rewrite <- (firstn_skipn 18 token_specs). apply in_or_app. now left.
Qed.

Lemma reserved_word_scans (w : string) :
  In w (access_words ++ type_words ++ keyword_words)%list ->
  lex_code w = ([(1%Z, word_category w, w)], []).
Proof.
  cbn [access_words type_words keyword_words app In]. intros H.
  repeat (destruct H as [<-|H]; [vm_compute; reflexivity|]).
  contradiction.
Qed.

(** X10: a word made of a letter or underscore followed by letters, digits
    and underscores is scanned as one token: of the category of its list
    when it is one of the access, data-type or keyword words, and an
    Identifier otherwise, also when a listed word is only its beginning. *)
Theorem word_is_reserved_or_identifier (w : string) :
  ident_shape w = true ->
  lex_code w = ([(1%Z, word_category w, w)], []).
Proof.
  intros Hs.
  destruct (mem_string w access_words) eqn:A.
  { apply reserved_word_scans, in_or_app. left. now apply mem_string_In. }
  destruct (mem_string w type_words) eqn:T.
  { apply reserved_word_scans, in_or_app. right. apply in_or_app. left.
    now apply mem_string_In. }
  destruct (mem_string w keyword_words) eqn:K.
  { apply reserved_word_scans, in_or_app. right. apply in_or_app. right.
    now apply mem_string_In. }
  unfold word_category. rewrite A, T, K.
  destruct w as [|c w]; [discriminate Hs|].
  cbn [ident_shape] in Hs. apply andb_true_iff in Hs as [Hc Hw].
  now rewrite (lex_code_single _ _ _ (identifier_rule_matches c w Hc Hw A T K)).
Qed.

Lemma word_is_reserved_or_identifier_witness :
  ident_shape "integer" = true /\
  lex_code "integer" = ([(1%Z, word_category "integer", "integer")], []).
Proof.
  split; [reflexivity|].
  apply (word_is_reserved_or_identifier "integer"). reflexivity.
Defined.

Lemma digit_drop (c : ascii) :
  is_digit c = true -> drop_unfit token_specs c = skipn 14 token_specs.
Proof.
  destruct c as [[] [] [] [] [] [] [] []]; intros H;
    try discriminate H; vm_compute; reflexivity.
Qed.

Lemma float_rule_needs_dot (p : option ascii) (d : string) :
  all_chars is_digit d = true ->
  match_at (Cat WordB (Cat (Plus Digit) (Cat (Chr ".") (Cat (Plus Digit) WordB))))
           (p, d) = None.
Proof.
  intros Hd.
  destruct (match_at _ (p, d)) as [st'|] eqn:E; [exfalso | reflexivity].
  apply match_at_split in E as [_ [_ [_ [_ D]]]].
  inversion D as [ | | | | | | r1 r2 a b c D1 D2 | | | | | | ]; subst.
  apply den_wordb in D1 as [?E _]; subst.
  inversion D2 as [ | | | | | | r1 r2 a b c D3 D4 | | | | | | ]; subst.
  inversion D4 as [ | | | | | | r1 r2 a b' c D5 D6 | | | | | | ]; subst.
  apply den_plus_digits in D3 as [d1 [E1 _]]. cbn [snd] in E1.
  inversion D5; subst. cbn [snd] in Hd.
  rewrite all_chars_app in Hd. cbn [all_chars] in Hd.
  change (is_digit ".") with false in Hd. cbn [andb] in Hd.
  now rewrite andb_false_r in Hd.
Qed.

Lemma plus_digits_then (k : cont) (c : ascii) (d rest : string)
      (prev : option ascii) (res : state) :
  is_digit c = true -> all_chars is_digit d = true -> stops is_digit rest = true ->
  k (advance (Some c) d, rest) = Some res ->
  bt (Plus Digit) k (prev, String c (d ++ rest)) = Some res.
Proof.
  intros Hc Hd Hr Hk. unfold Plus. rewrite bt_cat, bt_digit by exact Hc.
  now apply bt_star_digit.
Qed.

Lemma integer_rule_matches (c : ascii) (d : string) :
  is_digit c = true -> all_chars is_digit d = true ->
  compiled_regex_match (None, String c d)
  = Some (Integer_Constant, (advance (Some c) d, EmptyString)).
Proof.
  intros Hc Hd. unfold compiled_regex_match.
  rewrite first_match_drop, (digit_drop c Hc).
  unfold token_specs. cbn [skipn].
  rewrite first_match_skip
    by (apply float_rule_needs_dot; cbn [all_chars]; now rewrite Hc, Hd).
  apply first_match_head. unfold match_at.
  rewrite bt_cat, bt_wordb by (apply (boundary_at_start is_digit); [exact digit_is_word | assumption]).
  rewrite bt_cat. rewrite <- (sapp_nil_r d) at 1.
  apply plus_digits_then; [exact Hc | exact Hd | reflexivity|].
  apply bt_wordb. apply (boundary_at_end is_digit); [exact digit_is_word | assumption | assumption].
Qed.

Lemma float_rule_matches (c1 c2 : ascii) (d1 d2 : string) :
  is_digit c1 = true -> all_chars is_digit d1 = true ->
  is_digit c2 = true -> all_chars is_digit d2 = true ->
  compiled_regex_match (None, String c1 (d1 ++ String "." (String c2 d2)))
  = Some (Float_Constant, (advance (Some c2) d2, EmptyString)).
Proof.
  intros Hc1 Hd1 Hc2 Hd2. unfold compiled_regex_match.
  rewrite first_match_drop, (digit_drop c1 Hc1).
  unfold token_specs. cbn [skipn]. apply first_match_head. unfold match_at.
  rewrite bt_cat, bt_wordb by (apply (boundary_at_start is_digit); [exact digit_is_word | assumption]).
  rewrite bt_cat.
  apply plus_digits_then; [exact Hc1 | exact Hd1 | reflexivity|].
  rewrite bt_cat, bt_chr, bt_cat. rewrite <- (sapp_nil_r d2) at 1.
  apply plus_digits_then; [exact Hc2 | exact Hd2 | reflexivity|].
  apply bt_wordb. apply (boundary_at_end is_digit); [exact digit_is_word | assumption | assumption].
Qed.

(** X11: a non-empty run of digits is scanned as one Integer_Constant token,
    and two such runs joined by a dot as one Float_Constant token. *)
Theorem number_literals (d1 d2 : string) :
  digits d1 = true -> digits d2 = true ->
  lex_code d1 = ([(1%Z, Integer_Constant, d1)], []) /\
  lex_code (d1 ++ "." ++ d2) = ([(1%Z, Float_Constant, d1 ++ "." ++ d2)], []).
Proof.
  destruct d1 as [|c1 d1]; [discriminate|].
  destruct d2 as [|c2 d2]; [discriminate|].
  cbn [digits all_chars]. intros H1 H2.
  apply andb_true_iff in H1 as [Hc1 Hd1]. apply andb_true_iff in H2 as [Hc2 Hd2].
  split.
  - now rewrite (lex_code_single _ _ _ (integer_rule_matches c1 d1 Hc1 Hd1)).
  - cbn [append].
    now rewrite (lex_code_single _ _ _ (float_rule_matches c1 c2 d1 d2 Hc1 Hd1 Hc2 Hd2)).
Qed.

Lemma number_literals_witness :
  digits "3" = true /\ digits "14" = true /\
  lex_code "3" = ([(1%Z, Integer_Constant, "3")], []) /\
  lex_code ("3" ++ "." ++ "14") = ([(1%Z, Float_Constant, "3" ++ "." ++ "14")], []).
Proof.
  split; [reflexivity|]. split; [reflexivity|].
  apply (number_literals "3" "14"); reflexivity.
Defined.

End WordsAndNumbers.

(* ------------------------------------------------------------------ *)
(** ** More on the statistics *)

Section StatsMore.
Local Open Scope Z_scope.

Lemma stats_step_counts (st : stats) (t : token) :
  stats_step st t
  = {| n_Keyword := n_Keyword st + count_kinds [Keyword] [t];
       n_Identifier := n_Identifier st + count_kinds [Identifier] [t];
       n_Constant := n_Constant st + count_kinds constant_kinds [t];
       n_Operator := n_Operator st + count_kinds operator_kinds [t] |}.
Proof.
  destruct st as [a b c d], t as [[l k] v].
  destruct k; cbn; f_equal; lia.
Qed.

Lemma count_kinds_cons (ks : list category) (t : token) (tokens : list token) :
  count_kinds ks (t :: tokens) = count_kinds ks [t] + count_kinds ks tokens.
Proof.
  unfold count_kinds. cbn [filter]. destruct (kind_in ks t); cbn [List.length app];
    lia.
Qed.

Lemma count_kinds_app (ks : list category) (a b : list token) :
  count_kinds ks (a ++ b) = count_kinds ks a + count_kinds ks b.
Proof.
  unfold count_kinds. rewrite filter_app, length_app. lia.
Qed.

Lemma fold_stats_counts (tokens : list token) (st : stats) :
  fold_left stats_step tokens st
  = {| n_Keyword := n_Keyword st + count_kinds [Keyword] tokens;
       n_Identifier := n_Identifier st + count_kinds [Identifier] tokens;
       n_Constant := n_Constant st + count_kinds constant_kinds tokens;
       n_Operator := n_Operator st + count_kinds operator_kinds tokens |}.
Proof.
  revert st. induction tokens as [|t tokens IH]; intros st; cbn [fold_left].
  - destruct st. unfold count_kinds. cbn. f_equal; lia.
  - rewrite IH, stats_step_counts.
    rewrite !(count_kinds_cons _ t tokens).
    cbn [n_Keyword n_Identifier n_Constant n_Operator]. f_equal; lia.
Qed.

(** X14: the four counters are category counts: Keyword counts the tokens
    of category Keyword only (no Data_Type or Access_Specifier token),
    Identifier those of category Identifier, Operator those of the six
    operator categories; tokens of every other category are not counted. *)
Theorem counters_are_category_counts (tokens : list token) :
  get_token_stats tokens
  = {| n_Keyword := count_kinds [Keyword] tokens;
       n_Identifier := count_kinds [Identifier] tokens;
       n_Constant :=
         count_kinds [Integer_Constant; Float_Constant; Character_Constant] tokens;
       n_Operator :=
         count_kinds [Assignment_Operator; Increment_Decrement_Operator;
                      Arithmetic_Operator; Relational_Operator;
                      Logical_Operator; Bitwise_Operator] tokens |}.
Proof. unfold get_token_stats. rewrite fold_stats_counts. reflexivity. Qed.

Lemma count_kinds_perm (ks : list category) (a b : list token) :
  Permutation a b -> count_kinds ks a = count_kinds ks b.
Proof.
  induction 1 as [ | x a b _ IH | x y a | a b c _ IH1 _ IH2 ].
  - reflexivity.
  - now rewrite (count_kinds_cons ks x a), (count_kinds_cons ks x b), IH.
  - rewrite (count_kinds_cons ks y (x :: a)), (count_kinds_cons ks x a),
      (count_kinds_cons ks x (y :: a)), (count_kinds_cons ks y a). lia.
  - congruence.
Qed.

(** X15: the statistics of two streams put end to end are the sums of their
    statistics, and the statistics do not depend on the order of the
    tokens. *)
Theorem stats_add_up (a b : list token) :
  get_token_stats (a ++ b) = stats_add (get_token_stats a) (get_token_stats b) /\
  (Permutation a b -> get_token_stats a = get_token_stats b).
Proof.
  split.
  - unfold get_token_stats, stats_add. rewrite !fold_stats_counts.
    rewrite !count_kinds_app. cbn. f_equal; lia.
  - intros H. unfold get_token_stats. rewrite !fold_stats_counts.
    now rewrite !(count_kinds_perm _ a b H).
Qed.

Lemma stats_add_up_witness :
  Permutation [(1, Keyword, "if"); (2, Identifier, "x")]
              [(2, Identifier, "x"); (1, Keyword, "if")] /\
  get_token_stats [(1, Keyword, "if"); (2, Identifier, "x")]
  = get_token_stats [(2, Identifier, "x"); (1, Keyword, "if")].
Proof.
  assert (H : Permutation [(1, Keyword, "if"); (2, Identifier, "x")]
                          [(2, Identifier, "x"); (1, Keyword, "if")])
    by apply perm_swap.
  split; [exact H|].
  exact (proj2 (stats_add_up _ _) H).
Defined.

End StatsMore.

(* ------------------------------------------------------------------ *)
(** ** More on the comparison *)

Section CompareMore.

Lemma slot_neqb_sym (a b : option token) : slot_neqb a b = slot_neqb b a.
Proof.
  destruct (slot_neqb a b) eqn:E1, (slot_neqb b a) eqn:E2; try reflexivity.
  - apply slot_neqb_spec in E1.
    assert (N : slot_neqb b a <> true) by congruence.
    rewrite slot_neqb_spec in N. exfalso. apply N. congruence.
  - apply slot_neqb_spec in E2.
    assert (N : slot_neqb a b <> true) by congruence.
    rewrite slot_neqb_spec in N. exfalso. apply N. congruence.
Qed.

Lemma df_equals_sym (A B : list token) : df_equals A B = df_equals B A.
Proof.
  destruct (df_equals A B) eqn:E1, (df_equals B A) eqn:E2; try reflexivity.
  - apply df_equals_eq in E1. subst.
    assert (df_equals B B = true) by now apply df_equals_eq. congruence.
  - apply df_equals_eq in E2. subst.
    assert (df_equals A A = true) by now apply df_equals_eq. congruence.
Qed.

(** X16: exchanging the two codes gives the same verdict and the same rows
    with their two token columns exchanged. *)
Theorem compare_is_symmetric (A B : list token) :
  compare_tokens B A
  = (fst (compare_tokens A B), map swap_row (snd (compare_tokens A B))).
Proof.
  unfold compare_tokens. rewrite (df_equals_sym B A).
  destruct (df_equals A B); [reflexivity|]. cbn [fst snd]. f_equal.
  rewrite !diff_rows_filter, map_map, (Nat.max_comm (List.length B)).
  induction (seq 0 (Nat.max (List.length A) (List.length B))) as [|i l IH];
    [reflexivity|].
  cbn [filter]. rewrite (slot_neqb_sym (slot B i)).
  destruct (slot_neqb (slot A i) (slot B i)); [|exact IH].
  cbn [map]. now rewrite IH.
Qed.

Lemma differing_index (A B : list token) :
  A <> B ->
  exists i, i < Nat.max (List.length A) (List.length B)
            /\ nth_error A i <> nth_error B i.
Proof.
  revert B. induction A as [|a A IH]; intros [|b B] H.
  - contradiction.
  - exists 0. cbn. split; [lia | discriminate].
  - exists 0. cbn. split; [lia | discriminate].
  - destruct (token_eqb a b) eqn:E.
    + apply token_eqb_eq in E. subst b.
      destruct (IH B) as [i [Hi Hd]]; [congruence|].
      exists (S i). cbn. split; [lia | exact Hd].
    + exists 0. cbn. split; [lia|]. intros Eq. inversion Eq; subst.
      assert (token_eqb b b = true) by now apply token_eqb_eq. congruence.
Qed.

Lemma filter_length_le {X : Type} (f : X -> bool) (l : list X) :
  List.length (filter f l) <= List.length l.
Proof. induction l as [|x l IH]; cbn; [lia|]. destruct (f x); cbn; lia. Qed.

Lemma filter_all {X : Type} (f : X -> bool) (l : list X) :
  (forall x, In x l -> f x = true) -> filter f l = l.
Proof.
  induction l as [|x l IH]; intros H; cbn; [reflexivity|].
  rewrite (H x) by (now left). f_equal. apply IH. intros y Hy. apply H. now right.
Qed.

Lemma filter_none {X : Type} (f : X -> bool) (l : list X) :
  (forall x, In x l -> f x = false) -> filter f l = [].
Proof.
  induction l as [|x l IH]; intros H; cbn; [reflexivity|].
  rewrite (H x) by (now left). apply IH. intros y Hy. apply H. now right.
Qed.

(** X17: when the two streams are not equal the table of differences is
    never empty (the page's message for an empty table cannot show), it
    has at most as many rows as the longer stream has tokens, and at least
    as many as the lengths differ by. *)
Theorem unequal_streams_have_rows (A B : list token) :
  A <> B ->
  fst (compare_tokens A B) = false /\
  snd (compare_tokens A B) <> [] /\
  Nat.max (List.length A) (List.length B) - Nat.min (List.length A) (List.length B)
  <= List.length (snd (compare_tokens A B))
  <= Nat.max (List.length A) (List.length B).
Proof.
  intros Hne. unfold compare_tokens.
  destruct (df_equals A B) eqn:E; [apply df_equals_eq in E; contradiction|].
  cbn [fst snd]. split; [reflexivity|]. rewrite diff_rows_filter, length_map.
  split; [|split].
  - destruct (differing_index A B Hne) as [i [Hi Hd]].
    intros Hnil. apply map_eq_nil in Hnil.
    assert (Hin : In i (filter (fun i => slot_neqb (slot A i) (slot B i))
                               (seq 0 (Nat.max (List.length A) (List.length B))))).
    { apply filter_In. split; [apply in_seq; lia | now apply slot_neqb_spec]. }
    rewrite Hnil in Hin. contradiction.
  - set (lo := Nat.min (List.length A) (List.length B)).
    set (hi := Nat.max (List.length A) (List.length B)).
    replace hi with (lo + (hi - lo)) at 2 by (unfold lo, hi; lia).
    rewrite seq_app, filter_app, length_app.
    rewrite (filter_all _ (seq (0 + lo) (hi - lo))); [rewrite length_seq; lia|].
    intros i Hi. apply in_seq in Hi. apply slot_neqb_spec. unfold slot.
    unfold lo, hi in Hi.
    destruct (Nat.le_ge_cases (List.length A) (List.length B)) as [L|L].
    + rewrite Nat.min_l, Nat.max_r in Hi by lia.
      rewrite (proj2 (nth_error_None A i)) by lia.
      intros Eq. symmetry in Eq. apply nth_error_None in Eq. lia.
    + rewrite Nat.min_r, Nat.max_l in Hi by lia.
      rewrite (proj2 (nth_error_None B i)) by lia.
      intros Eq. apply nth_error_None in Eq. lia.
  - etransitivity; [apply filter_length_le | rewrite length_seq; lia].
Qed.

Lemma unequal_streams_have_rows_witness :
  [(1%Z, Identifier, "x")] <> [] /\
  snd (compare_tokens [(1%Z, Identifier, "x")] []) <> [].
Proof.
  assert (H : [(1%Z, Identifier, "x")] <> []) by discriminate.
  split; [exact H|].
  exact (proj1 (proj2 (unequal_streams_have_rows _ _ H))).
Defined.

Lemma map_seq_rows (f : nat -> diff_row) (n : nat) (C : list token) :
  (forall j t, nth_error C j = Some t ->
               f (n + j) = {| row_line := Z.of_nat (n + j) + 1;
                              code1_token := EmptyString;
                              code2_token :=
                                category_name (tok_kind t) ++ ": " ++ tok_value t |}) ->
  map f (seq n (List.length C)) = appended_rows n C.
Proof.
  revert n. induction C as [|t C IH]; intros n H; cbn [List.length seq map appended_rows];
    [reflexivity|].
  f_equal.
  - rewrite <- (Nat.add_0_r n) at 1. rewrite (H 0 t eq_refl).
    now rewrite Nat.add_0_r.
  - apply IH. intros j t' Hj. replace (S n + j) with (n + S j) by lia.
    now apply (H (S j)).
Qed.

(** X18: comparing a stream with itself extended by more tokens gives one
    row for each added token and none for the common part: position
    counted from 1 in the longer stream, an empty first column and the
    added token in the second. *)
Theorem appended_tokens_are_the_rows (A C : list token) :
  diff_rows A (A ++ C) = appended_rows (List.length A) C.
Proof.
  rewrite diff_rows_filter, length_app.
  replace (Nat.max (List.length A) (List.length A + List.length C))
    with (List.length A + List.length C) by lia.
  rewrite seq_app, filter_app, map_app.
  rewrite filter_none, filter_all; cbn [map app plus].
  - apply map_seq_rows. intros j t Hj. unfold spec_row, spec_label.
    rewrite (proj2 (nth_error_None A (List.length A + j))) by lia.
    rewrite nth_error_app2 by lia.
    replace (List.length A + j - List.length A) with j by lia.
    now rewrite Hj.
  - intros i Hi. apply in_seq in Hi. apply slot_neqb_spec. unfold slot.
    rewrite (proj2 (nth_error_None A i)) by lia.
    intros Eq. symmetry in Eq. apply nth_error_None in Eq.
    rewrite length_app in Eq. lia.
  - intros i Hi. apply in_seq in Hi. unfold slot.
    rewrite nth_error_app1 by lia.
    destruct (slot_neqb (nth_error A i) (nth_error A i)) eqn:N; [|reflexivity].
    apply slot_neqb_spec in N. now contradiction N.
Qed.

End CompareMore.

(* ------------------------------------------------------------------ *)
(** ** More on the parse tree generator *)

Section TreeMore.

Lemma kind_at_not_assign (tokens : list token) (i : nat) :
  (forall t, In t tokens -> category_eqb (tok_kind t) Assignment_Operator = false) ->
  kind_at tokens i Assignment_Operator = false.
Proof.
  intros H. unfold kind_at. destruct (nth_error tokens i) as [t|] eqn:E; [|reflexivity].
  apply H. eapply nth_error_In. exact E.
Qed.

Lemma inert_not_assign (t : token) :
  inert t = true -> category_eqb (tok_kind t) Assignment_Operator = false.
Proof.
  unfold inert. intros H. apply andb_true_iff in H as [H _].
  apply andb_true_iff in H as [_ H]. now apply negb_true_iff in H.
Qed.

Lemma opener_not_assign (t : token) :
  opens_unguarded_shape t = true ->
  category_eqb (tok_kind t) Assignment_Operator = false.
Proof.
  destruct t as [[l k] v]. unfold opens_unguarded_shape. cbn [tok_kind fst snd].
  destruct k; cbn; intros H; try reflexivity; discriminate H.
Qed.

(** On an inert token the round moves one token on, and adds a node only
    for a comment. *)
Lemma parse_step_inert (tokens : list token) (i : nat) (program : list Node) (t : token) :
  nth_error tokens i = Some t -> inert t = true ->
  kind_at tokens (i + 1) Assignment_Operator = false ->
  parse_step tokens i program
  = Ok (i + 1, program ++ (if is_comment t then [comment_leaf t] else [])).
Proof.
  intros Hn Hi Hk. unfold parse_step, getitem. rewrite Hn, Hk. cbn [bind].
  destruct t as [[l k] v].
  unfold inert, opens_unguarded_shape, is_comment, comment_leaf in *.
  cbn [tok_kind tok_value fst snd] in *.
  destruct k; cbn [category_eqb category_name String.eqb Ascii.eqb Bool.eqb
                   andb orb negb] in Hi |- *;
    try discriminate Hi; rewrite ?app_nil_r; try reflexivity.
  - destruct (String.eqb v "int"), (String.eqb v "float");
      cbn in Hi; try discriminate Hi; reflexivity.
  - destruct (String.eqb v "if"), (String.eqb v "return"), (String.eqb v "End");
      cbn in Hi; try discriminate Hi; reflexivity.
Qed.

Lemma skipn_nth (tokens : list token) (i : nat) (t : token) :
  nth_error tokens i = Some t -> skipn i tokens = t :: skipn (S i) tokens.
Proof.
  revert i. induction tokens as [|x tokens IH]; intros [|i] H; try discriminate H.
  - inversion H. reflexivity.
  - cbn in H |- *. now apply IH.
Qed.

Lemma parse_loop_inert (fuel : nat) (tokens : list token) (i : nat) (program : list Node) :
  forallb inert tokens = true ->
  List.length tokens - i <= fuel ->
  parse_loop fuel tokens i program
  = Some (Ok (mkNode "Program"
                (program ++ map comment_leaf (filter is_comment (skipn i tokens))))).
Proof.
  intros Hall. rewrite forallb_forall in Hall.
  revert i program. induction fuel as [|fuel IH]; intros i program Hf;
    cbn [parse_loop];
    destruct (Nat.leb (List.length tokens) i) eqn:E.
  - apply Nat.leb_le in E. rewrite skipn_all2 by exact E. cbn. now rewrite app_nil_r.
  - apply Nat.leb_gt in E. lia.
  - apply Nat.leb_le in E. rewrite skipn_all2 by exact E. cbn. now rewrite app_nil_r.
  - apply Nat.leb_gt in E.
    destruct (nth_error tokens i) as [t|] eqn:Hn;
      [|apply nth_error_None in Hn; lia].
    rewrite (parse_step_inert tokens i program t Hn).
    + rewrite IH by lia. rewrite (skipn_nth _ _ _ Hn).
      replace (i + 1) with (S i) by lia. cbn [filter].
      destruct (is_comment t); cbn [map]; rewrite <- app_assoc; reflexivity.
    + apply Hall. eapply nth_error_In. exact Hn.
    + apply kind_at_not_assign. intros x Hx. apply inert_not_assign. now apply Hall.
Qed.

(** X19: on a stream with no declaration, if, return or End opener and no
    assignment operator, the tree is the root with one Comment node for
    each comment token, in order, labelled with the comment stripped of
    surrounding whitespace; every other token leaves no node. *)
Theorem only_comments_leave_nodes (tokens : list token) :
  forallb inert tokens = true ->
  generate_parse_tree tokens
  = Some (Ok (mkNode "Program" (map comment_leaf (filter is_comment tokens)))).
Proof.
  intros H. unfold generate_parse_tree.
  rewrite parse_loop_inert by (assumption || lia). reflexivity.
Qed.

Lemma only_comments_leave_nodes_witness :
  forallb inert (fst (lex_code "x + 1 ; // sum ")) = true /\
  generate_parse_tree (fst (lex_code "x + 1 ; // sum "))
  = Some (Ok (mkNode "Program"
                (map comment_leaf (filter is_comment (fst (lex_code "x + 1 ; // sum ")))))).
Proof.
  split; [vm_compute; reflexivity|].
  apply (only_comments_leave_nodes (fst (lex_code "x + 1 ; // sum "))).
  vm_compute. reflexivity.
Defined.

Lemma parse_step_opener_at_end (pre : list token) (t : token) (program : list Node) :
  opens_unguarded_shape t = true ->
  parse_step (pre ++ [t]) (List.length pre) program = IndexError.
Proof.
  intros Ho. unfold parse_step, getitem.
  assert (N0 : nth_error (pre ++ [t]) (List.length pre) = Some t).
  { rewrite nth_error_app2 by lia. now rewrite Nat.sub_diag. }
  assert (N : forall j, List.length pre < j -> nth_error (pre ++ [t]) j = None).
  { intros j Hj. apply nth_error_None. rewrite length_app. cbn. lia. }
  assert (S0 : skipn (List.length pre + 1) (pre ++ [t]) = []).
  { apply skipn_all2. rewrite length_app. cbn. lia. }
  rewrite N0. cbn [bind].
  destruct t as [[l k] v]. unfold opens_unguarded_shape in Ho.
  cbn [tok_kind tok_value fst snd] in *.
  destruct k; cbn [category_eqb category_name String.eqb Ascii.eqb Bool.eqb
                   andb orb negb] in Ho |- *;
    try discriminate Ho.
  - rewrite orb_false_r in Ho. rewrite Ho.
    rewrite (N (List.length pre + 1)) by lia. reflexivity.
  - destruct (String.eqb v "if") eqn:Eif.
    + rewrite S0. cbn [skip_to].
      rewrite (N (List.length pre + 1 + 1)) by lia. reflexivity.
    + cbn [orb] in Ho. rewrite Ho.
      rewrite (N (List.length pre + 1)) by lia. reflexivity.
Qed.

Lemma parse_loop_opener_at_end (fuel : nat) (pre : list token) (t : token)
      (i : nat) (program : list Node) :
  forallb inert pre = true -> opens_unguarded_shape t = true ->
  i <= List.length pre -> List.length pre + 1 - i <= fuel ->
  parse_loop fuel (pre ++ [t]) i program = Some IndexError.
Proof.
  intros Hall Ho. rewrite forallb_forall in Hall.
  revert i program. induction fuel as [|fuel IH]; intros i program Hi Hf; [lia|].
  cbn [parse_loop].
  assert (E : Nat.leb (List.length (pre ++ [t])) i = false)
    by (apply Nat.leb_gt; rewrite length_app; cbn; lia).
  rewrite E.
  destruct (Nat.eq_dec i (List.length pre)) as [->|Hne].
  - now rewrite parse_step_opener_at_end.
  - destruct (nth_error pre i) as [x|] eqn:Hn;
      [|apply nth_error_None in Hn; lia].
    rewrite (parse_step_inert (pre ++ [t]) i program x).
    + apply IH; lia.
    + rewrite nth_error_app1 by lia. exact Hn.
    + apply Hall. eapply nth_error_In. exact Hn.
    + apply kind_at_not_assign. intros y Hy.
      apply in_app_or in Hy as [Hy|[<-|[]]];
        [apply inert_not_assign; now apply Hall | now apply opener_not_assign].
Qed.

(** X20: a stream that ends in an opener of a declaration, if or return
    shape ([int] or [float] data type, [if] or [return] keyword), after
    tokens that open no shape, makes the builder raise IndexError: no
    tree is returned, the comments before it included. *)
Theorem trailing_opener_raises (pre : list token) (t : token) :
  forallb inert pre = true -> opens_unguarded_shape t = true ->
  generate_parse_tree (pre ++ [t]) = Some IndexError.
Proof.
  intros Hall Ho. unfold generate_parse_tree.
  apply parse_loop_opener_at_end; try assumption; [lia|].
  rewrite length_app. cbn. lia.
Qed.

Lemma trailing_opener_raises_witness :
  forallb inert [(1%Z, Line_Comment, "// done"); (2%Z, Delimiter, ";")] = true /\
  opens_unguarded_shape (2%Z, Keyword, "return") = true /\
  generate_parse_tree ([(1%Z, Line_Comment, "// done"); (2%Z, Delimiter, ";")]
                         ++ [(2%Z, Keyword, "return")])
  = Some IndexError.
Proof.
  split; [reflexivity|]. split; [reflexivity|].
  apply (trailing_opener_raises
           [(1%Z, Line_Comment, "// done"); (2%Z, Delimiter, ";")]
           (2%Z, Keyword, "return")); reflexivity.
Defined.

End TreeMore.

(* ------------------------------------------------------------------ *)
(** ** Identifiers against the word lists, and line numbers *)

Section OrderAndLines.
Local Open Scope string_scope.

Lemma den_lit_intro (l : string) (p : option ascii) (rest : string) :
  den (Lit l) (p, l ++ rest) (advance p l, rest).
Proof.
  revert p. induction l as [|c l IH]; intros p; cbn [Lit append advance].
  - constructor.
  - econstructor; [constructor | apply IH].
Qed.

Lemma den_words_intro (ws : list string) (kw : string) (p : option ascii) (rest : string) :
  In kw ws -> den (words ws) (p, kw ++ rest) (advance p kw, rest).
Proof.
  unfold words. induction ws as [|w ws IH]; intros H; [contradiction|].
  destruct ws as [|w2 ws].
  - destruct H as [<-|[]]. cbn [map Alts]. apply den_lit_intro.
  - change (Alts (map Lit (w :: w2 :: ws)))
      with (Alt (Lit w) (Alts (map Lit (w2 :: ws)))).
    destruct H as [<-|H]; [apply den_alt_l, den_lit_intro | apply den_alt_r, IH, H].
Qed.

Lemma word_rule_in_table (ws : list string) :
  ws = access_words \/ ws = type_words \/ ws = keyword_words ->
  exists n, In (n, Cat WordB (Cat (words ws) WordB)) (firstn 18 token_specs).
Proof.
  intros [-> | [-> | ->]].
  - exists Access_Specifier. unfold token_specs. cbn [firstn In]. tauto.
  - exists Data_Type. unfold token_specs. cbn [firstn In]. tauto.
  - exists Keyword. unfold token_specs. cbn [firstn In]. tauto.
Qed.

Lemma identifier_match_not_in (m : Match) (ws : list string) :
  table_match m -> lastgroup m = Identifier ->
  ws = access_words \/ ws = type_words \/ ws = keyword_words ->
  ~ In (group m) ws.
Proof.
  intros [p [p' [rest H]]] K Hws Hin. rewrite K in H.
  unfold compiled_regex_match in H.
  (* the match of the identifier rule and its two boundaries *)
  pose proof H as H1. apply first_match_in in H1 as [r [Hr Hm]].
  apply in_specs_find in Hr.
  change (find_rule Identifier) with (Some identifier_rule) in Hr.
  inversion Hr; subst r. clear Hr.
  apply match_at_split in Hm as [w [Ew [Aw [_ D]]]]. cbn [fst snd] in Ew, Aw.
  apply sapp_cancel_r in Ew. subst w.
  unfold identifier_rule in D.
  inversion D as [ | | | | | | r1 r2 a b c D1 D2 | | | | | | ]; subst.
  apply den_wordb in D1 as [?E B1]; subst.
  inversion D2 as [ | | | | | | r1 r2 a b c D3 D4 | | | | | | ]; subst.
  inversion D4 as [ | | | | | | r1 r2 a b' c D5 D6 | | | | | | ]; subst.
  apply den_wordb in D6 as [?E B2]; subst.
  clear D D2 D3 D4 D5.
  (* the word rule stands earlier in the table and did not match *)
  rewrite <- (firstn_skipn 18 token_specs) in H.
  apply first_match_past in H as [Hnone _].
  2:{ intros n r Hn E. subst n.
      assert (F : forallb (fun nr => negb (category_eqb (fst nr) Identifier))
                          (firstn 18 token_specs) = true)
        by (vm_compute; reflexivity).
      rewrite forallb_forall in F. apply F in Hn. cbn [fst] in Hn.
      rewrite category_eqb_refl in Hn. discriminate Hn. }
  destruct (word_rule_in_table ws Hws) as [n Hn].
  pose proof (Hnone _ _ Hn) as N.
  assert (Hn' : In (n, Cat WordB (Cat (words ws) WordB)) token_specs).
  { rewrite <- (firstn_skipn 18 token_specs). apply in_or_app. now left. }
  assert (C : can_match (Cat WordB (Cat (words ws) WordB)) (p, group m ++ rest)).
  { exists (advance p (group m), rest).
    econstructor; [now constructor|].
    econstructor; [now apply den_words_intro|].
    now constructor. }
  apply (match_at_iff _ _ (token_specs_productive _ _ Hn')) in C.
  now apply C.
Qed.

(** X12: a word of the access, data-type or keyword lists is never the
    lexeme of an Identifier token: wherever the identifier rule could
    match such a word, the rule of its list, earlier in the table, has
    matched it. *)
Theorem identifier_token_is_not_reserved (source_code : string) (t : token) :
  In t (fst (lex_code source_code)) -> tok_kind t = Identifier ->
  ~ In (tok_value t) access_words /\ ~ In (tok_value t) type_words
  /\ ~ In (tok_value t) keyword_words
  /\ word_category (tok_value t) = Identifier.
Proof.
  intros H K. apply token_from_table_match in H as [m [Hm [Ek [Ev _]]]].
  rewrite K in Ek. rewrite <- Ev.
  assert (A := identifier_match_not_in m access_words Hm Ek (or_introl eq_refl)).
  assert (T := identifier_match_not_in m type_words Hm Ek
                 (or_intror (or_introl eq_refl))).
  assert (W := identifier_match_not_in m keyword_words Hm Ek
                 (or_intror (or_intror eq_refl))).
  repeat split; try assumption.
  unfold word_category.
  destruct (mem_string (group m) access_words) eqn:E1;
    [apply mem_string_In in E1; contradiction|].
  destruct (mem_string (group m) type_words) eqn:E2;
    [apply mem_string_In in E2; contradiction|].
  destruct (mem_string (group m) keyword_words) eqn:E3;
    [apply mem_string_In in E3; contradiction|].
  reflexivity.
Qed.

Lemma identifier_token_is_not_reserved_witness :
  In (1%Z, Identifier, "iffy") (fst (lex_code "int iffy")) /\
  (1%Z, Identifier, "iffy") = (1%Z, Identifier, "iffy") /\
  word_category "iffy" = Identifier.
Proof.
  assert (H : In (1%Z, Identifier, "iffy") (fst (lex_code "int iffy")))
    by (right; now left).
  split; [exact H|]. split; [reflexivity|].
  exact (proj2 (proj2 (proj2
    (identifier_token_is_not_reserved "int iffy" (1%Z, Identifier, "iffy") H eq_refl)))).
Defined.

Lemma count_newlines_app (a b : string) :
  count_newlines (a ++ b) = count_newlines a + count_newlines b.
Proof. induction a as [|c a IH]; cbn; [reflexivity | rewrite IH; lia]. Qed.

Lemma newline_match_text (m : Match) :
  table_match m -> is_newline_match m = true ->
  group m = String newline EmptyString.
Proof.
  intros Hm K. unfold is_newline_match in K. apply category_eqb_eq in K.
  apply table_match_den in Hm as [r [p [p' [rest [Hf [D _]]]]]].
  rewrite K in Hf. change (find_rule Newline) with (Some (Chr newline)) in Hf.
  inversion Hf; subst r. inversion D as [ | c q s E1 E2 | | | | | | | | | | | ]; subst.
  apply (sapp_cancel_r _ _ rest). cbn [append]. congruence.
Qed.

Lemma newline_matches_bound (ms : list Match) :
  Forall table_match ms ->
  List.length (filter is_newline_match ms) <= count_newlines (joined (map group ms)).
Proof.
  induction 1 as [|m ms Hm _ IH]; cbn [filter map joined]; [cbn; lia|].
  rewrite count_newlines_app.
  destruct (is_newline_match m) eqn:K; [|lia].
  rewrite (newline_match_text m Hm K). cbn [List.length count_newlines].
  rewrite Ascii.eqb_refl. lia.
Qed.

Lemma fold_lex_line_no (ms : list Match) (st : lex_state) :
  line_no (fold_left lex_step ms st)
  = (line_no st + Z.of_nat (List.length (filter is_newline_match ms)))%Z.
Proof.
  revert st. induction ms as [|m ms IH]; intros st; cbn [fold_left filter].
  - cbn. lia.
  - rewrite IH. destruct m as [k v]. unfold is_newline_match. cbn [lastgroup].
    destruct k; cbn -[Z.of_nat]; lia.
Qed.

(** X13: no token is placed on a line beyond the lines of the source: its
    line is at most 1 plus the number of newline characters of the
    source. *)
Theorem token_line_within_source (source_code : string) (t : token) :
  In t (fst (lex_code source_code)) ->
  (1 <= tok_line t <= 1 + Z.of_nat (count_newlines source_code))%Z.
Proof.
  intros H.
  assert (H0 : lines_ok lex_init).
  { unfold lines_ok. cbn. repeat split; [lia | constructor | constructor]. }
  destruct (fold_lex_lines (finditer source_code) lex_init H0) as [_ [_ Hb]].
  rewrite Forall_forall in Hb. apply Hb in H.
  rewrite fold_lex_line_no in H. cbn [lex_init line_no] in H.
  assert (Hf : String.length source_code < S (String.length source_code)) by lia.
  destruct (finditer_from_tiles _ None source_code Hf) as [J _].
  fold (finditer source_code) in J.
  pose proof (newline_matches_bound (finditer source_code)
                (finditer_from_table_matches _ None source_code)) as B.
  rewrite J in B. lia.
Qed.

Lemma token_line_within_source_witness :
  In (2%Z, Identifier, "b") (fst (lex_code (String "a" (String newline "b")))) /\
  (1 <= 2 <= 1 + Z.of_nat (count_newlines (String "a" (String newline "b"))))%Z.
Proof.
  assert (H : In (2%Z, Identifier, "b")
                 (fst (lex_code (String "a" (String newline "b")))))
    by (right; now left).
  split; [exact H|].
  exact (token_line_within_source _ _ H).
Defined.

End OrderAndLines.

(* ------------------------------------------------------------------ *)
(** ** The builder works from left to right *)

Section TreeForward.

Lemma getitem_shift (T : list token) (i j : nat) :
  getitem T (i + j) = getitem (skipn i T) j.
Proof. unfold getitem. now rewrite nth_error_skipn. Qed.

Lemma kind_at_shift (T : list token) (i j : nat) (k : category) :
  kind_at T (i + j) k = kind_at (skipn i T) j k.
Proof. unfold kind_at. now rewrite nth_error_skipn. Qed.

Lemma skipn_shift (T : list token) (i j : nat) :
  skipn (i + j) T = skipn j (skipn i T).
Proof. now rewrite skipn_skipn, Nat.add_comm. Qed.

Lemma skip_to_shift (b : string) (l : list token) (i j : nat) :
  skip_to b l (i + j) = i + skip_to b l j.
Proof.
  revert j. induction l as [|t l IH]; intros j; cbn [skip_to]; [reflexivity|].
  destruct (_ && _); [reflexivity|]. rewrite <- IH. f_equal. lia.
Qed.

Lemma expr_loop_shift (l : list token) (i j : nat) (e : list Node) :
  expr_loop l (i + j) e
  = (i + fst (expr_loop l j e), snd (expr_loop l j e)).
Proof.
  revert j e. induction l as [|t l IH]; intros j e; cbn [expr_loop]; [reflexivity|].
  destruct (category_eqb (tok_kind t) Delimiter); [reflexivity|].
  replace (S (i + j)) with (i + S j) by lia. apply IH.
Qed.

Ltac shift_all :=
  repeat progress
    (rewrite <- ?Nat.add_assoc;
     rewrite ?getitem_shift, ?kind_at_shift, ?skipn_shift, ?skip_to_shift,
       ?expr_loop_shift).

Ltac split_round :=
  repeat match goal with
         | |- context [getitem ?t ?i] =>
             destruct (getitem t i); cbn [bind shift_cursor]
         | |- context [if ?c then _ else _] => destruct c
         | |- context [expr_loop ?r ?j ?e] =>
             destruct (expr_loop r j e); cbn [fst snd]
         end.

(** A round at cursor [i + j] is the round at cursor [j] of the stream
    without its first [i] tokens. *)
Lemma parse_step_shift (T : list token) (i j : nat) (p : list Node) :
  parse_step T (i + j) p = shift_cursor i (parse_step (skipn i T) j p).
Proof.
  unfold parse_step. shift_all. unfold bind.
  split_round; cbn [shift_cursor fst snd]; try reflexivity;
    (apply f_equal, f_equal2; [lia | reflexivity]).
Qed.

Lemma parse_step_prefix (T : list token) (i : nat) (p0 p : list Node) :
  parse_step T i (p0 ++ p)
  = match parse_step T i p with
    | Ok (i', p') => Ok (i', p0 ++ p')
    | IndexError => IndexError
    end.
Proof.
  unfold parse_step, bind.
  split_round; rewrite <- ?app_assoc; reflexivity.
Qed.

Lemma parse_loop_shift (fuel : nat) (T : list token) (i j : nat) (p : list Node) :
  parse_loop fuel T (i + j) p = parse_loop fuel (skipn i T) j p.
Proof.
  revert j p. induction fuel as [|fuel IH]; intros j p; cbn [parse_loop];
    rewrite length_skipn;
    (assert (E : Nat.leb (List.length T) (i + j) = Nat.leb (List.length T - i) j)
      by (destruct (Nat.leb (List.length T) (i + j)) eqn:E1,
                   (Nat.leb (List.length T - i) j) eqn:E2; try reflexivity;
          [apply Nat.leb_le in E1; apply Nat.leb_gt in E2
          | apply Nat.leb_gt in E1; apply Nat.leb_le in E2]; lia));
    rewrite E; [reflexivity|].
  destruct (Nat.leb (List.length T - i) j); [reflexivity|].
  rewrite parse_step_shift.
  destruct (parse_step (skipn i T) j p) as [[j' p']|]; cbn [shift_cursor];
    [apply IH | reflexivity].
Qed.

Lemma parse_loop_prefix (fuel : nat) (T : list token) (i : nat) (p0 p : list Node) :
  parse_loop fuel T i (p0 ++ p) = prepend p0 (parse_loop fuel T i p).
Proof.
  revert i p. induction fuel as [|fuel IH]; intros i p; cbn [parse_loop];
    destruct (Nat.leb (List.length T) i); try reflexivity.
  rewrite parse_step_prefix.
  destruct (parse_step T i p) as [[i' p']|]; [apply IH | reflexivity].
Qed.

Lemma parse_loop_fuel (f1 f2 : nat) (T : list token) (i : nat) (p : list Node) :
  List.length T - i <= f1 -> List.length T - i <= f2 ->
  parse_loop f1 T i p = parse_loop f2 T i p.
Proof.
  revert f2 i p. induction f1 as [|f1 IH]; intros f2 i p H1 H2.
  - destruct f2; cbn [parse_loop];
      destruct (Nat.leb (List.length T) i) eqn:E; try reflexivity;
      apply Nat.leb_gt in E; lia.
  - destruct f2 as [|f2]; cbn [parse_loop];
      destruct (Nat.leb (List.length T) i) eqn:E; try reflexivity;
      apply Nat.leb_gt in E; [lia|].
    destruct (parse_step T i p) as [[i' p']|] eqn:S; [|reflexivity].
    apply parse_step_progress in S. apply IH; lia.
Qed.

Lemma first_round_then_rest (tokens : list token) (k : nat) (ns : list Node) :
  parse_step tokens 0 [] = Ok (k, ns) ->
  generate_parse_tree tokens = prepend ns (generate_parse_tree (skipn k tokens)).
Proof.
  intros H. unfold generate_parse_tree.
  destruct tokens as [|t tokens]; [discriminate H|].
  pose proof (parse_step_progress _ _ _ _ _ H) as Hk.
  change (List.length (t :: tokens)) with (S (List.length tokens)) at 1.
  cbn [parse_loop]. change (Nat.leb (List.length (t :: tokens)) 0) with false.
  cbn iota. rewrite H.
  rewrite <- (app_nil_r ns) at 1. rewrite parse_loop_prefix. f_equal.
  rewrite <- (Nat.add_0_r k) at 1. rewrite parse_loop_shift.
  apply parse_loop_fuel; rewrite length_skipn; cbn [List.length]; lia.
Qed.

(** X21: the builder never looks back: when the first round reads [k]
    tokens and makes the nodes [ns], the outcome for the whole stream is
    the outcome for the stream without its first [k] tokens, with [ns] put
    first under the root (and an IndexError of the rest is an IndexError
    of the whole). *)
Theorem tree_is_first_round_then_rest (tokens : list token) (k : nat) (ns : list Node) :
  parse_step tokens 0 [] = Ok (k, ns) ->
  generate_parse_tree tokens = prepend ns (generate_parse_tree (skipn k tokens)).
Proof. exact (first_round_then_rest tokens k ns). Qed.

Lemma tree_is_first_round_then_rest_witness :
  parse_step (fst (lex_code "x = 1; // a")) 0 []
  = Ok (4, [mkNode "Assignment"
              [mkNode "ID: x" [];
               mkNode "Expression" [mkNode "Integer_Constant: 1" []]]]) /\
  generate_parse_tree (fst (lex_code "x = 1; // a"))
  = prepend [mkNode "Assignment"
               [mkNode "ID: x" [];
                mkNode "Expression" [mkNode "Integer_Constant: 1" []]]]
            (generate_parse_tree (skipn 4 (fst (lex_code "x = 1; // a")))).
Proof.
  split; [vm_compute; reflexivity|].
  apply (tree_is_first_round_then_rest (fst (lex_code "x = 1; // a")) 4).
  vm_compute. reflexivity.
Defined.

(** X22: a declaration takes the token after the type as the declared name
    whatever its category, and a return takes the token after the keyword
    as an integer constant whatever its category; the tree of the tokens
    after the shape follows. *)
Theorem declaration_and_return_take_next_token
        (line : Z) (ty : string) (next : token) (rest : list token) :
  (String.eqb ty "int" || String.eqb ty "float" = true ->
   kind_at rest 0 Assignment_Operator = false ->
   generate_parse_tree ((line, Data_Type, ty) :: next :: rest)
   = prepend [mkNode ("Declaration(" ++ ty ++ ")") [leaf ("ID: " ++ tok_value next)]]
             (generate_parse_tree rest)) /\
  generate_parse_tree ((line, Keyword, "return") :: next :: rest)
  = prepend [mkNode "return()" [leaf ("Integer_Constant: " ++ tok_value next)]]
            (generate_parse_tree rest).
Proof.
  split.
  - intros Hty Hk.
    rewrite (first_round_then_rest
               ((line, Data_Type, ty) :: next :: rest) 2
               [mkNode ("Declaration(" ++ ty ++ ")") [leaf ("ID: " ++ tok_value next)]]);
      [reflexivity|].
    unfold parse_step, getitem. cbn [nth_error bind tok_kind tok_value fst snd plus].
    change (category_eqb Data_Type Delimiter) with false.
    change (category_eqb Data_Type Bracket_Parenthesis) with false.
    change (category_eqb Data_Type Data_Type) with true.
    cbn [orb andb]. rewrite Hty.
    change (kind_at ((line, Data_Type, ty) :: next :: rest) 2 Assignment_Operator)
      with (kind_at rest 0 Assignment_Operator).
    rewrite Hk. reflexivity.
  - rewrite (first_round_then_rest
               ((line, Keyword, "return") :: next :: rest) 2
               [mkNode "return()" [leaf ("Integer_Constant: " ++ tok_value next)]]);
      reflexivity.
Qed.

Lemma declaration_and_return_take_next_token_witness :
  String.eqb "float" "int" || String.eqb "float" "float" = true /\
  kind_at [(1%Z, Delimiter, ";")] 0 Assignment_Operator = false /\
  generate_parse_tree [(1%Z, Data_Type, "float"); (1%Z, Delimiter, ";");
                       (1%Z, Delimiter, ";")]
  = prepend [mkNode ("Declaration(" ++ "float" ++ ")")
               [leaf ("ID: " ++ tok_value (1%Z, Delimiter, ";"))]]
            (generate_parse_tree [(1%Z, Delimiter, ";")]).
Proof.
  split; [reflexivity|]. split; [reflexivity|].
  apply (proj1 (declaration_and_return_take_next_token
                  1%Z "float" (1%Z, Delimiter, ";") [(1%Z, Delimiter, ";")]));
    reflexivity.
Defined.

Lemma expr_loop_body (body tail : list token) (i : nat) (e : list Node) :
  forallb not_delimiter body = true ->
  (tail = [] \/ exists t tail', tail = t :: tail' /\ not_delimiter t = false) ->
  expr_loop (body ++ tail) i e
  = (i + List.length body, e ++ flat_map expr_node body).
Proof.
  intros Hb Ht. revert i e. induction body as [|t body IH]; intros i e.
  - cbn [app List.length flat_map]. rewrite Nat.add_0_r, app_nil_r.
    destruct Ht as [->|[t [tail' [-> Hd]]]]; [reflexivity|].
    cbn [expr_loop]. unfold not_delimiter in Hd. apply negb_false_iff in Hd.
    now rewrite Hd.
  - cbn [forallb] in Hb. apply andb_true_iff in Hb as [Hd Hb].
    cbn [app expr_loop List.length flat_map].
    unfold not_delimiter in Hd. apply negb_true_iff in Hd. rewrite Hd.
    rewrite (IH Hb). f_equal; [lia|].
    rewrite app_assoc. f_equal. unfold expr_node.
    destruct (category_eqb (tok_kind t) Identifier); [reflexivity|].
    destruct (category_eqb (tok_kind t) Arithmetic_Operator); [reflexivity|].
    destruct (category_eqb (tok_kind t) Integer_Constant); [reflexivity|].
    destruct (category_eqb (tok_kind t) Float_Constant); [reflexivity|].
    now rewrite app_nil_r.
Qed.

Lemma skipn_past (body : list token) (t : token) (rest : list token) :
  skipn (S (List.length body)) (body ++ t :: rest) = rest.
Proof. induction body as [|b body IH]; [reflexivity | exact IH]. Qed.

(** X23: an identifier followed by an assignment operator takes every token
    up to the next delimiter into its expression: identifiers, arithmetic
    operators and integer and float constants as leaves, in order, any
    other token silently; the delimiter is passed over and the tree of
    the tokens after it follows.  Without a delimiter the expression runs
    to the end of the stream and a tree is still returned. *)
Theorem assignment_runs_to_delimiter
        (l1 l2 l3 : Z) (x op d : string) (body rest : list token) :
  forallb not_delimiter body = true ->
  generate_parse_tree
    ((l1, Identifier, x) :: (l2, Assignment_Operator, op) :: body
       ++ (l3, Delimiter, d) :: rest)
  = prepend [assignment_node x body] (generate_parse_tree rest) /\
  generate_parse_tree
    ((l1, Identifier, x) :: (l2, Assignment_Operator, op) :: body)
  = Some (Ok (mkNode "Program" [assignment_node x body])).
Proof.
  intros Hb. split.
  - rewrite (first_round_then_rest _ (S (S (S (List.length body))))
               [assignment_node x body]).
    + change (skipn (S (S (S (List.length body)))) _)
        with (skipn (S (List.length body)) (body ++ (l3, Delimiter, d) :: rest)).
      now rewrite skipn_past.
    + unfold parse_step, getitem. cbn [nth_error bind tok_kind tok_value fst snd].
      change (category_eqb Identifier Delimiter) with false.
      change (category_eqb Identifier Bracket_Parenthesis) with false.
      change (category_eqb Identifier Data_Type) with false.
      change (category_eqb Identifier Line_Comment) with false.
      change (category_eqb Identifier Block_Comment) with false.
      change (category_eqb Identifier Identifier) with true.
      cbn [orb andb plus skipn].
      change (kind_at _ 1 Assignment_Operator) with true. cbn iota.
      rewrite expr_loop_body;
        [| exact Hb | right; eexists; eexists; split; reflexivity].
      cbn [app]. unfold assignment_node. repeat f_equal. lia.
  - rewrite (first_round_then_rest _ (S (S (S (List.length body))))
               [assignment_node x body]).
    + rewrite skipn_all2 by (cbn [List.length]; lia). reflexivity.
    + unfold parse_step, getitem. cbn [nth_error bind tok_kind tok_value fst snd].
      change (category_eqb Identifier Delimiter) with false.
      change (category_eqb Identifier Bracket_Parenthesis) with false.
      change (category_eqb Identifier Data_Type) with false.
      change (category_eqb Identifier Line_Comment) with false.
      change (category_eqb Identifier Block_Comment) with false.
      change (category_eqb Identifier Identifier) with true.
      cbn [orb andb plus skipn].
      change (kind_at _ 1 Assignment_Operator) with true. cbn iota.
      rewrite <- (app_nil_r body) at 1.
      rewrite expr_loop_body; [| exact Hb | now left].
      cbn [app]. unfold assignment_node. repeat f_equal. lia.
Qed.

Lemma assignment_runs_to_delimiter_witness :
  forallb not_delimiter [(1%Z, Identifier, "y"); (1%Z, Relational_Operator, "<");
                         (1%Z, Integer_Constant, "2")] = true /\
  generate_parse_tree
    ((1%Z, Identifier, "x") :: (1%Z, Assignment_Operator, "=")
       :: [(1%Z, Identifier, "y"); (1%Z, Relational_Operator, "<");
           (1%Z, Integer_Constant, "2")])
  = Some (Ok (mkNode "Program"
                [assignment_node "x"
                   [(1%Z, Identifier, "y"); (1%Z, Relational_Operator, "<");
                    (1%Z, Integer_Constant, "2")]])).
Proof.
  split; [reflexivity|].
  apply (proj2 (assignment_runs_to_delimiter 1%Z 1%Z 1%Z "x" "=" ";"
                  [(1%Z, Identifier, "y"); (1%Z, Relational_Operator, "<");
                   (1%Z, Integer_Constant, "2")] [] eq_refl)).
Defined.

End TreeForward.
